(** * libbtrace: the exec-tracing preload shim

    A shallow embedding of the interposer (the C file that defines [_init],
    [logExecution] and the six [exec*] wrappers) and the properties of its
    log format.

    Conventions of the embedding.
    - Memory holds bytes, each a [Z] from 0 to 255.  The code compares
      them with character constants below 128 and, in [safeStrNCmp], as
      [unsigned char], so the byte itself stands for the [char]; only
      [safeStrChr] and [safeStrRChr] compare a [char] with an [int] given
      by the caller, and there [char_value] gives the value of the [char],
      which is signed on the x86 targets of the shim.
    - A [uint64_t] is a [Z] with the reduction modulo [2^64] written out.
    - The [int] index of [writeEscapedString], of the argument loop of
      [logExecution] and of the line loop of [loadFile] is a [Z] whose
      increment at [INT_MAX] has no defined result; the [long] that
      [sysconf] returns goes through [to_int] into the [int] that stores
      it.
    - A pointer into a character array is the list of the bytes from the
      pointee to the end of the array: [s++] is [tl], [*s] is the head, and
      an access past the end of the array has no defined result ([None], or
      [Undef] in the effectful part).  An array the code leaves partly
      uninitialised is cut after its last initialised byte where the code
      can run into the rest ([procStatContent]), and filled with zeros
      where it cannot.
    - System calls act on a [World]: the failures that lie ahead of the
      calls the code retries, [errno], and the trace of the calls made on
      the log file.  What the shim only reads (pids, stat files, the cwd
      link) is in a [Host].
    - [abort()] is the outcome [Abort].  The diagnostic written to the
      standard error descriptor before it ([writeError], [safeAssertFail])
      is modelled on its own, outside the [World]; the descriptor
      [writePid] opens on the stat file and never closes is left out.

    The last part embeds [File::loadFile] of the navigator, which shares
    nothing with the shim. *)

From Stdlib Require Import ZArith List Lia String Ascii Bool.
From stdpp Require Import base list.
Import ListNotations.

Local Open Scope Z_scope.

(** ** Characters and literals *)

Definition byte_of_ascii (c : ascii) : Z := Z.of_nat (nat_of_ascii c).

(** The bytes of a string literal, without its terminator. *)
Definition lit (s : string) : list Z := List.map byte_of_ascii (list_ascii_of_string s).

Definition NUL : Z := 0.
Definition ch_nl : Z := 10.        (* newline *)
Definition ch_space : Z := 32.     (* space *)
Definition ch_quote : Z := 34.     (* double quote *)
Definition ch_zero : Z := 48.      (* digit 0 *)
Definition ch_nine : Z := 57.      (* digit 9 *)
Definition ch_rparen : Z := 41.    (* closing parenthesis *)
Definition ch_bslash : Z := 92.    (* backslash *)

(** A string as the code sees it in memory: its bytes, then the terminator. *)
Definition cstr (s : list Z) : list Z := s ++ [NUL].

Definition u64 (z : Z) : Z := z mod 2 ^ 64.

(** ** Safe primitives *)

(** The value of a [char] that holds the byte [b]: the bytes from 128 on
    are the negative values. *)
Definition char_value (b : Z) : Z :=
  if (128 <=? b) && (b <? 256) then b - 256 else b.

(** [c] is the [int] the caller passes; [char ch = *s] is compared with it
    after promotion to [int]. *)
Fixpoint safeStrChr (s : list Z) (c : Z) : option (option (list Z)) :=
  match s with
  | [] => None
  | b :: s' =>
      let ch := char_value b in
      if ch =? c then Some (Some s)
      else if ch =? NUL then Some None
      else safeStrChr s' c
  end.

Fixpoint safeStrRChr_from (ret : option (list Z)) (s : list Z) (c : Z)
  : option (option (list Z)) :=
  match s with
  | [] => None
  | b :: s' =>
      let ch := char_value b in
      let ret' := if ch =? c then Some s else ret in
      if ch =? NUL then Some ret' else safeStrRChr_from ret' s' c
  end.

Definition safeStrRChr (s : list Z) (c : Z) : option (option (list Z)) :=
  safeStrRChr_from None s c.

Fixpoint safeStrLen (str : list Z) : option nat :=
  match str with
  | [] => None
  | ch :: str' => if ch =? NUL then Some O else option_map S (safeStrLen str')
  end.

(** [safeStrCpy dest src]: the contents of the array [dest] afterwards. *)
Fixpoint safeStrCpy (dest src : list Z) : option (list Z) :=
  match src, dest with
  | [], _ => None
  | _, [] => None
  | ch :: src', _ :: dest' =>
      if ch =? NUL then Some (ch :: dest')
      else option_map (cons ch) (safeStrCpy dest' src')
  end.

(** The [do ... while (val != 0)] loop of [uint64ToString]; [ptr] is the
    index of [ptr] in [tempBuf], and [--ptr] at index 0 leaves the array. *)
Fixpoint uint64ToString_loop (ptr : nat) (tempBuf : list Z) (val : Z)
  : option (nat * list Z) :=
  match ptr with
  | O => None
  | S ptr' =>
      let tempBuf' := <[ptr' := ch_zero + val mod 10]> tempBuf in
      let val' := val / 10 in
      if val' =? 0 then Some (ptr', tempBuf')
      else uint64ToString_loop ptr' tempBuf' val'
  end.

(** [tempBuf] is not initialised by the code; every byte read from it has
    been written before, so its initial contents are taken to be zeros. *)
Definition uint64ToString (output : list Z) (val : Z) : option (list Z) :=
  let tempBuf := <[31%nat := NUL]> (replicate 32 0) in
  match uint64ToString_loop 31 tempBuf val with
  | Some (ptr, tempBuf') => safeStrCpy output (drop ptr tempBuf')
  | None => None
  end.

Definition safeIsDigit (ch : Z) : bool := (ch_zero <=? ch) && (ch <=? ch_nine).

(** [temp * 10 + ( *input - '0')] in [uint64_t]. *)
Definition u64_step (temp ch : Z) : Z := u64 (u64 (temp * 10) + (ch - ch_zero)).

Fixpoint stringToUint64_from (temp : Z) (input : list Z) : option Z :=
  match input with
  | [] => None
  | ch :: input' =>
      if safeIsDigit ch
      then stringToUint64_from (u64_step temp ch) input'
      else Some temp
  end.

Definition stringToUint64 (input : list Z) : option Z :=
  stringToUint64_from 0 input.

(** [s] holds no terminator. *)
Definition nonul (s : list Z) : Prop := Forall (fun ch => ch <> NUL) s.

(** [c] is a character of the 7-bit set: as a [char] it has the value of
    its byte. *)
Definition ascii7 (c : Z) : bool := (0 <=? c) && (c <? 128).

(** [b] is a byte. *)
Definition byte (b : Z) : Prop := 0 <= b < 256.

(** The largest [int]. *)
Definition INT_MAX : Z := 2 ^ 31 - 1.

(** [s] has fewer than [2^31] elements: an [int] can index it up to its
    terminator. *)
Definition fits_int {A} (s : list A) : Prop := Z.of_nat (length s) <= INT_MAX.

(** No byte of [s] is met as [c] by [safeStrChr]. *)
Definition misses (c : Z) (s : list Z) : Prop := Forall (fun b => char_value b <> c) s.

(** [s] is made of decimal digits. *)
Definition digits (s : list Z) : Prop := Forall (fun ch => safeIsDigit ch = true) s.

(** ** Decimal notation, as a specification *)

(** The value of a digit string, most significant digit first. *)
Definition dec_value (ds : list Z) : Z :=
  fold_left (fun acc d => acc * 10 + (d - ch_zero)) ds 0.

Fixpoint decimal_fuel (fuel : nat) (n : Z) : list Z :=
  match fuel with
  | O => []
  | S fuel' =>
      (if n / 10 =? 0 then [] else decimal_fuel fuel' (n / 10))
        ++ [ch_zero + n mod 10]
  end.

(** The decimal representation of [n >= 0] without leading zeros. *)
Definition decimal (n : Z) : list Z := decimal_fuel (S (Z.to_nat (Z.log2 n))) n.

(** ** Pointers *)

(** The values passed around as pointers: [NULL], a pointer to characters,
    or a pointer to an array of pointers (an argument vector, an
    environment).  Arrays carry their terminator as an explicit element. *)
#[local] Unset Elimination Schemes.
Inductive ptr : Type :=
| PNull
| PStr (bytes : list Z)
| PVec (elems : list ptr).
#[local] Set Elimination Schemes.

Definition libbtrace_c_NULL_constant : ptr := PNull.
Definition hiddenNull : ptr := libbtrace_c_NULL_constant.

(** [p == q] where one side is a null pointer constant. *)
Definition ptr_is (p q : ptr) : bool :=
  match p, q with
  | PNull, PNull => true
  | _, _ => false
  end.

Fixpoint safeStrNCmp (s1 s2 : list Z) (n : nat) {struct n} : option Z :=
  match n with
  | O => Some 0
  | S n' =>
      match s1, s2 with
      | ch1 :: s1', ch2 :: s2' =>
          if negb (ch1 =? ch2) || (ch1 =? NUL) || (ch2 =? NUL)
          then Some (ch1 - ch2)
          else safeStrNCmp s1' s2' n'
      | _, _ => None
      end
  end.

(** [parts] is an array of pointers ended by [NULL]. *)
Fixpoint strListLen (parts : list ptr) : option nat :=
  match parts with
  | PStr part :: parts' =>
      match safeStrLen part, strListLen parts' with
      | Some n, Some total => Some (n + total)%nat
      | _, _ => None
      end
  | PNull :: _ => Some 1%nat
  | _ => None
  end.

(** [strListCat target parts]: the contents of the array [target]
    afterwards. *)
Fixpoint strListCat (target : list Z) (parts : list ptr) : option (list Z) :=
  match parts with
  | PStr part :: parts' =>
      match safeStrCpy target part, safeStrLen part with
      | Some target', Some n =>
          option_map (app (take n target')) (strListCat (drop n target') parts')
      | _, _ => None
      end
  | PNull :: _ => Some target
  | _ => None
  end.

(** The bytes of the string at [s], for the system calls that take a path. *)
Fixpoint string_at (s : list Z) : option (list Z) :=
  match s with
  | [] => None
  | ch :: s' => if ch =? NUL then Some [] else option_map (cons ch) (string_at s')
  end.

(** ** Diagnostics *)

(** Strings as an array of pointers finds them: each with the bytes that
    follow its terminator in memory. *)
Definition parts_of (strs : list (list Z * list Z)) : list ptr :=
  List.map (fun p => PStr (fst p ++ NUL :: snd p)) strs.

(** An array the code declares and does not initialise: [garbage] gives
    the byte each cell happens to hold. *)
Definition uninitialised (garbage : nat -> Z) (size : nat) : list Z :=
  List.map garbage (seq 0 size).

(** [writeError(parts)]: the bytes handed to [write] on the standard error
    descriptor, whose return value the code ignores. *)
Definition writeError (garbage : nat -> Z) (parts : list ptr) : option (list Z) :=
  match strListLen parts with
  | None => None
  | Some size =>
      let message := uninitialised garbage size in
      match strListCat message parts with
      | None => None
      | Some message =>
          match safeStrLen message with
          | None => None
          | Some len => Some (take len message)
          end
      end
  end.

(** [safeAssertFail]: the diagnostic written before [abort()].  [line] is
    an [int], converted to [uint64_t] by the call of [uint64ToString];
    [garbage] is what [lineString] holds on entry, [garbage'] what the
    message array of [writeError] does. *)
Definition safeAssertFail (garbage garbage' : nat -> Z) (filename : list Z) (line : Z)
    (func condition : list Z) : option (list Z) :=
  match uint64ToString (uninitialised garbage 32) (u64 line) with
  | None => None
  | Some lineString =>
      writeError garbage'
        [PStr (cstr (lit "libbtrace.so: ")); PStr filename; PStr (cstr (lit ":"));
         PStr lineString; PStr (cstr (lit ": ")); PStr func;
         PStr (cstr (lit ": Assertion `")); PStr condition;
         PStr (cstr (lit "' failed." ++ [ch_nl])); PNull]
  end.

(** The diagnostic of [writeSymLinkTarget] when no attempt has succeeded:
    the array literal holds the two strings and no [NULL]. *)
Definition writeSymLinkTarget_error (garbage : nat -> Z) (symLinkTarget : list Z)
  : option (list Z) :=
  writeError garbage
    [PStr (cstr (lit "libbtrace.so: Error reading symlink ")); PStr symLinkTarget].

(** ** The host and the world *)

Definition EINTR : Z := 4.

(** What [open]+[read] on a [/proc/<pid>/stat] path give. *)
Inductive stat_file : Type :=
| StatNoOpen
| StatReadError
| StatContent (content : list Z).

(** The part of the host the shim only reads. *)
Record Host : Type := {
  h_ppid : Z;                                 (* getppid() *)
  h_pid : Z;                                  (* getpid() *)
  h_stat : list Z -> stat_file;               (* by path *)
  h_readlink : list Z -> option (list Z);     (* link target by path *)
  h_log_fd : Z;                               (* descriptor open() hands out *)
  h_environ : ptr;                            (* the variable environ *)
  h_unlock_ok : bool;                         (* fcntl(F_SETLK, F_UNLCK) == 0 *)
  h_stack : nat -> Z                          (* what an uninitialised array holds *)
}.

Inductive fault : Type :=
| Fails (errno : Z).

Inductive write_fault : Type :=
| WriteFails (errno : Z)
| WriteShort (n : nat).

Inductive event : Type :=
| EvOpen (path : list Z) (fd : Z)
| EvLock (fd : Z)
| EvWrite (fd : Z) (data : list Z)
| EvUnlock (fd : Z)
| EvClose (fd : Z).

(** The part that changes: the failures the next [open], [fcntl(F_SETLKW)]
    and [write] attempts will meet (an exhausted script means success), the
    value of [errno], and the calls made on the trace file so far. *)
Record World : Type := {
  w_open_faults : list fault;
  w_lock_faults : list fault;
  w_write_faults : list write_fault;
  w_errno : Z;
  w_events : list event
}.

Inductive result (A : Type) : Type :=
| Ok (a : A) (w : World)
| Abort (w : World)
| Undef
| OutOfFuel.
Arguments Ok {A} a w.
Arguments Abort {A} w.
Arguments Undef {A}.
Arguments OutOfFuel {A}.

Definition M (A : Type) : Type := World -> result A.

Definition ret {A} (a : A) : M A := fun w => Ok a w.

Definition bind {A B} (m : M A) (k : A -> M B) : M B :=
  fun w =>
    match m w with
    | Ok a w' => k a w'
    | Abort w' => Abort w'
    | Undef => Undef
    | OutOfFuel => OutOfFuel
    end.

Notation "'do' x <- m ; k" := (bind m (fun x => k))
  (at level 10, x name, m at level 100, k at level 200).

Definition abort {A} : M A := fun w => Abort w.
Definition undef {A} : M A := fun _ => Undef.

(** [safeAssert(condition)] *)
Definition safeAssert (condition : bool) : M unit :=
  if condition then ret tt else abort.

(** A value the pure primitives leave undefined. *)
Definition defined {A} (o : option A) : M A :=
  match o with
  | Some a => ret a
  | None => undef
  end.

Definition set_errno (e : Z) (w : World) : World :=
  {| w_open_faults := w_open_faults w; w_lock_faults := w_lock_faults w;
     w_write_faults := w_write_faults w; w_errno := e; w_events := w_events w |}.

Definition set_open_faults (fs : list fault) (w : World) : World :=
  {| w_open_faults := fs; w_lock_faults := w_lock_faults w;
     w_write_faults := w_write_faults w; w_errno := w_errno w;
     w_events := w_events w |}.

Definition set_lock_faults (fs : list fault) (w : World) : World :=
  {| w_open_faults := w_open_faults w; w_lock_faults := fs;
     w_write_faults := w_write_faults w; w_errno := w_errno w;
     w_events := w_events w |}.

Definition set_write_faults (fs : list write_fault) (w : World) : World :=
  {| w_open_faults := w_open_faults w; w_lock_faults := w_lock_faults w;
     w_write_faults := fs; w_errno := w_errno w; w_events := w_events w |}.

Definition emit (ev : event) (w : World) : World :=
  {| w_open_faults := w_open_faults w; w_lock_faults := w_lock_faults w;
     w_write_faults := w_write_faults w; w_errno := w_errno w;
     w_events := w_events w ++ [ev] |}.

(** [EINTR_LOOP(expr)] over a call whose failures are scripted: the script
    left, and the [errno] of the attempt that ended the loop ([None] when
    that attempt succeeded).  [errno] afterwards is that of the last failed
    attempt, if any. *)
Fixpoint EINTR_LOOP (faults : list fault) (errno : Z)
  : list fault * Z * option Z :=
  match faults with
  | [] => ([], errno, None)
  | Fails e :: faults' =>
      if e =? EINTR then EINTR_LOOP faults' e else (faults', e, Some e)
  end.

(** [EINTR_LOOP(open(filename, O_WRONLY|O_APPEND|O_CREAT|O_CLOEXEC, 0644))] *)
Definition open_append (h : Host) (filename : list Z) : M Z :=
  do path <- defined (string_at filename);
  fun w =>
    match EINTR_LOOP (w_open_faults w) (w_errno w) with
    | (fs, e, None) =>
        Ok (h_log_fd h) (emit (EvOpen path (h_log_fd h)) (set_errno e (set_open_faults fs w)))
    | (fs, e, Some _) => Ok (-1) (set_errno e (set_open_faults fs w))
    end.

(** [EINTR_LOOP(fcntl(fd, F_SETLKW, &lock))] with a whole-file write lock. *)
Definition lock_wait (fd : Z) : M Z :=
  fun w =>
    match EINTR_LOOP (w_lock_faults w) (w_errno w) with
    | (fs, e, None) => Ok 0 (emit (EvLock fd) (set_errno e (set_lock_faults fs w)))
    | (fs, e, Some _) => Ok (-1) (set_errno e (set_lock_faults fs w))
    end.

(** [EINTR_LOOP(write(fd, data, count))]: the amount returned. *)
Fixpoint write_loop (faults : list write_fault) (fd : Z) (data : list Z) (w : World)
  : Z * World :=
  match faults with
  | [] => (Z.of_nat (length data), emit (EvWrite fd data) (set_write_faults [] w))
  | WriteFails e :: faults' =>
      if e =? EINTR then write_loop faults' fd data (set_errno e w)
      else (-1, set_errno e (set_write_faults faults' w))
  | WriteShort n :: faults' =>
      (Z.of_nat (length (take n data)),
       emit (EvWrite fd (take n data)) (set_write_faults faults' w))
  end.

(** ** The log file session *)

Record LogFile : Type := {
  fd : Z;
  buf : list Z;          (* char buf[1024] *)
  bufCount : Z
}.

Definition sizeof_buf : Z := 1024.

Definition openLogFile (h : Host) (filename : list Z) : M LogFile :=
  fun w =>
    (do fd <- open_append h filename;
     do _ <- safeAssert (negb (fd =? -1));
     do lockRet <- lock_wait fd;
     do _ <- safeAssert (lockRet =? 0);
     ret {| fd := fd; buf := replicate 1024 0; bufCount := 0 |})
      (set_errno 0 w).

Definition flushLogFile (logFile : LogFile) : M LogFile :=
  fun w =>
    if (0 <=? bufCount logFile) && (bufCount logFile <=? sizeof_buf) then
      let '(amount, w') :=
        write_loop (w_write_faults w) (fd logFile)
          (take (Z.to_nat (bufCount logFile)) (buf logFile)) w in
      (do _ <- safeAssert (amount =? bufCount logFile);
       ret {| fd := fd logFile; buf := buf logFile; bufCount := 0 |}) w'
    else Undef.

Definition writeChar (logFile : LogFile) (ch : Z) : M LogFile :=
  do logFile <- (if bufCount logFile =? sizeof_buf
                 then flushLogFile logFile else ret logFile);
  if (0 <=? bufCount logFile) && (bufCount logFile <? sizeof_buf)
  then ret {| fd := fd logFile;
              buf := <[Z.to_nat (bufCount logFile) := ch]> (buf logFile);
              bufCount := bufCount logFile + 1 |}
  else undef.

Definition closeLogFile (h : Host) (logFile : LogFile) : M unit :=
  do logFile <- flushLogFile logFile;
  do _ <- safeAssert (h_unlock_ok h);
  fun w => Ok tt (emit (EvClose (fd logFile)) (emit (EvUnlock (fd logFile)) w)).

Fixpoint writeString (logFile : LogFile) (text : list Z) : M LogFile :=
  match text with
  | [] => undef
  | ch :: text' =>
      if ch =? NUL then ret logFile
      else do logFile <- writeChar logFile ch; writeString logFile text'
  end.

(** The [for (int i = 0; text[i] != 0; ++i)] loop of [writeEscapedString]:
    [text] is the string from index [i] on.  [i] is an [int]: [++i] has no
    defined result at [INT_MAX]. *)
Fixpoint writeEscapedString_loop (logFile : LogFile) (text : list Z) (i : Z)
  : M LogFile :=
  match text with
  | [] => undef
  | ch :: text' =>
      if ch =? NUL then ret logFile
      else
        do logFile <- (if (ch =? ch_bslash) || (ch =? ch_quote)
                       then writeChar logFile ch_bslash else ret logFile);
        do logFile <- writeChar logFile ch;
        if i <? INT_MAX then writeEscapedString_loop logFile text' (i + 1)
        else undef
  end.

(** [needsQuotes]: [safeStrChr] for a space, or else [safeStrChr] for a
    newline, is not [NULL]. *)
Definition needsQuotes_of (text : list Z) : option bool :=
  match safeStrChr text ch_space with
  | None => None
  | Some (Some _) => Some true
  | Some None =>
      match safeStrChr text ch_nl with
      | None => None
      | Some (Some _) => Some true
      | Some None => Some false
      end
  end.

Definition writeEscapedString (logFile : LogFile) (text : list Z) : M LogFile :=
  do needsQuotes <- defined (needsQuotes_of text);
  do logFile <- (if needsQuotes : bool then writeChar logFile ch_quote else ret logFile);
  do logFile <- writeEscapedString_loop logFile text 0;
  if needsQuotes : bool then writeChar logFile ch_quote else ret logFile.

(** ** The record writer *)

Definition chars_of (p : ptr) : option (list Z) :=
  match p with
  | PStr bytes => Some bytes
  | _ => None
  end.

(** [readlink] stores at most [size] bytes of the target and returns their
    number; the bytes of [buf] it leaves uninitialised are never read. *)
Definition attemptWriteSymLinkTarget (h : Host) (logFile : LogFile)
    (symLinkTarget : list Z) (size : Z) : M (bool * LogFile) :=
  do path <- defined (string_at symLinkTarget);
  match h_readlink h path with
  | None => abort
  | Some target =>
      let data := take (Z.to_nat size) target in
      let amount := Z.of_nat (length data) in
      if amount <? size then
        let buf := data ++ [NUL] in
        do logFile <- writeEscapedString logFile buf;
        do logFile <- writeChar logFile ch_nl;
        ret (true, logFile)
      else
        do _ <- safeAssert (amount =? size);
        ret (false, logFile)
  end.

(** The [while (bufSize < 1024 * 1024)] loop and, after it, the branch
    under [if (!success)]: the diagnostic, then [abort()]. *)
Fixpoint writeSymLinkTarget_loop (fuel : nat) (h : Host) (logFile : LogFile)
    (symLinkTarget : list Z) (bufSize : Z) : M LogFile :=
  if bufSize <? 1024 * 1024 then
    match fuel with
    | O => fun _ => OutOfFuel
    | S fuel' =>
        do r <- attemptWriteSymLinkTarget h logFile symLinkTarget bufSize;
        if fst r then ret (snd r)
        else writeSymLinkTarget_loop fuel' h (snd r) symLinkTarget
               (u64 (Z.shiftl bufSize 1))
    end
  else
    do _ <- defined (writeSymLinkTarget_error (h_stack h) symLinkTarget);
    abort.

Definition writeSymLinkTarget (h : Host) (logFile : LogFile)
    (symLinkTarget : list Z) : M LogFile :=
  writeSymLinkTarget_loop 12 h logFile symLinkTarget 256.

(** [n] rounds of [p = safeStrChr(p, ' '); safeAssert(p != NULL); p++]. *)
Fixpoint advance_fields (n : nat) (p : list Z) : M (list Z) :=
  match n with
  | O => ret p
  | S n' =>
      do q <- defined (safeStrChr p ch_space);
      match q with
      | None => abort
      | Some q => advance_fields n' (drop 1 q)
      end
  end.

(** [read] returns what the file holds, up to the 1023 bytes asked for.
    [procStatContent] is cut after the terminator the code stores: the
    bytes behind it are uninitialised. *)
Definition writePid (h : Host) (bootTimeInJiffies : Z) (logFile : LogFile)
    (pid : Z) : M LogFile :=
  do pidString <- defined (uint64ToString (replicate 32 0) pid);
  do logFile <- writeString logFile pidString;
  do logFile <- writeChar logFile ch_nl;
  do procStatPath <-
    defined (strListCat (replicate 64 0)
               [PStr (cstr (lit "/proc/")); PStr pidString;
                PStr (cstr (lit "/stat")); PNull]);
  do path <- defined (string_at procStatPath);
  match h_stat h path with
  | StatNoOpen => abort
  | StatReadError => abort
  | StatContent content =>
      let procStatContent := take 1023 content ++ [NUL] in
      do p <- defined (safeStrRChr procStatContent ch_rparen);
      match p with
      | None => abort
      | Some p =>
          let p := drop 2 p in
          do p <- advance_fields (22 - 3) p;
          do pEnd <- defined (safeStrChr p ch_space);
          do _ <- safeAssert (bool_decide (is_Some pEnd));
          do ticks <- defined (stringToUint64 p);
          do startTime <-
            defined (uint64ToString (replicate 32 0) (u64 (bootTimeInJiffies + ticks)));
          do logFile <- writeString logFile startTime;
          writeChar logFile ch_nl
      end
  end.

Definition RealExec : Type := ptr -> ptr -> ptr -> M Z.

(** The state [_init] sets up. *)
Record Globals : Type := {
  real_execve : RealExec;
  real_execvpe : RealExec;
  g_logFileName : list Z;          (* char g_logFileName[1024] *)
  g_bootTimeInJiffies : Z
}.

(** The [for (int i = 0; argv[i] != hiddenNull; ++i)] loop: [argv] is the
    vector from index [i] on.  [i] is an [int]: [++i] has no defined result
    at [INT_MAX]. *)
Fixpoint write_arguments (logFile : LogFile) (i : Z) (argv : list ptr) : M LogFile :=
  match argv with
  | [] => undef
  | a :: argv' =>
      if ptr_is a hiddenNull then ret logFile
      else
        do logFile <- (if 0 <? i then writeChar logFile ch_space else ret logFile);
        do text <- defined (chars_of a);
        do logFile <- writeEscapedString logFile text;
        if i <? INT_MAX then write_arguments logFile (i + 1) argv' else undef
  end.

(** The block under [Write arguments.] in [logExecution] and the newline
    that ends the argument line. *)
Definition write_argument_line (logFile : LogFile) (argv : ptr) : M LogFile :=
  do logFile <-
    (if negb (ptr_is argv hiddenNull) then
       match argv with
       | PVec elems => write_arguments logFile 0 elems
       | _ => undef
       end
     else ret logFile);
  writeChar logFile ch_nl.

Definition u32 (z : Z) : Z := z mod 2 ^ 32.

Definition logExecution (h : Host) (g : Globals) (filename argv : ptr) : M unit :=
  match g_logFileName g with
  | [] => undef
  | c :: _ =>
      if c =? NUL then ret tt
      else
        do logFile <- openLogFile h (g_logFileName g);
        do logFile <- writeString logFile (cstr (lit "exec" ++ [ch_nl]));
        do logFile <- writePid h (g_bootTimeInJiffies g) logFile (u32 (h_ppid h));
        do logFile <- writePid h (g_bootTimeInJiffies g) logFile (u32 (h_pid h));
        do logFile <- writeSymLinkTarget h logFile (cstr (lit "/proc/self/cwd"));
        do text <- defined (chars_of filename);
        do logFile <- writeEscapedString logFile text;
        do logFile <- writeChar logFile ch_nl;
        do logFile <- write_argument_line logFile argv;
        do logFile <- writeChar logFile ch_nl;
        closeLogFile h logFile
  end.

(** ** The interception surface *)

Definition wrap_execve (h : Host) (g : Globals) (path argv envp : ptr) : M Z :=
  do _ <- logExecution h g path argv;
  real_execve g path argv envp.

Definition wrap_execvpe (h : Host) (g : Globals) (file argv envp : ptr) : M Z :=
  do _ <- logExecution h g file argv;
  real_execvpe g file argv envp.

Definition execv (h : Host) (g : Globals) (path argv : ptr) : M Z :=
  wrap_execve h g path argv (h_environ h).

Definition execvp (h : Host) (g : Globals) (file argv : ptr) : M Z :=
  wrap_execvpe h g file argv (h_environ h).

Definition execve (h : Host) (g : Globals) (path argv envp : ptr) : M Z :=
  wrap_execve h g path argv envp.

Definition execvpe (h : Host) (g : Globals) (file argv envp : ptr) : M Z :=
  wrap_execvpe h g file argv envp.

(** A [va_list] is the list of the arguments not yet fetched. *)
Definition va_arg (ap : list ptr) : option (ptr * list ptr) :=
  match ap with
  | [] => None
  | v :: ap' => Some (v, ap')
  end.

(** [while (va_arg(AP, const char* ) != NULL) COUNT++] *)
Fixpoint va_count (count : nat) (ap : list ptr) : option nat :=
  match ap with
  | [] => None
  | v :: ap' => if ptr_is v PNull then Some count else va_count (S count) ap'
  end.

Definition ARG_COUNT (arg : ptr) (va : list ptr) : option nat :=
  if negb (ptr_is arg hiddenNull) then va_count 1 va else Some O.

(** [for (int i = 1; i < count; ++i) argv[i] = va_arg(ap, char* )];
    [n] is the number of rounds left. *)
Fixpoint fill_argv (n i : nat) (argv ap : list ptr) : option (list ptr * list ptr) :=
  match n with
  | O => Some (argv, ap)
  | S n' =>
      match va_arg ap with
      | None => None
      | Some (v, ap') => fill_argv n' (S i) (<[i := v]> argv) ap'
      end
  end.

(** [argv[0] = arg] and the loop, under [if (arg != hiddenNull)]. *)
Definition collect_argv (count : nat) (arg : ptr) (argv va : list ptr)
  : option (list ptr * list ptr) :=
  fill_argv (count - 1) 1 (<[0%nat := arg]> argv) va.

(** The argument vector [execl] and [execlp] build (their bodies are the
    same up to the wrapper called): [count], the array of [count + 1]
    pointers, and [argv[count] = NULL]. *)
Definition execl_argv (arg : ptr) (va : list ptr) : option (list ptr) :=
  match ARG_COUNT arg va with
  | None => None
  | Some count =>
      let argv := replicate (count + 1) PNull in
      match (if negb (ptr_is arg hiddenNull)
             then collect_argv count arg argv va
             else Some (argv, va)) with
      | None => None
      | Some (argv, _) => Some (<[count := PNull]> argv)
      end
  end.

(** The argument vector and the environment [execle] fetches: inside the
    branch one more [va_arg] skips the sentinel, and [envp] is the
    [va_arg] after the branch. *)
Definition execle_argv (arg : ptr) (va : list ptr) : option (list ptr * ptr) :=
  match ARG_COUNT arg va with
  | None => None
  | Some count =>
      let argv := replicate (count + 1) PNull in
      match (if negb (ptr_is arg hiddenNull)
             then
               match collect_argv count arg argv va with
               | None => None
               | Some (argv, ap) =>
                   match va_arg ap with
                   | None => None
                   | Some (_, ap) => Some (argv, ap)
                   end
               end
             else Some (argv, va)) with
      | None => None
      | Some (argv, ap) =>
          let argv := <[count := PNull]> argv in
          match va_arg ap with
          | None => None
          | Some (envp, _) => Some (argv, envp)
          end
      end
  end.

Definition execl (h : Host) (g : Globals) (path arg : ptr) (va : list ptr) : M Z :=
  do argv <- defined (execl_argv arg va);
  wrap_execve h g path (PVec argv) (h_environ h).


Definition execle (h : Host) (g : Globals) (path arg : ptr) (va : list ptr) : M Z :=
  do r <- defined (execle_argv arg va);
  wrap_execve h g path (PVec (fst r)) (snd r).

(** ** Initialisation *)

(** What the loader and the host give [_init]. *)
Record Loader : Type := {
  ld_execve : option RealExec;             (* dlsym(RTLD_NEXT, execve) *)
  ld_execvpe : option RealExec;            (* dlsym(RTLD_NEXT, execvpe) *)
  ld_getenv : ptr;                         (* getenv(BTRACE_LOG_ENV_VAR) *)
  ld_clk_tck : Z;                          (* sysconf(_SC_CLK_TCK), a long *)
  ld_proc_stat : option (list (list Z))    (* the lines of /proc/stat *)
}.

Definition sizeof_g_logFileName : Z := 1024.

(** A [long] stored in an [int]: its low 32 bits, signed. *)
Definition to_int (z : Z) : Z := (z + 2 ^ 31) mod 2 ^ 32 - 2 ^ 31.

(** The array [g_logFileName] after
    [if (logFileVar != NULL && safeStrLen(logFileVar) < sizeof(g_logFileName))
       safeStrCpy(g_logFileName, logFileVar)];
    it is static, hence zero before. *)
Definition init_logFileName (logFileVar : ptr) : option (list Z) :=
  let g_logFileName := replicate 1024 0 in
  match logFileVar with
  | PNull => Some g_logFileName
  | PStr bytes =>
      match safeStrLen bytes with
      | None => None
      | Some n =>
          if Z.of_nat n <? sizeof_g_logFileName
          then safeStrCpy g_logFileName bytes
          else Some g_logFileName
      end
  | PVec _ => None
  end.

(** The [getline] loop: [Some (Some b)] when it leaves [b] in
    [g_bootTimeInJiffies], [Some None] when an assertion inside fails. *)
Fixpoint init_bootTime (lines : list (list Z)) (jiffiesPerSecond : Z)
  : option (option Z) :=
  match lines with
  | [] => Some (Some 0)
  | line :: lines' =>
      match safeStrNCmp line (cstr (lit "btime ")) 6 with
      | None => None
      | Some cmp =>
          if cmp =? 0 then
            match stringToUint64 (drop 6 line) with
            | None => None
            | Some v =>
                let b := u64 (v * jiffiesPerSecond) in
                if 0 <? b then Some (Some b) else Some None
            end
          else init_bootTime lines' jiffiesPerSecond
      end
  end.

(** [_init]: [None] where the model leaves the behaviour undefined,
    [Some None] for [abort()].  The result of [sysconf] is stored in
    [const int jiffiesPerSecond] before it is tested and used. *)
Definition _init (ld : Loader) : option (option Globals) :=
  match ld_execve ld, ld_execvpe ld with
  | Some real_execve, Some real_execvpe =>
      match init_logFileName (ld_getenv ld) with
      | None => None
      | Some name =>
          let jiffiesPerSecond := to_int (ld_clk_tck ld) in
          if 1 <=? jiffiesPerSecond then
            match ld_proc_stat ld with
            | None => Some None
            | Some lines =>
                match init_bootTime lines jiffiesPerSecond with
                | None => None
                | Some None => Some None
                | Some (Some b) =>
                    if 0 <? b then
                      Some (Some {| real_execve := real_execve;
                                    real_execvpe := real_execvpe;
                                    g_logFileName := name;
                                    g_bootTimeInJiffies := b |})
                    else Some None
                end
            end
          else Some None
      end
  | _, _ => Some None
  end.

(** ** What a session has put into the file *)

(** The bytes the [write] calls of a trace appended. *)
Definition written (evs : list event) : list Z :=
  flat_map (fun ev => match ev with EvWrite _ data => data | _ => [] end) evs.

(** The bytes waiting in the staging buffer. *)
Definition buffered (logFile : LogFile) : list Z :=
  take (Z.to_nat (bufCount logFile)) (buf logFile).

(** The staging buffer is the 1024-byte array and its count is in range. *)
Definition lf_ok (logFile : LogFile) : Prop :=
  length (buf logFile) = 1024%nat /\ 0 <= bufCount logFile <= sizeof_buf.

(** No [write] will fail or fall short: interruptions only. *)
Definition quiet (w : World) : Prop :=
  Forall (fun f => f = WriteFails EINTR) (w_write_faults w).

Definition ready (logFile : LogFile) (w : World) : Prop :=
  lf_ok logFile /\ quiet w.

(** From [(logFile, w)] to [(logFile', w')] the session has gained [bytes]:
    some were written to the descriptor, in order, the rest is buffered. *)
Definition appends (logFile : LogFile) (w : World) (bytes : list Z)
    (logFile' : LogFile) (w' : World) : Prop :=
  ready logFile' w' /\ fd logFile' = fd logFile /\
  exists chunks,
    w_events w' = w_events w ++ map (EvWrite (fd logFile)) chunks
    /\ concat chunks ++ buffered logFile' = buffered logFile ++ bytes.

(** [m] completes and the session gains [bytes]. *)
Definition writes (m : M LogFile) (logFile : LogFile) (w : World)
    (bytes : list Z) : Prop :=
  exists logFile' w', m w = Ok logFile' w' /\ appends logFile w bytes logFile' w'.

(** [m] completes the session: with what was buffered, [bytes] reach the
    file through the descriptor, then the lock is released and the
    descriptor closed. *)
Definition finishes (m : M unit) (logFile : LogFile) (w : World)
    (bytes : list Z) : Prop :=
  exists w' chunks,
    m w = Ok tt w'
    /\ w_events w'
       = w_events w ++ List.map (EvWrite (fd logFile)) chunks
           ++ [EvUnlock (fd logFile); EvClose (fd logFile)]
    /\ concat chunks = buffered logFile ++ bytes.

(** ** The quoting scheme *)

(** What [writeEscapedString] writes for one character of the text. *)
Definition escape_char (ch : Z) : list Z :=
  if (ch =? ch_bslash) || (ch =? ch_quote) then [ch_bslash; ch] else [ch].

Definition needs_quotes (s : list Z) : bool :=
  existsb (Z.eqb ch_space) s || existsb (Z.eqb ch_nl) s.

(** What [writeEscapedString] writes for the string [s]. *)
Definition escaped (s : list Z) : list Z :=
  (if needs_quotes s then [ch_quote] else [])
    ++ flat_map escape_char s
    ++ (if needs_quotes s then [ch_quote] else []).

(** The decoder of a log consumer, following the spec's words: remove the
    enclosing quotes if present, then replace backslash-backslash by
    backslash and backslash-quote by quote, left to right. *)
Definition spec_strip_quotes (field : list Z) : list Z :=
  match field with
  | q :: inner =>
      match last inner with
      | Some l => if (q =? ch_quote) && (l =? ch_quote) then removelast inner else field
      | None => field
      end
  | [] => []
  end.

Fixpoint spec_unescape (field : list Z) : list Z :=
  match field with
  | [] => []
  | b :: field' =>
      match field' with
      | [] => [b]
      | c :: rest =>
          if (b =? ch_bslash) && ((c =? ch_bslash) || (c =? ch_quote))
          then c :: spec_unescape rest
          else b :: spec_unescape field'
      end
  end.

Definition spec_decode (field : list Z) : list Z :=
  spec_unescape (spec_strip_quotes field).

(** ** Sessions as sequences of operations *)

(** The operations the record writer performs on an open session. *)
Inductive session_op : Type :=
| OpWriteChar (ch : Z)
| OpWriteString (text : list Z)
| OpWriteEscapedString (text : list Z)
| OpFlush
| OpWritePid (pid : Z)
| OpWriteSymLinkTarget (symLinkTarget : list Z).

Definition run_op (h : Host) (bootTimeInJiffies : Z) (logFile : LogFile)
    (op : session_op) : M LogFile :=
  match op with
  | OpWriteChar ch => writeChar logFile ch
  | OpWriteString text => writeString logFile text
  | OpWriteEscapedString text => writeEscapedString logFile text
  | OpFlush => flushLogFile logFile
  | OpWritePid pid => writePid h bootTimeInJiffies logFile pid
  | OpWriteSymLinkTarget symLinkTarget => writeSymLinkTarget h logFile symLinkTarget
  end.

Fixpoint run_ops (h : Host) (bootTimeInJiffies : Z) (logFile : LogFile)
    (ops : list session_op) : M LogFile :=
  match ops with
  | [] => ret logFile
  | op :: ops' =>
      do logFile <- run_op h bootTimeInJiffies logFile op;
      run_ops h bootTimeInJiffies logFile ops'
  end.

(** A session from [openLogFile] on. *)
Definition session (h : Host) (bootTimeInJiffies : Z) (filename : list Z)
    (ops : list session_op) : M LogFile :=
  do logFile <- openLogFile h filename;
  run_ops h bootTimeInJiffies logFile ops.

(** Whenever [m] completes, the staging buffer is in range. *)
Definition keeps (m : M LogFile) : Prop :=
  forall w logFile' w', m w = Ok logFile' w' -> lf_ok logFile'.

(** ** The argument line and the record *)

Definition more_args (args : list (list Z)) : list Z :=
  flat_map (fun a => ch_space :: escaped a) args.

(** The arguments, escaped, with one space between neighbours. *)
Definition arg_line (args : list (list Z)) : list Z :=
  match args with
  | [] => []
  | a :: args' => escaped a ++ more_args args'
  end.

(** An argument vector holding the strings [args]. *)
Definition argv_of (args : list (list Z)) (junk : list ptr) : ptr :=
  PVec (List.map (fun a => PStr (cstr a)) args ++ PNull :: junk).

(** The nine fields of a record, each ended by a newline. *)
Definition record_fields (ppid ppid_ticks pid pid_ticks : Z)
    (cwd filename : list Z) (args : list (list Z)) : list (list Z) :=
  [lit "exec"; decimal ppid; decimal ppid_ticks; decimal pid; decimal pid_ticks;
   escaped cwd; escaped filename; arg_line args; []].

Definition record_bytes (fields : list (list Z)) : list Z :=
  flat_map (fun f => f ++ [ch_nl]) fields.

(** The lines of a text: the runs of bytes ended by a newline. *)
Fixpoint lines_from (cur : list Z) (text : list Z) : list (list Z) :=
  match text with
  | [] => []
  | ch :: text' =>
      if ch =? ch_nl then rev cur :: lines_from [] text'
      else lines_from (ch :: cur) text'
  end.

Definition lines (text : list Z) : list (list Z) := lines_from [] text.

(** Only interruptions lie ahead of [open], [fcntl] and [write]. *)
Definition calm (w : World) : Prop :=
  Forall (fun f => f = Fails EINTR) (w_open_faults w)
  /\ Forall (fun f => f = Fails EINTR) (w_lock_faults w)
  /\ quiet w.

(** ** The stat line *)

(** A stat line as proc(5) lays it out: the pid, the executable name in
    parentheses, then space-separated fields; [fields] are fields 3 to 21,
    [ticks] is field 22 and [tail] what follows it. *)
Definition stat_fields (fields : list (list Z)) (ticks tail : list Z) : list Z :=
  concat (List.map (fun f => f ++ [ch_space]) fields) ++ ticks ++ ch_space :: tail.

Definition stat_line (pidtxt comm : list Z) (fields : list (list Z))
    (ticks tail : list Z) : list Z :=
  pidtxt ++ lit " (" ++ comm ++ ch_rparen :: ch_space :: stat_fields fields ticks tail.

(** The stat file of [pid] is such a line, fits the read window, and its
    field 22 reads [start].  The executable name is any run of bytes. *)
Definition stat_shows (h : Host) (pid start : Z) : Prop :=
  exists pidtxt comm fields ticks tail,
    h_stat h (lit "/proc/" ++ decimal pid ++ lit "/stat")
    = StatContent (stat_line pidtxt comm fields ticks tail)
    /\ (length (stat_line pidtxt comm fields ticks tail) <= 1023)%nat
    /\ nonul (stat_line pidtxt comm fields ticks tail)
    /\ (ch_rparen ∉ stat_fields fields ticks tail)
    /\ length fields = 19%nat
    /\ Forall (fun f => ch_space ∉ f) fields
    /\ digits ticks
    /\ dec_value ticks = start.

(** ** A sample host *)

Definition sample_fields : list (list Z) :=
  List.map lit ["S"; "1"; "2"; "3"; "4"; "5"; "6"; "7"; "8"; "9"; "10"; "11";
                "12"; "13"; "14"; "15"; "16"; "17"; "18"]%string.

(** The executable name holds a closing parenthesis and a space. *)
Definition sample_comm : list Z := lit "a) b".

Definition sample_tail : list Z := lit "23 24" ++ [ch_nl].

Definition sample_stat (pid ticks : Z) : list Z :=
  stat_line (decimal pid) sample_comm sample_fields (decimal ticks) sample_tail.

Definition sample_host_with (cwd : list Z) : Host :=
  {| h_ppid := 100;
     h_pid := 200;
     h_stat := fun path =>
       if bool_decide (path = lit "/proc/100/stat") then StatContent (sample_stat 100 4000)
       else if bool_decide (path = lit "/proc/200/stat") then StatContent (sample_stat 200 5000)
       else StatNoOpen;
     h_readlink := fun path =>
       if bool_decide (path = lit "/proc/self/cwd") then Some cwd else None;
     h_log_fd := 3;
     h_environ := PVec [PNull];
     h_unlock_ok := true;
     h_stack := fun _ => 170 |}.

Definition sample_host : Host := sample_host_with (lit "/w").

(** A real implementation that fails with [ENOENT]. *)
Definition sample_real : RealExec := fun _ _ _ w => Ok (-1) (set_errno 2 w).

Definition sample_globals : Globals :=
  {| real_execve := sample_real;
     real_execvpe := sample_real;
     g_logFileName := cstr (lit "/tmp/t.log") ++ replicate 1013 0;
     g_bootTimeInJiffies := 1000 |}.

Definition sample_world : World :=
  {| w_open_faults := [Fails EINTR];
     w_lock_faults := [];
     w_write_faults := [WriteFails EINTR];
     w_errno := 0;
     w_events := [] |}.

Definition sample_logFile : LogFile :=
  {| fd := 3; buf := replicate 1024 0; bufCount := 0 |}.

(** ** Configurations that disable tracing *)




(** A session that fills the staging buffer to the brim. *)
Definition sample_session_ops : list session_op :=
  [OpWritePid 200; OpWriteString (cstr (replicate 1015 97))].

Definition sample_session_end : LogFile * World :=
  Eval vm_compute in
    match session sample_host 1000 (cstr (lit "/tmp/t.log")) sample_session_ops
            sample_world with
    | Ok logFile w => (logFile, w)
    | _ => (sample_logFile, sample_world)
    end.

(** The world after [logExecution] for [execle("/bin/true", NULL, envp)]
    on the sample host. *)
Definition sample_envp : ptr := PVec [PStr (cstr (lit "A=1")); PNull].

Definition sample_logged_world : World :=
  Eval vm_compute in
    match logExecution sample_host sample_globals (PStr (cstr (lit "/bin/true")))
            (PVec [PNull]) sample_world with
    | Ok _ w => w
    | _ => sample_world
    end.

(** ** Fuel *)

(** [m] is never cut short by the fuel of the model. *)
Definition fuelled {A} (m : M A) : Prop := forall w, m w <> OutOfFuel.

(** ** Lines of /proc/stat *)

(** A line, as [getline] returns it, that does not start with [btime ]. *)
Definition not_btime (line : list Z) : Prop :=
  exists s junk, line = s ++ NUL :: junk /\ nonul s /\ take 6 s <> lit "btime ".

(** A loader whose clock tick rate is beyond the range of [int]. *)
Definition sample_wide_loader : Loader :=
  {| ld_execve := Some sample_real;
     ld_execvpe := Some sample_real;
     ld_getenv := PStr (cstr (lit "/tmp/t.log"));
     ld_clk_tck := 2 ^ 32 + 100;
     ld_proc_stat :=
       Some [cstr (lit "cpu  1 2 3 4" ++ [ch_nl]);
             cstr (lit "btime 1700000000" ++ [ch_nl]);
             cstr (lit "btime 5" ++ [ch_nl])] |}.

(** A loader with tracing switched on. *)
Definition sample_enabled_loader : Loader :=
  {| ld_execve := Some sample_real;
     ld_execvpe := Some sample_real;
     ld_getenv := PStr (cstr (lit "/tmp/t.log"));
     ld_clk_tck := 100;
     ld_proc_stat :=
       Some [cstr (lit "cpu  1 2 3 4" ++ [ch_nl]);
             cstr (lit "btime 1700000000" ++ [ch_nl]);
             cstr (lit "btime 5" ++ [ch_nl])] |}.

Definition sample_enabled_globals : Globals :=
  {| real_execve := sample_real;
     real_execvpe := sample_real;
     g_logFileName := lit "/tmp/t.log" ++ replicate 1014 0;
     g_bootTimeInJiffies := 170000000000 |}.


(** ** The size of the writes *)

(** From [(logFile, w)] to [(logFile', w')] the descriptor has only seen
    writes of a full staging buffer. *)
Definition full_writes (logFile : LogFile) (w : World)
    (logFile' : LogFile) (w' : World) : Prop :=
  lf_ok logFile' /\ fd logFile' = fd logFile /\
  exists chunks,
    w_events w' = w_events w ++ List.map (EvWrite (fd logFile)) chunks
    /\ Forall (fun chunk => length chunk = 1024%nat) chunks.

(** Whenever [m] completes, it has only written full buffers. *)
Definition paced (m : M LogFile) (logFile : LogFile) : Prop :=
  forall w logFile' w', m w = Ok logFile' w' -> full_writes logFile w logFile' w'.

(** Whenever [m] completes, it has written full buffers, then one buffer
    that is not empty, and released the lock and the descriptor. *)
Definition closing (m : M unit) (logFile : LogFile) : Prop :=
  forall w w',
    m w = Ok tt w' ->
    exists chunks final,
      w_events w'
      = w_events w ++ List.map (EvWrite (fd logFile)) chunks
          ++ [EvWrite (fd logFile) final; EvUnlock (fd logFile); EvClose (fd logFile)]
      /\ Forall (fun chunk => length chunk = 1024%nat) chunks
      /\ (1 <= length final <= 1024)%nat.

(** Whenever [m] completes, it has left the world alone. *)
Definition inert {A} (m : M A) : Prop := forall w a w', m w = Ok a w' -> w' = w.


(** ** Calls that can be traced *)

(** The record of a call: parent and process from the host, start ticks
    [t1] and [t2] past the boot time, working directory, file name and
    arguments. *)
Definition record_of (h : Host) (g : Globals) (cwd fn : list Z)
    (args : list (list Z)) (t1 t2 : Z) : list Z :=
  record_bytes
    (record_fields (u32 (h_ppid h)) ((g_bootTimeInJiffies g + t1) mod 2 ^ 64)
       (u32 (h_pid h)) ((g_bootTimeInJiffies g + t2) mod 2 ^ 64) cwd fn args).

(** Tracing is on with the log file [name]; the host lets the file be
    opened and unlocked, shows the stat lines of the parent and of the
    process with start ticks [t1] and [t2], and the working directory
    [cwd], shorter than 512 KiB. *)
Definition traceable (h : Host) (g : Globals) (name cwd : list Z) (t1 t2 : Z) : Prop :=
  (exists namerest, g_logFileName g = name ++ NUL :: namerest)
  /\ name <> [] /\ nonul name
  /\ 0 <= h_log_fd h /\ h_unlock_ok h = true
  /\ stat_shows h (u32 (h_ppid h)) t1 /\ stat_shows h (u32 (h_pid h)) t2
  /\ h_readlink h (lit "/proc/self/cwd") = Some cwd /\ nonul cwd
  /\ Z.of_nat (length cwd) < 512 * 1024.

(** A second process on the same log file. *)
Definition sample_child_host : Host :=
  {| h_ppid := 200;
     h_pid := 100;
     h_stat := h_stat sample_host;
     h_readlink := fun path =>
       if bool_decide (path = lit "/proc/self/cwd") then Some (lit "/w/sub dir") else None;
     h_log_fd := 4;
     h_environ := PVec [PNull];
     h_unlock_ok := true;
     h_stack := fun _ => 170 |}.


(** ** The stat file, once read *)

(** [writePid] from the test of the descriptor of the stat file on. *)
Definition writePid_after_open (bootTimeInJiffies : Z) (logFile : LogFile)
    (stat : stat_file) : M LogFile :=
  match stat with
  | StatNoOpen => abort
  | StatReadError => abort
  | StatContent content =>
      let procStatContent := take 1023 content ++ [NUL] in
      do p <- defined (safeStrRChr procStatContent ch_rparen);
      match p with
      | None => abort
      | Some p =>
          let p := drop 2 p in
          do p <- advance_fields (22 - 3) p;
          do pEnd <- defined (safeStrChr p ch_space);
          do _ <- safeAssert (bool_decide (is_Some pEnd));
          do ticks <- defined (stringToUint64 p);
          do startTime <-
            defined (uint64ToString (replicate 32 0) (u64 (bootTimeInJiffies + ticks)));
          do logFile <- writeString logFile startTime;
          writeChar logFile ch_nl
      end
  end.

(** The number of spaces in a run of bytes. *)
Definition spaces (s : list Z) : nat := count_occ Z.eq_dec s ch_space.

(** A host whose stat files end after the name of the executable. *)
Definition sample_host_short_stat : Host :=
  {| h_ppid := 100;
     h_pid := 200;
     h_stat := fun _ => StatContent (lit "100 (a) b) S 1 2 3");
     h_readlink := h_readlink sample_host;
     h_log_fd := 3;
     h_environ := PVec [PNull];
     h_unlock_ok := true;
     h_stack := fun _ => 170 |}.

(** A host without a /proc file system. *)
Definition sample_host_no_proc : Host :=
  {| h_ppid := 100;
     h_pid := 200;
     h_stat := fun _ => StatNoOpen;
     h_readlink := fun _ => None;
     h_log_fd := 3;
     h_environ := PVec [PNull];
     h_unlock_ok := true;
     h_stack := fun _ => 170 |}.


(** A decimal numeral as [uint64ToString] writes them: one digit, or
    several that do not start with a zero. *)
Definition canonical (ds : list Z) : Prop :=
  digits ds /\
  match ds with
  | [] => False
  | d :: ds' => d <> ch_zero \/ ds' = []
  end.


(** * The navigator: loading a file

    [File::loadFile] reads a file into a buffer, rewrites the buffer in
    place so that every line ends with a line feed, and records where each
    line begins.  The buffer is an array with two cursors, as the code has
    it; the positions and lengths of the lines are [int], as in the code. *)

Definition ch_cr : Z := 13.        (* carriage return *)

(** [buf[i] = ch] *)
Definition store (buf : list Z) (i : nat) (ch : Z) : option (list Z) :=
  if (i <? length buf)%nat then Some (<[i := ch]> buf) else None.

(** The [while ( *s != 0)] loop: [d] and [s] are the indices of the two
    cursors in [buf]; the result is the buffer and [d] at the end.  Each
    round moves [s] forward, so [fuel] counts the rounds still allowed. *)
Fixpoint canonicalize (fuel : nat) (buf : list Z) (d s : nat)
  : option (list Z * nat) :=
  match fuel with
  | O => None
  | S fuel' =>
      match buf !! s with
      | None => None
      | Some ch =>
          if ch =? NUL then Some (buf, d)
          else if ch =? ch_cr then
            match store buf d ch_nl with
            | None => None
            | Some buf =>
                match buf !! S s with
                | None => None
                | Some ch2 =>
                    if ch2 =? ch_nl then canonicalize fuel' buf (S d) (S (S s))
                    else canonicalize fuel' buf (S d) (S s)
                end
            end
          else
            match store buf d ch with
            | None => None
            | Some buf => canonicalize fuel' buf (S d) (S s)
            end
      end
  end.

(** [m_content] for a file that holds [bytes], all of which [read]
    delivers. *)
Definition file_content (bytes : list Z) : option (list Z) :=
  let buf := bytes ++ [NUL] in
  match canonicalize (length buf) buf 0 0 with
  | Some (buf, d) => Some (take d buf)
  | None => None
  end.

(** The [for (int i = 0; ; i++)] loop over [data], which is the text from
    index [i] on; the pairs pushed onto [m_lines], in order.  [i] and
    [lineStart] are [int]: [i + 1] and [i++] have no defined result at
    [INT_MAX]. *)
Fixpoint identify_lines (data : list Z) (i lineStart : Z)
  : option (list (Z * Z)) :=
  match data with
  | [] => None
  | ch :: data' =>
      if ch =? ch_nl then
        if i <? INT_MAX then
          option_map (cons (lineStart, i - lineStart))
            (identify_lines data' (i + 1) (i + 1))
        else None
      else if ch =? NUL then
        Some (if lineStart <? i then [(lineStart, i - lineStart)] else [])
      else if i <? INT_MAX then identify_lines data' (i + 1) lineStart
      else None
  end.

(** [loadFile]: [m_content] and [m_lines] afterwards, for a file that
    cannot be opened ([None]) or holds the given bytes; [m_lines] is empty
    before. *)
Definition loadFile (qfile : option (list Z)) (m_path : list Z)
  : option (list Z * list (Z * Z)) :=
  match (match qfile with
         | None => Some (lit "Error: cannot open " ++ m_path)
         | Some bytes => file_content bytes
         end) with
  | None => None
  | Some m_content =>
      option_map (pair m_content) (identify_lines (m_content ++ [NUL]) 0 0)
  end.

(** ** Line endings, as a specification *)

(** The text up to its first zero byte, with CR LF and lone CR turned
    into LF. *)
Fixpoint normalise (text : list Z) : list Z :=
  match text with
  | [] => []
  | ch :: text' =>
      if ch =? NUL then []
      else if ch =? ch_cr then
        ch_nl :: match text' with
                 | ch2 :: text'' => if ch2 =? ch_nl then normalise text'' else normalise text'
                 | [] => []
                 end
      else ch :: normalise text'
  end.

(** Neither a zero byte nor a carriage return. *)
Definition plain (text : list Z) : Prop :=
  Forall (fun ch => ch <> NUL /\ ch <> ch_cr) text.

(** The cells between the two cursors after one more byte is written and
    one more read. *)
Definition shift (gap : list Z) (ch : Z) : list Z :=
  match gap with
  | [] => []
  | _ :: gap' => gap' ++ [ch]
  end.

(** The table of the lines [ls] laid out one after the other from
    [start], a line feed behind each. *)
Fixpoint line_table (start : Z) (ls : list (list Z)) : list (Z * Z) :=
  match ls with
  | [] => []
  | l :: ls' =>
      (start, Z.of_nat (length l))
        :: line_table (start + Z.of_nat (length l) + 1) ls'
  end.

(** Is the end of [text] inside a line, given that its start is? *)
Fixpoint ends_open (open : bool) (text : list Z) : bool :=
  match text with
  | [] => open
  | ch :: text' => ends_open (negb (ch =? ch_nl)) text'
  end.

(** [text], with a line feed added if its last line lacks one. *)
Definition terminated (text : list Z) : list Z :=
  if ends_open false text then text ++ [ch_nl] else text.


(** [safeMemSet(s, c, n)]: the array [s] afterwards.  The byte stored is
    [(char)c], given here by the eight bits it holds. *)
Fixpoint safeMemSet (s : list Z) (c : Z) (n : nat) {struct n} : option (list Z) :=
  match n with
  | O => Some s
  | S n' =>
      match s with
      | [] => None
      | _ :: dest => option_map (cons (c mod 256)) (safeMemSet dest c n')
      end
  end.


(** * Properties *)

Example decimal_0 : decimal 0 = lit "0".
Proof. reflexivity. Qed.

Example decimal_max : decimal (2 ^ 64 - 1) = lit "18446744073709551615".
Proof. reflexivity. Qed.

Example uint64ToString_1234 :
  uint64ToString (replicate 32 7) 1234 = Some (cstr (lit "1234") ++ replicate 27 7).
Proof. reflexivity. Qed.

Example stringToUint64_wraps :
  stringToUint64 (cstr (lit "18446744073709551617")) = Some 1.
Proof. reflexivity. Qed.

#[local] Arguments Z.eqb : simpl never.
#[local] Arguments Z.leb : simpl never.
#[local] Arguments Z.ltb : simpl never.

(** ** Strings in memory *)

(** The character at hand is known not to be the terminator: take the
    other branch of the test. *)
Ltac not_terminator ch := destruct (Z.eqb_spec ch NUL); [contradiction|].

Lemma nonul_app s t : nonul (s ++ t) <-> nonul s /\ nonul t.
Proof. apply Forall_app. Qed.

Lemma digits_nonul s : digits s -> nonul s.
Proof.
  intros H. eapply Forall_impl; [exact H|].
  intros ch Hd ->. discriminate Hd.
Qed.

Lemma string_at_cstr s rest : nonul s -> string_at (s ++ NUL :: rest) = Some s.
Proof.
  induction 1 as [|ch s Hch _ IH]; simpl; [reflexivity|].
  not_terminator ch. now rewrite IH.
Qed.

Lemma safeStrLen_cstr s rest : nonul s -> safeStrLen (s ++ NUL :: rest) = Some (length s).
Proof.
  induction 1 as [|ch s Hch _ IH]; simpl; [reflexivity|].
  not_terminator ch. now rewrite IH.
Qed.

Lemma safeStrCpy_cstr s rest dest :
  nonul s -> (length s < length dest)%nat ->
  safeStrCpy dest (s ++ NUL :: rest) = Some (s ++ NUL :: drop (S (length s)) dest).
Proof.
  intros Hs. revert dest.
  induction Hs as [|ch s Hch _ IH]; intros [|d dest] Hlen; simpl in *; try lia.
  - now rewrite drop_0.
  - not_terminator ch.
    rewrite IH by lia. reflexivity.
Qed.

(** ** Searching a string *)

Lemma char_value_NUL b : char_value b = NUL <-> b = NUL.
Proof.
  unfold char_value, NUL.
  destruct (Z.leb_spec 128 b), (Z.ltb_spec b 256); simpl; lia.
Qed.

(** A character of the 7-bit set is met exactly at its own byte. *)
Lemma char_value_ascii7 b c : ascii7 c = true -> char_value b = c <-> b = c.
Proof.
  unfold ascii7, char_value. intros Hc. apply andb_true_iff in Hc.
  destruct (Z.leb_spec 128 b), (Z.ltb_spec b 256); simpl; lia.
Qed.

Lemma char_value_eqb_ascii7 b c : ascii7 c = true -> (char_value b =? c) = (b =? c).
Proof.
  intros Hc. pose proof (char_value_ascii7 b c Hc) as H.
  destruct (Z.eqb_spec (char_value b) c), (Z.eqb_spec b c); tauto.
Qed.

(** A byte is never met as a value from 128 on. *)
Lemma char_value_high b c : byte b -> 128 <= c -> char_value b <> c.
Proof.
  unfold byte, char_value.
  destruct (Z.leb_spec 128 b), (Z.ltb_spec b 256); simpl; lia.
Qed.

Lemma safeStrChr_cons b s c :
  safeStrChr (b :: s) c
  = if char_value b =? c then Some (Some (b :: s))
    else if b =? NUL then Some None
    else safeStrChr s c.
Proof.
  cbn [safeStrChr]. cbv zeta. destruct (char_value b =? c); [reflexivity|].
  replace (char_value b =? NUL) with (b =? NUL); [reflexivity|].
  destruct (Z.eqb_spec b NUL) as [->|E]; [reflexivity|].
  symmetry. apply Z.eqb_neq. now rewrite char_value_NUL.
Qed.

Lemma safeStrRChr_from_cons ret b s c :
  safeStrRChr_from ret (b :: s) c
  = let ret' := if char_value b =? c then Some (b :: s) else ret in
    if b =? NUL then Some ret' else safeStrRChr_from ret' s c.
Proof.
  cbn [safeStrRChr_from]. cbv zeta.
  replace (char_value b =? NUL) with (b =? NUL); [reflexivity|].
  destruct (Z.eqb_spec b NUL) as [->|E]; [reflexivity|].
  symmetry. apply Z.eqb_neq. now rewrite char_value_NUL.
Qed.

Lemma misses_ascii7 c s : ascii7 c = true -> c ∉ s -> misses c s.
Proof.
  intros Hc Hin. apply Forall_forall. intros b Hb E.
  apply (char_value_ascii7 b c Hc) in E. subst b. contradiction.
Qed.

Lemma safeStrChr_miss s rest c :
  nonul s -> c <> NUL -> misses c s -> safeStrChr (s ++ NUL :: rest) c = Some None.
Proof.
  intros Hs Hc. induction Hs as [|ch s Hch _ IH]; intros Hin; cbn [app];
    rewrite safeStrChr_cons.
  - change (char_value NUL) with NUL.
    destruct (Z.eqb_spec NUL c); [congruence|]. reflexivity.
  - apply Forall_cons in Hin as [Hne Hin].
    destruct (Z.eqb_spec (char_value ch) c); [congruence|].
    not_terminator ch. auto.
Qed.

Lemma safeStrChr_hit s b t c :
  nonul s -> misses c s -> char_value b = c ->
  safeStrChr (s ++ b :: t) c = Some (Some (b :: t)).
Proof.
  intros Hs. induction Hs as [|ch s Hch _ IH]; intros Hin Hb; cbn [app];
    rewrite safeStrChr_cons.
  - now rewrite Hb, Z.eqb_refl.
  - apply Forall_cons in Hin as [Hne Hin].
    destruct (Z.eqb_spec (char_value ch) c); [congruence|].
    not_terminator ch. auto.
Qed.

Lemma safeStrRChr_from_miss ret s rest c :
  nonul s -> c <> NUL -> misses c s ->
  safeStrRChr_from ret (s ++ NUL :: rest) c = Some ret.
Proof.
  intros Hs Hc. revert ret. induction Hs as [|ch s Hch _ IH]; intros ret Hin;
    cbn [app]; rewrite safeStrRChr_from_cons; cbv zeta.
  - change (char_value NUL) with NUL.
    destruct (Z.eqb_spec NUL c); [congruence|]. reflexivity.
  - apply Forall_cons in Hin as [Hne Hin].
    destruct (Z.eqb_spec (char_value ch) c); [congruence|].
    not_terminator ch. auto.
Qed.

Lemma safeStrRChr_from_hit ret s b t c :
  nonul s -> b <> NUL -> char_value b = c ->
  safeStrRChr_from ret (s ++ b :: t) c = safeStrRChr_from (Some (b :: t)) t c.
Proof.
  intros Hs Hb Hc. revert ret.
  induction Hs as [|ch s Hch _ IH]; intros ret; cbn [app];
    rewrite safeStrRChr_from_cons; cbv zeta.
  - rewrite Hc, Z.eqb_refl. destruct (Z.eqb_spec b NUL); [contradiction|]. reflexivity.
  - not_terminator ch. apply IH.
Qed.

(** Searching for a character of the 7-bit set other than the terminator. *)
Lemma safeStrChr_absent s rest c :
  nonul s -> ascii7 c = true -> c <> NUL -> c ∉ s ->
  safeStrChr (s ++ NUL :: rest) c = Some None.
Proof.
  intros Hs Ha Hc Hin. apply safeStrChr_miss; [assumption..|].
  now apply misses_ascii7.
Qed.

Lemma safeStrChr_first s t c :
  nonul s -> ascii7 c = true -> c ∉ s ->
  safeStrChr (s ++ c :: t) c = Some (Some (c :: t)).
Proof.
  intros Hs Ha Hin. apply safeStrChr_hit; [assumption| |].
  - now apply misses_ascii7.
  - now apply char_value_ascii7.
Qed.

Lemma safeStrRChr_from_absent ret s rest c :
  nonul s -> ascii7 c = true -> c <> NUL -> c ∉ s ->
  safeStrRChr_from ret (s ++ NUL :: rest) c = Some ret.
Proof.
  intros Hs Ha Hc Hin. apply safeStrRChr_from_miss; [assumption..|].
  now apply misses_ascii7.
Qed.

Lemma safeStrRChr_from_skip ret s t c :
  nonul s -> ascii7 c = true -> c <> NUL ->
  safeStrRChr_from ret (s ++ c :: t) c = safeStrRChr_from (Some (c :: t)) t c.
Proof.
  intros Hs Ha Hc. apply safeStrRChr_from_hit; [assumption..|].
  now apply char_value_ascii7.
Qed.

(** The rightmost occurrence wins, whatever precedes it. *)
Lemma safeStrRChr_rightmost pre body rest c :
  nonul pre -> nonul body -> ascii7 c = true -> c <> NUL -> c ∉ body ->
  safeStrRChr (pre ++ c :: body ++ NUL :: rest) c
  = Some (Some (c :: body ++ NUL :: rest)).
Proof.
  intros Hpre Hbody Ha Hc Hin. unfold safeStrRChr.
  rewrite safeStrRChr_from_skip by assumption.
  now apply safeStrRChr_from_absent.
Qed.

(** ** Decimal conversion *)

Lemma safeIsDigit_spec ch : safeIsDigit ch = true <-> 48 <= ch <= 57.
Proof. unfold safeIsDigit, ch_zero, ch_nine. lia. Qed.

Lemma dec_value_snoc ds d : dec_value (ds ++ [d]) = dec_value ds * 10 + (d - ch_zero).
Proof. unfold dec_value. now rewrite fold_left_app. Qed.

Lemma decimal_fuel_S fuel n :
  decimal_fuel (S fuel) n
  = (if n / 10 =? 0 then [] else decimal_fuel fuel (n / 10)) ++ [ch_zero + n mod 10].
Proof. reflexivity. Qed.

Lemma decimal_fuel_digits fuel n : digits (decimal_fuel fuel n).
Proof.
  revert n. induction fuel as [|fuel IH]; intros n; [constructor|].
  rewrite decimal_fuel_S. apply Forall_app. split.
  - destruct (n / 10 =? 0); [constructor | apply IH].
  - constructor; [|constructor]. apply safeIsDigit_spec.
    unfold ch_zero. pose proof (Z.mod_pos_bound n 10). lia.
Qed.

Lemma decimal_fuel_length fuel n : (length (decimal_fuel fuel n) <= fuel)%nat.
Proof.
  revert n. induction fuel as [|fuel IH]; intros n; [simpl; lia|].
  rewrite decimal_fuel_S, length_app. simpl.
  destruct (n / 10 =? 0); [simpl; lia|]. specialize (IH (n / 10)). lia.
Qed.

Lemma decimal_fuel_value fuel n :
  0 <= n < 10 ^ Z.of_nat fuel -> dec_value (decimal_fuel fuel n) = n.
Proof.
  revert n. induction fuel as [|fuel IH]; intros n Hn.
  - simpl in Hn. assert (n = 0) by lia. now subst.
  - rewrite decimal_fuel_S, dec_value_snoc.
    replace (ch_zero + n mod 10 - ch_zero) with (n mod 10) by lia.
    rewrite Nat2Z.inj_succ, Z.pow_succ_r in Hn by lia.
    destruct (Z.eqb_spec (n / 10) 0) as [H0|H0].
    + change (dec_value []) with 0. pose proof (Z.div_mod n 10). lia.
    + rewrite IH.
      * pose proof (Z.div_mod n 10). lia.
      * split; [apply Z.div_pos; lia|]. apply Z.div_lt_upper_bound; lia.
Qed.

(** More fuel than digits changes nothing. *)
Lemma decimal_fuel_enough f1 f2 n :
  0 <= n < 10 ^ Z.of_nat f1 -> n < 10 ^ Z.of_nat f2 ->
  (0 < f1)%nat -> (0 < f2)%nat ->
  decimal_fuel f1 n = decimal_fuel f2 n.
Proof.
  revert f2 n. induction f1 as [|f1 IH]; intros [|f2] n H1 H2 Hf1 Hf2; try lia.
  rewrite !decimal_fuel_S.
  rewrite Nat2Z.inj_succ, Z.pow_succ_r in H1, H2 by lia.
  destruct (Z.eqb_spec (n / 10) 0) as [H0|H0]; [reflexivity|].
  f_equal.
  assert (0 < n / 10) by (pose proof (Z.div_pos n 10); lia).
  assert (n / 10 < 10 ^ Z.of_nat f1) by (apply Z.div_lt_upper_bound; lia).
  assert (n / 10 < 10 ^ Z.of_nat f2) by (apply Z.div_lt_upper_bound; lia).
  apply IH; try lia.
  - destruct f1; [simpl in *; lia | lia].
  - destruct f2; [simpl in *; lia | lia].
Qed.

(** The fuel [decimal] takes is enough: a number has no more decimal
    digits than binary ones. *)
Lemma decimal_fuel_bound n : 0 <= n -> n < 10 ^ Z.of_nat (S (Z.to_nat (Z.log2 n))).
Proof.
  intros Hn. destruct (Z.eq_dec n 0) as [->|Hne]; [simpl; lia|].
  rewrite Nat2Z.inj_succ, Z2Nat.id by apply Z.log2_nonneg.
  pose proof (Z.log2_spec n ltac:(lia)) as [_ Hlt].
  eapply Z.lt_le_trans; [exact Hlt|].
  apply Z.pow_le_mono_l. pose proof (Z.log2_nonneg n). lia.
Qed.

Lemma decimal_fuel_ok fuel n :
  0 <= n < 10 ^ Z.of_nat fuel -> (0 < fuel)%nat -> decimal_fuel fuel n = decimal n.
Proof.
  intros Hn Hf. unfold decimal. apply decimal_fuel_enough; try lia.
  apply decimal_fuel_bound. lia.
Qed.

Lemma decimal_digits n : digits (decimal n).
Proof. apply decimal_fuel_digits. Qed.

Lemma decimal_nonul n : nonul (decimal n).
Proof. apply digits_nonul, decimal_digits. Qed.

Lemma decimal_value n : 0 <= n -> dec_value (decimal n) = n.
Proof.
  intros Hn. unfold decimal. apply decimal_fuel_value.
  split; [lia | now apply decimal_fuel_bound].
Qed.

Lemma decimal_length_u64 n : 0 <= n < 2 ^ 64 -> (length (decimal n) <= 20)%nat.
Proof.
  intros Hn. rewrite <- (decimal_fuel_ok 20) by (simpl; lia).
  apply decimal_fuel_length.
Qed.

(** No leading zero, except for the number zero itself. *)
Lemma decimal_fuel_head fuel n :
  0 < n < 10 ^ Z.of_nat fuel ->
  exists d ds, decimal_fuel fuel n = d :: ds /\ d <> ch_zero.
Proof.
  revert n. induction fuel as [|fuel IH]; intros n Hn; [simpl in Hn; lia|].
  rewrite decimal_fuel_S.
  rewrite Nat2Z.inj_succ, Z.pow_succ_r in Hn by lia.
  destruct (Z.eqb_spec (n / 10) 0) as [H0|H0].
  - exists (ch_zero + n mod 10), []. split; [reflexivity|].
    pose proof (Z.div_mod n 10). lia.
  - assert (0 < n / 10) by (pose proof (Z.div_pos n 10); lia).
    assert (n / 10 < 10 ^ Z.of_nat fuel) by (apply Z.div_lt_upper_bound; lia).
    destruct (IH (n / 10)) as (d & ds & -> & Hd); [lia|].
    exists d, (ds ++ [ch_zero + n mod 10]). split; [reflexivity | exact Hd].
Qed.

Lemma decimal_head n :
  0 < n -> exists d ds, decimal n = d :: ds /\ d <> ch_zero.
Proof.
  intros Hn. unfold decimal. apply decimal_fuel_head.
  split; [lia | apply decimal_fuel_bound; lia].
Qed.

Lemma drop_insert_here {A} (l : list A) (i : nat) (x : A) :
  (i < length l)%nat -> drop i (<[i := x]> l) = x :: drop (S i) l.
Proof.
  revert i. induction l as [|a l IH]; intros [|i] Hi; simpl in *; try lia.
  - reflexivity.
  - apply IH. lia.
Qed.

Lemma uint64ToString_loop_spec ptr tempBuf val :
  (0 < ptr <= length tempBuf)%nat -> 0 <= val < 10 ^ Z.of_nat ptr ->
  exists p tempBuf',
    uint64ToString_loop ptr tempBuf val = Some (p, tempBuf')
    /\ drop p tempBuf' = decimal_fuel ptr val ++ drop ptr tempBuf.
Proof.
  revert tempBuf val.
  induction ptr as [|ptr IH]; intros tempBuf val Hptr Hval; [lia|].
  simpl uint64ToString_loop. rewrite decimal_fuel_S.
  rewrite Nat2Z.inj_succ, Z.pow_succ_r in Hval by lia.
  destruct (Z.eqb_spec (val / 10) 0) as [H0|H0].
  - eexists _, _. split; [reflexivity|].
    rewrite drop_insert_here by lia. reflexivity.
  - assert (0 < val / 10) by (pose proof (Z.div_pos val 10); lia).
    assert (val / 10 < 10 ^ Z.of_nat ptr) by (apply Z.div_lt_upper_bound; lia).
    destruct (IH (<[ptr := ch_zero + val mod 10]> tempBuf) (val / 10))
      as (p & tempBuf' & Hloop & Hdrop).
    + rewrite length_insert. destruct ptr; [simpl in *; lia | lia].
    + lia.
    + exists p, tempBuf'. split; [exact Hloop|].
      rewrite Hdrop, drop_insert_here by lia. now rewrite <- app_assoc.
Qed.

(** [uint64ToString] stores the decimal digits of [val] and a terminator
    at the start of [output]. *)
Lemma uint64ToString_decimal output val :
  0 <= val < 2 ^ 64 -> (21 <= length output)%nat ->
  uint64ToString output val
  = Some (decimal val ++ NUL :: drop (S (length (decimal val))) output).
Proof.
  intros Hval Hout. unfold uint64ToString.
  destruct (uint64ToString_loop_spec 31 (<[31%nat := NUL]> (replicate 32 0)) val)
    as (p & tempBuf' & -> & Hdrop).
  - rewrite length_insert, length_replicate. lia.
  - split; [lia|]. eapply Z.lt_trans; [apply Hval|]. reflexivity.
  - rewrite Hdrop, decimal_fuel_ok.
    + change (drop 31 (<[31%nat:=NUL]> (replicate 32 0))) with [NUL].
      apply safeStrCpy_cstr; [apply decimal_nonul|].
      pose proof (decimal_length_u64 val Hval). lia.
    + split; [lia|]. eapply Z.lt_trans; [apply Hval|]. reflexivity.
    + lia.
Qed.

Lemma stringToUint64_from_run temp ds ch rest :
  digits ds -> safeIsDigit ch = false ->
  stringToUint64_from temp (ds ++ ch :: rest) = Some (fold_left u64_step ds temp).
Proof.
  intros Hds Hch. revert temp.
  induction Hds as [|d ds Hd _ IH]; intros temp; simpl.
  - now rewrite Hch.
  - rewrite Hd. apply IH.
Qed.

Lemma u64_step_fold ds t :
  fold_left u64_step ds (u64 t)
  = u64 (fold_left (fun acc d => acc * 10 + (d - ch_zero)) ds t).
Proof.
  revert t. induction ds as [|d ds IH]; intros t; simpl; [reflexivity|].
  rewrite <- IH. f_equal. unfold u64_step, u64.
  rewrite Zplus_mod_idemp_l.
  rewrite <- (Zplus_mod_idemp_l (t mod 2 ^ 64 * 10)), Zmult_mod_idemp_l.
  now rewrite Zplus_mod_idemp_l.
Qed.

(** The value of the leading digit run, reduced modulo [2^64]. *)
Lemma stringToUint64_run ds ch rest :
  digits ds -> safeIsDigit ch = false ->
  stringToUint64 (ds ++ ch :: rest) = Some (u64 (dec_value ds)).
Proof.
  intros Hds Hch. unfold stringToUint64.
  rewrite stringToUint64_from_run by assumption.
  change 0 with (u64 0) at 1. now rewrite u64_step_fold.
Qed.

Lemma u64_small n : 0 <= n < 2 ^ 64 -> u64 n = n.
Proof. intros Hn. unfold u64. now apply Z.mod_small. Qed.

(** Deciding [nonul] and [digits] by evaluation. *)
Lemma nonul_check s : forallb (fun ch => negb (ch =? NUL)) s = true -> nonul s.
Proof.
  intros H. apply List.Forall_forall. intros ch Hin.
  rewrite forallb_forall in H. specialize (H ch Hin).
  destruct (Z.eqb_spec ch NUL); [discriminate | assumption].
Qed.

Lemma fits_int_check {A} (s : list A) :
  (Z.of_nat (length s) <=? INT_MAX) = true -> fits_int s.
Proof. apply Z.leb_le. Qed.

(** Each string of a list written out is shorter than [2^31] bytes. *)
Ltac each_fits :=
  lazymatch goal with
  | |- Forall _ [] => constructor
  | |- Forall _ (_ :: _) =>
      apply Forall_cons_2; [apply fits_int_check; reflexivity | each_fits]
  end.

Lemma digits_check s : forallb safeIsDigit s = true -> digits s.
Proof.
  intros H. apply List.Forall_forall. intros ch Hin.
  rewrite forallb_forall in H. exact (H ch Hin).
Qed.

(** C7: for every [n] with [0 <= n < 2^64], [stringToUint64] applied to what
    [uint64ToString] stores for [n] returns [n]; what is stored is the
    decimal digits of [n] followed by the terminator, with no leading zero
    unless [n] is zero, in which case it is the single digit 0. *)
Theorem uint64ToString_stringToUint64_roundtrip (n : Z) (output : list Z) :
  0 <= n < 2 ^ 64 -> length output = 32%nat ->
  exists s rest,
    uint64ToString output n = Some (s ++ NUL :: rest)
    /\ stringToUint64 (s ++ NUL :: rest) = Some n
    /\ length (s ++ NUL :: rest) = 32%nat
    /\ digits s /\ dec_value s = n
    /\ (n = 0 -> s = [ch_zero])
    /\ (0 < n -> exists d ds, s = d :: ds /\ d <> ch_zero).
Proof.
  intros Hn Hout.
  pose proof (decimal_length_u64 n Hn) as Hlen.
  exists (decimal n), (drop (S (length (decimal n))) output).
  split; [apply uint64ToString_decimal; lia|].
  split.
  { rewrite stringToUint64_run by (apply decimal_digits || reflexivity).
    rewrite decimal_value by lia. now rewrite u64_small. }
  split.
  { rewrite length_app. simpl. rewrite length_drop. lia. }
  split; [apply decimal_digits|].
  split; [apply decimal_value; lia|].
  split; [intros ->; reflexivity | apply decimal_head].
Qed.

Lemma uint64ToString_stringToUint64_roundtrip_witness :
  exists s rest,
    uint64ToString (replicate 32 0) (2 ^ 64 - 1) = Some (s ++ NUL :: rest)
    /\ stringToUint64 (s ++ NUL :: rest) = Some (2 ^ 64 - 1)
    /\ length (s ++ NUL :: rest) = 32%nat
    /\ digits s /\ dec_value s = 2 ^ 64 - 1
    /\ (2 ^ 64 - 1 = 0 -> s = [ch_zero])
    /\ (0 < 2 ^ 64 - 1 -> exists d ds, s = d :: ds /\ d <> ch_zero).
Proof.
  apply (uint64ToString_stringToUint64_roundtrip (2 ^ 64 - 1) (replicate 32 0)).
  - vm_compute. split; [discriminate | reflexivity].
  - reflexivity.
Defined.

(** C10: [stringToUint64] returns the value of the leading digit run reduced
    modulo [2^64]; on a string whose first character is no digit (the empty
    string included: its first character is the terminator) that is 0. *)
Theorem stringToUint64_leading_run_mod (ds : list Z) (ch : Z) (rest : list Z) :
  digits ds -> safeIsDigit ch = false ->
  stringToUint64 (ds ++ ch :: rest) = Some (dec_value ds mod 2 ^ 64)
  /\ (ds = [] -> stringToUint64 (ch :: rest) = Some 0).
Proof.
  intros Hds Hch. split.
  - now apply stringToUint64_run.
  - intros _. apply (stringToUint64_run [] ch rest); [constructor | exact Hch].
Qed.

Lemma stringToUint64_leading_run_mod_witness :
  stringToUint64 (lit "18446744073709551621" ++ NUL :: [])
  = Some (dec_value (lit "18446744073709551621") mod 2 ^ 64)
  /\ (lit "18446744073709551621" = [] -> stringToUint64 (NUL :: []) = Some 0).
Proof.
  apply (stringToUint64_leading_run_mod (lit "18446744073709551621") NUL []).
  - apply digits_check. reflexivity.
  - reflexivity.
Defined.

Example stringToUint64_overflow_value :
  stringToUint64 (cstr (lit "18446744073709551621")) = Some 5.
Proof. reflexivity. Qed.

Example stringToUint64_empty : stringToUint64 (cstr []) = Some 0.
Proof. reflexivity. Qed.

Example stringToUint64_no_digit : stringToUint64 (cstr (lit "-12")) = Some 0.
Proof. reflexivity. Qed.

(** ** The staging buffer *)

Lemma write_loop_quiet faults fd data w :
  Forall (fun f => f = WriteFails EINTR) faults ->
  exists w', write_loop faults fd data w = (Z.of_nat (length data), w')
             /\ w_events w' = w_events w ++ [EvWrite fd data]
             /\ w_write_faults w' = [].
Proof.
  intros H. revert w. induction H as [|f faults -> _ IH]; intros w; simpl.
  - eexists. repeat split.
  - change (EINTR =? EINTR) with true. cbv iota.
    destruct (IH (set_errno EINTR w)) as (w' & -> & Hev & Hf).
    exists w'. repeat split; assumption.
Qed.

Lemma buffered_length logFile :
  lf_ok logFile -> Z.of_nat (length (buffered logFile)) = bufCount logFile.
Proof.
  intros [Hlen Hcnt]. unfold buffered, sizeof_buf in *.
  rewrite length_take, Hlen. lia.
Qed.

Lemma flushLogFile_quiet logFile w :
  ready logFile w ->
  exists w',
    flushLogFile logFile w
    = Ok {| fd := fd logFile; buf := buf logFile; bufCount := 0 |} w'
    /\ w_events w' = w_events w ++ [EvWrite (fd logFile) (buffered logFile)]
    /\ quiet w'.
Proof.
  intros [Hok Hq]. pose proof Hok as [Hlen Hcnt]. unfold flushLogFile.
  replace ((0 <=? bufCount logFile) && (bufCount logFile <=? sizeof_buf))
    with true by (symmetry; apply andb_true_iff; lia).
  destruct (write_loop_quiet (w_write_faults w) (fd logFile) (buffered logFile) w Hq)
    as (w' & Hloop & Hev & Hf).
  fold (buffered logFile). rewrite Hloop, buffered_length by assumption.
  rewrite Z.eqb_refl. exists w'. repeat split; try assumption.
  unfold quiet. rewrite Hf. constructor.
Qed.

Lemma take_S_insert {A} (l : list A) (n : nat) (x : A) :
  (n < length l)%nat -> take (S n) (<[n := x]> l) = take n l ++ [x].
Proof.
  revert n. induction l as [|a l IH]; intros [|n] Hn; simpl in *; try lia.
  - now rewrite take_0.
  - f_equal. apply IH. lia.
Qed.

Lemma appends_refl logFile w : ready logFile w -> appends logFile w [] logFile w.
Proof.
  intros H. split; [exact H|]. split; [reflexivity|].
  exists []. simpl. now rewrite !app_nil_r.
Qed.

Lemma appends_trans lf0 w0 b1 lf1 w1 b2 lf2 w2 :
  appends lf0 w0 b1 lf1 w1 -> appends lf1 w1 b2 lf2 w2 ->
  appends lf0 w0 (b1 ++ b2) lf2 w2.
Proof.
  intros (_ & Hfd1 & c1 & Hev1 & Hb1) (Hr & Hfd2 & c2 & Hev2 & Hb2).
  split; [exact Hr|]. split; [congruence|].
  exists (c1 ++ c2). split.
  - rewrite Hev2, Hev1, Hfd1, map_app, app_assoc. reflexivity.
  - rewrite concat_app, <- app_assoc, Hb2, !app_assoc, Hb1. reflexivity.
Qed.

Lemma writes_ret logFile w : ready logFile w -> writes (ret logFile) logFile w [].
Proof. intros H. exists logFile, w. split; [reflexivity | now apply appends_refl]. Qed.

(** Sequencing: the bytes of the two steps, in order. *)
Lemma writes_bind (m : M LogFile) (k : LogFile -> M LogFile) logFile w b1 b2 :
  writes m logFile w b1 ->
  (forall lf1 w1, ready lf1 w1 -> writes (k lf1) lf1 w1 b2) ->
  writes (do x <- m; k x) logFile w (b1 ++ b2).
Proof.
  intros (lf1 & w1 & Hm & Happ) Hk.
  destruct (Hk lf1 w1 (proj1 Happ)) as (lf2 & w2 & Hk2 & Happ2).
  exists lf2, w2. split.
  - unfold bind. now rewrite Hm.
  - eapply appends_trans; eassumption.
Qed.

Lemma writes_eq (m : M LogFile) logFile w b b' :
  writes m logFile w b -> b = b' -> writes m logFile w b'.
Proof. now intros H <-. Qed.

Lemma writeChar_writes logFile ch w :
  ready logFile w -> writes (writeChar logFile ch) logFile w [ch].
Proof.
  intros Hr. pose proof Hr as [[Hlen Hcnt] Hq].
  unfold writes, writeChar, bind, sizeof_buf in *.
  destruct (Z.eqb_spec (bufCount logFile) 1024) as [Hfull|Hroom].
  - destruct (flushLogFile_quiet logFile w Hr) as (w' & -> & Hev & Hq').
    cbn [bufCount fd buf]. change ((0 <=? 0) && (0 <? 1024)) with true. cbv iota.
    eexists _, w'. split; [reflexivity|].
    split; [|split; [reflexivity|]].
    + split; [|exact Hq']. split; cbn [buf bufCount]; [|unfold sizeof_buf; lia].
      now rewrite length_insert.
    + exists [buffered logFile]. split; [exact Hev|].
      cbn [concat]. rewrite app_nil_r. f_equal.
      unfold buffered. cbn [buf bufCount].
      change (Z.to_nat (0 + 1)) with 1%nat.
      rewrite take_S_insert by lia. now rewrite take_0.
  - unfold ret.
    replace ((0 <=? bufCount logFile) && (bufCount logFile <? 1024))
      with true by (symmetry; apply andb_true_iff; lia).
    eexists _, w. split; [reflexivity|].
    split; [|split; [reflexivity|]].
    + split; [|exact Hq]. split; cbn [buf bufCount]; [|unfold sizeof_buf; lia].
      now rewrite length_insert.
    + exists []. split; [simpl; now rewrite app_nil_r|].
      unfold buffered. cbn [buf bufCount concat app].
      replace (Z.to_nat (bufCount logFile + 1)) with (S (Z.to_nat (bufCount logFile))) by lia.
      apply take_S_insert. lia.
Qed.

Lemma writeString_writes logFile s rest w :
  nonul s -> ready logFile w ->
  writes (writeString logFile (s ++ NUL :: rest)) logFile w s.
Proof.
  intros Hs. revert logFile w.
  induction Hs as [|ch s Hch _ IH]; intros logFile w Hr; simpl.
  - now apply writes_ret.
  - not_terminator ch.
    apply (writes_bind _ _ _ _ [ch] s); [now apply writeChar_writes|].
    intros lf1 w1 Hr1. now apply IH.
Qed.

(** ** Quoting *)

Lemma existsb_eqb_elem c s : existsb (Z.eqb c) s = true <-> c ∈ s.
Proof.
  rewrite existsb_exists, list_elem_of_In. split.
  - intros (x & Hin & Heq). apply Z.eqb_eq in Heq. now subst.
  - intros Hin. exists c. split; [assumption | apply Z.eqb_refl].
Qed.

Lemma safeStrChr_cstr s rest c :
  nonul s -> ascii7 c = true -> c <> NUL ->
  exists r, safeStrChr (s ++ NUL :: rest) c = Some r
            /\ (if existsb (Z.eqb c) s then r <> None else r = None).
Proof.
  intros Hs Ha Hc. induction Hs as [|ch s Hch _ IH]; cbn [app existsb];
    rewrite safeStrChr_cons, char_value_eqb_ascii7 by assumption.
  - destruct (Z.eqb_spec NUL c); [congruence|]. now exists None.
  - rewrite (Z.eqb_sym c ch).
    destruct (Z.eqb_spec ch c) as [Heq|Hne]; simpl.
    + eexists. split; [reflexivity | discriminate].
    + destruct (Z.eqb_spec ch NUL); [contradiction | exact IH].
Qed.

Lemma needsQuotes_of_cstr s rest :
  nonul s -> needsQuotes_of (s ++ NUL :: rest) = Some (needs_quotes s).
Proof.
  intros Hs. unfold needsQuotes_of, needs_quotes.
  destruct (safeStrChr_cstr s rest ch_space Hs eq_refl) as (r1 & -> & H1);
    [discriminate|].
  destruct (safeStrChr_cstr s rest ch_nl Hs eq_refl) as (r2 & -> & H2);
    [discriminate|].
  destruct (existsb (Z.eqb ch_space) s).
  - destruct r1; [reflexivity | contradiction].
  - subst r1. simpl. destruct (existsb (Z.eqb ch_nl) s).
    + destruct r2; [reflexivity | contradiction].
    + now subst r2.
Qed.

Lemma needs_quotes_spec s : needs_quotes s = true <-> ch_space ∈ s \/ ch_nl ∈ s.
Proof.
  unfold needs_quotes. now rewrite orb_true_iff, !existsb_eqb_elem.
Qed.

Lemma writeEscapedString_loop_writes logFile s rest i w :
  nonul s -> 0 <= i -> i + Z.of_nat (length s) <= INT_MAX -> ready logFile w ->
  writes (writeEscapedString_loop logFile (s ++ NUL :: rest) i) logFile w
    (flat_map escape_char s).
Proof.
  intros Hs. revert logFile i w.
  induction Hs as [|ch s Hch _ IH]; intros logFile i w Hi Hlen Hr;
    cbn [app writeEscapedString_loop flat_map].
  - rewrite Z.eqb_refl. now apply writes_ret.
  - not_terminator ch. cbn [length] in Hlen.
    assert (Hnext : forall lf2 w2, ready lf2 w2 ->
              writes (if i <? INT_MAX
                      then writeEscapedString_loop lf2 (s ++ NUL :: rest) (i + 1)
                      else undef) lf2 w2 (flat_map escape_char s)).
    { intros lf2 w2 Hr2. destruct (Z.ltb_spec i INT_MAX); [|lia].
      apply IH; [lia | lia | exact Hr2]. }
    unfold escape_char at 1.
    destruct ((ch =? ch_bslash) || (ch =? ch_quote)).
    + apply (writes_bind _ _ _ _ [ch_bslash] (ch :: flat_map escape_char s));
        [now apply writeChar_writes|].
      intros lf1 w1 Hr1.
      apply (writes_bind _ _ _ _ [ch] (flat_map escape_char s));
        [now apply writeChar_writes | exact Hnext].
    + apply (writes_bind _ _ _ _ [] (ch :: flat_map escape_char s));
        [now apply writes_ret|].
      intros lf1 w1 Hr1.
      apply (writes_bind _ _ _ _ [ch] (flat_map escape_char s));
        [now apply writeChar_writes | exact Hnext].
Qed.

Lemma writeEscapedString_writes logFile s rest w :
  nonul s -> fits_int s -> ready logFile w ->
  writes (writeEscapedString logFile (s ++ NUL :: rest)) logFile w (escaped s).
Proof.
  intros Hs Hfit Hr. unfold writeEscapedString, escaped. unfold fits_int in Hfit.
  unfold bind at 1. rewrite needsQuotes_of_cstr by assumption. cbn [defined ret].
  destruct (needs_quotes s).
  - apply writes_bind; [now apply writeChar_writes|]. intros lf1 w1 Hr1.
    apply writes_bind; [apply writeEscapedString_loop_writes; (assumption || lia)|].
    intros lf2 w2 Hr2. now apply writeChar_writes.
  - apply (writes_bind _ _ _ _ []); [now apply writes_ret|]. intros lf1 w1 Hr1.
    apply writes_bind; [apply writeEscapedString_loop_writes; (assumption || lia)|].
    intros lf2 w2 Hr2. now apply writes_ret.
Qed.

(** From [2^31] bytes on the index of the loop overflows: the call has no
    defined result, however the writes go. *)
Lemma writeEscapedString_loop_overflow logFile s rest i w :
  nonul s -> 0 <= i <= INT_MAX -> INT_MAX < i + Z.of_nat (length s) ->
  ready logFile w ->
  writeEscapedString_loop logFile (s ++ NUL :: rest) i w = Undef.
Proof.
  intros Hs. revert logFile i w.
  induction Hs as [|ch s Hch _ IH]; intros logFile i w Hi Hlen Hr;
    cbn [app writeEscapedString_loop length] in *; [lia|].
  not_terminator ch.
  assert (H1 : exists lf1 w1,
             (if (ch =? ch_bslash) || (ch =? ch_quote)
              then writeChar logFile ch_bslash else ret logFile) w = Ok lf1 w1
             /\ ready lf1 w1).
  { destruct ((ch =? ch_bslash) || (ch =? ch_quote)).
    - destruct (writeChar_writes logFile ch_bslash w Hr) as (lf1 & w1 & E & Happ).
      exists lf1, w1. split; [exact E | apply Happ].
    - now exists logFile, w. }
  destruct H1 as (lf1 & w1 & E1 & Hr1).
  destruct (writeChar_writes lf1 ch w1 Hr1) as (lf2 & w2 & E2 & Happ2).
  unfold bind. rewrite E1, E2.
  destruct (Z.ltb_spec i INT_MAX); [|reflexivity].
  apply IH; [lia | lia | apply Happ2].
Qed.

Lemma writeEscapedString_overflow logFile s rest w :
  nonul s -> INT_MAX < Z.of_nat (length s) -> ready logFile w ->
  writeEscapedString logFile (s ++ NUL :: rest) w = Undef.
Proof.
  intros Hs Hlen Hr. unfold writeEscapedString.
  unfold bind at 1. rewrite needsQuotes_of_cstr by assumption. cbn [defined ret].
  assert (H1 : exists lf1 w1,
             (if needs_quotes s then writeChar logFile ch_quote else ret logFile) w
             = Ok lf1 w1 /\ ready lf1 w1).
  { destruct (needs_quotes s).
    - destruct (writeChar_writes logFile ch_quote w Hr) as (lf1 & w1 & E & Happ).
      exists lf1, w1. split; [exact E | apply Happ].
    - now exists logFile, w. }
  destruct H1 as (lf1 & w1 & E1 & Hr1).
  unfold bind. rewrite E1.
  rewrite writeEscapedString_loop_overflow;
    [reflexivity | assumption | unfold INT_MAX; lia | lia | assumption].
Qed.

Lemma spec_unescape_escape_char ch t :
  spec_unescape (escape_char ch ++ t) = ch :: spec_unescape t.
Proof.
  unfold escape_char.
  destruct ((ch =? ch_bslash) || (ch =? ch_quote)) eqn:Hsp.
  - cbn [app spec_unescape]. now rewrite Z.eqb_refl, Hsp.
  - cbn [app]. destruct t as [|c t]; [reflexivity|].
    cbn [spec_unescape]. apply orb_false_iff in Hsp as [-> _]. reflexivity.
Qed.

Lemma spec_unescape_flat_map s : spec_unescape (flat_map escape_char s) = s.
Proof.
  induction s as [|ch s IH]; [reflexivity|].
  cbn [flat_map]. now rewrite spec_unescape_escape_char, IH.
Qed.

(** An escaped text never starts with a bare quote. *)
Lemma flat_map_escape_head s :
  match flat_map escape_char s with
  | q :: _ => q <> ch_quote
  | [] => True
  end.
Proof.
  destruct s as [|ch s]; [exact I|]. cbn [flat_map]. unfold escape_char.
  destruct (Z.eqb_spec ch ch_bslash); [simpl; discriminate|].
  destruct (Z.eqb_spec ch ch_quote); simpl; [discriminate | assumption].
Qed.

Lemma spec_strip_quotes_unquoted body :
  match body with q :: _ => q <> ch_quote | [] => True end ->
  spec_strip_quotes body = body.
Proof.
  destruct body as [|q inner]; [reflexivity|]. intros Hq. simpl.
  destruct (last inner); [|reflexivity].
  destruct (Z.eqb_spec q ch_quote); [contradiction | reflexivity].
Qed.

Lemma spec_strip_quotes_quoted body :
  spec_strip_quotes (ch_quote :: body ++ [ch_quote]) = body.
Proof.
  simpl. rewrite last_snoc, Z.eqb_refl. simpl. apply removelast_last.
Qed.

Lemma spec_decode_escaped s : spec_decode (escaped s) = s.
Proof.
  unfold spec_decode, escaped. destruct (needs_quotes s).
  - cbn [app]. rewrite spec_strip_quotes_quoted. apply spec_unescape_flat_map.
  - cbn [app]. rewrite app_nil_r.
    rewrite spec_strip_quotes_unquoted by apply flat_map_escape_head.
    apply spec_unescape_flat_map.
Qed.

(** C4, amended: for every string [x] shorter than [2^31] bytes,
    [writeEscapedString] appends an encoding that [spec_decode] (enclosing
    quotes removed if present, then the two escape pairs replaced) turns
    back into [x]; the encoding is quoted exactly when [x] holds a space or
    a newline, and exactly the backslash and the quote characters are given
    a backslash in front. *)
Theorem writeEscapedString_roundtrip (x rest : list Z) (logFile : LogFile) (w : World) :
  nonul x -> fits_int x -> ready logFile w ->
  exists out,
    writes (writeEscapedString logFile (x ++ NUL :: rest)) logFile w out
    /\ spec_decode out = x
    /\ out = (if needs_quotes x then [ch_quote] else [])
              ++ flat_map escape_char x
              ++ (if needs_quotes x then [ch_quote] else [])
    /\ (needs_quotes x = true <-> ch_space ∈ x \/ ch_nl ∈ x)
    /\ (forall ch, ch = ch_bslash \/ ch = ch_quote -> escape_char ch = [ch_bslash; ch])
    /\ (forall ch, ch <> ch_bslash -> ch <> ch_quote -> escape_char ch = [ch]).
Proof.
  intros Hx Hfit Hr. exists (escaped x).
  split; [now apply writeEscapedString_writes|].
  split; [apply spec_decode_escaped|].
  split; [reflexivity|].
  split; [apply needs_quotes_spec|].
  split.
  - intros ch [-> | ->]; reflexivity.
  - intros ch H1 H2. unfold escape_char.
    destruct (Z.eqb_spec ch ch_bslash); [contradiction|].
    destruct (Z.eqb_spec ch ch_quote); [contradiction | reflexivity].
Qed.

(** ** The staging buffer never overflows *)

Lemma keeps_ret logFile : lf_ok logFile -> keeps (ret logFile).
Proof. intros H w lf' w' Heq. now inversion Heq; subst. Qed.

Lemma keeps_abort : keeps abort.
Proof. intros w lf' w' Heq. discriminate Heq. Qed.

Lemma keeps_undef : keeps undef.
Proof. intros w lf' w' Heq. discriminate Heq. Qed.

Lemma keeps_bind (m : M LogFile) (k : LogFile -> M LogFile) :
  keeps m -> (forall lf1, lf_ok lf1 -> keeps (k lf1)) -> keeps (do x <- m; k x).
Proof.
  intros Hm Hk w lf' w' Heq. unfold bind in Heq.
  destruct (m w) as [lf1 w1| | |] eqn:E; try discriminate.
  eapply Hk; [eapply Hm|]; eassumption.
Qed.

Lemma keeps_bind_any {A} (m : M A) (k : A -> M LogFile) :
  (forall a, keeps (k a)) -> keeps (do x <- m; k x).
Proof.
  intros Hk w lf' w' Heq. unfold bind in Heq.
  destruct (m w) as [a w1| | |] eqn:E; try discriminate.
  eapply Hk; eassumption.
Qed.

Lemma write_loop_full faults fd data w amount w' :
  write_loop faults fd data w = (amount, w') ->
  amount = Z.of_nat (length data) ->
  w_events w' = w_events w ++ [EvWrite fd data].
Proof.
  revert w. induction faults as [|[e|n] faults IH]; intros w Heq Hamt; simpl in Heq.
  - now injection Heq as <- <-.
  - destruct (e =? EINTR).
    + apply IH in Heq; assumption.
    + injection Heq as <- <-. lia.
  - injection Heq as <- <-. cbn [emit w_events set_write_faults].
    rewrite take_ge; [reflexivity|].
    rewrite length_take in Hamt. lia.
Qed.

Lemma flushLogFile_Ok logFile w logFile' w' :
  flushLogFile logFile w = Ok logFile' w' ->
  logFile' = {| fd := fd logFile; buf := buf logFile; bufCount := 0 |}
  /\ (lf_ok logFile ->
      w_events w' = w_events w ++ [EvWrite (fd logFile) (buffered logFile)]).
Proof.
  unfold flushLogFile. intros Heq.
  destruct ((0 <=? bufCount logFile) && (bufCount logFile <=? sizeof_buf)); [|discriminate].
  destruct (write_loop _ _ _ _) as [amount w1] eqn:Hloop.
  unfold bind, safeAssert in Heq.
  destruct (Z.eqb_spec amount (bufCount logFile)) as [Hamt|]; [|discriminate].
  inversion Heq; subst. split; [reflexivity|]. intros Hok.
  eapply write_loop_full; [exact Hloop|].
  fold (buffered logFile). now rewrite buffered_length.
Qed.

Lemma keeps_flushLogFile logFile : lf_ok logFile -> keeps (flushLogFile logFile).
Proof.
  intros [Hlen Hcnt] w lf' w' Heq. apply flushLogFile_Ok in Heq as [-> _].
  split; cbn [buf bufCount]; [assumption | unfold sizeof_buf; lia].
Qed.

Lemma keeps_writeChar logFile ch : lf_ok logFile -> keeps (writeChar logFile ch).
Proof.
  intros Hok. unfold writeChar. apply keeps_bind.
  - destruct (bufCount logFile =? sizeof_buf);
      [now apply keeps_flushLogFile | now apply keeps_ret].
  - intros lf1 [Hlen Hcnt].
    destruct ((0 <=? bufCount lf1) && (bufCount lf1 <? sizeof_buf)) eqn:Hin;
      [|apply keeps_undef].
    apply andb_true_iff in Hin as [H1 H2].
    apply keeps_ret. split; cbn [buf bufCount].
    + now rewrite length_insert.
    + unfold sizeof_buf in *. lia.
Qed.

Lemma keeps_writeString text logFile : lf_ok logFile -> keeps (writeString logFile text).
Proof.
  revert logFile. induction text as [|ch text IH]; intros logFile Hok; simpl.
  - apply keeps_undef.
  - destruct (ch =? NUL); [now apply keeps_ret|].
    apply keeps_bind; [now apply keeps_writeChar | exact IH].
Qed.

Lemma keeps_writeEscapedString_loop text i logFile :
  lf_ok logFile -> keeps (writeEscapedString_loop logFile text i).
Proof.
  revert logFile i. induction text as [|ch text IH]; intros logFile i Hok;
    cbn [writeEscapedString_loop].
  - apply keeps_undef.
  - destruct (ch =? NUL); [now apply keeps_ret|].
    apply keeps_bind.
    + destruct ((ch =? ch_bslash) || (ch =? ch_quote));
        [now apply keeps_writeChar | now apply keeps_ret].
    + intros lf1 Hok1. apply keeps_bind; [now apply keeps_writeChar|].
      intros lf2 Hok2. destruct (i <? INT_MAX); [now apply IH | apply keeps_undef].
Qed.

Lemma keeps_writeEscapedString text logFile :
  lf_ok logFile -> keeps (writeEscapedString logFile text).
Proof.
  intros Hok. unfold writeEscapedString. apply keeps_bind_any. intros needsQuotes.
  apply keeps_bind.
  - destruct needsQuotes; [now apply keeps_writeChar | now apply keeps_ret].
  - intros lf1 Hok1. apply keeps_bind; [now apply keeps_writeEscapedString_loop|].
    intros lf2 Hok2.
    destruct needsQuotes; [now apply keeps_writeChar | now apply keeps_ret].
Qed.

Lemma keeps_writeSymLinkTarget_loop fuel h symLinkTarget bufSize logFile :
  lf_ok logFile ->
  keeps (writeSymLinkTarget_loop fuel h logFile symLinkTarget bufSize).
Proof.
  revert bufSize logFile.
  induction fuel as [|fuel IH]; intros bufSize logFile Hok; simpl;
    destruct (bufSize <? 1024 * 1024);
    try (apply keeps_bind_any; intros _; apply keeps_abort).
  - intros w lf' w' Heq. discriminate Heq.
  - intros w lf' w' Heq. unfold bind at 1 in Heq.
    destruct (attemptWriteSymLinkTarget _ _ _ _ w) as [[ok lf1] w1| | |] eqn:E;
      try discriminate.
    assert (Hok1 : lf_ok lf1).
    { unfold attemptWriteSymLinkTarget, bind at 1 in E.
      destruct (defined _ w) as [path w0| | |]; try discriminate.
      destruct (h_readlink h path) as [target|]; [|discriminate].
      destruct (_ <? bufSize).
      - unfold bind in E.
        destruct (writeEscapedString _ _ w0) as [lf2 w2| | |] eqn:E2; try discriminate.
        destruct (writeChar lf2 ch_nl w2) as [lf3 w3| | |] eqn:E3; try discriminate.
        inversion E; subst.
        eapply keeps_writeChar; [|exact E3].
        eapply keeps_writeEscapedString; [|exact E2]. assumption.
      - unfold bind, safeAssert in E.
        destruct (_ =? bufSize); inversion E; now subst. }
    cbn [fst snd] in Heq. destruct ok.
    + now inversion Heq; subst.
    + eapply IH; eassumption.
Qed.

Lemma keeps_writePid h boot pid logFile :
  lf_ok logFile -> keeps (writePid h boot logFile pid).
Proof.
  intros Hok. unfold writePid.
  apply keeps_bind_any. intros pidString.
  apply keeps_bind; [now apply keeps_writeString|]. intros lf1 Hok1.
  apply keeps_bind; [now apply keeps_writeChar|]. intros lf2 Hok2.
  apply keeps_bind_any. intros procStatPath.
  apply keeps_bind_any. intros path.
  destruct (h_stat h path); try apply keeps_abort.
  apply keeps_bind_any. intros [p|]; [|apply keeps_abort].
  apply keeps_bind_any. intros p'.
  apply keeps_bind_any. intros pEnd.
  apply keeps_bind_any. intros _.
  apply keeps_bind_any. intros ticks.
  apply keeps_bind_any. intros startTime.
  apply keeps_bind; [now apply keeps_writeString|]. intros lf3 Hok3.
  now apply keeps_writeChar.
Qed.

Lemma keeps_run_op h boot op logFile : lf_ok logFile -> keeps (run_op h boot logFile op).
Proof.
  intros Hok. destruct op; simpl.
  - now apply keeps_writeChar.
  - now apply keeps_writeString.
  - now apply keeps_writeEscapedString.
  - now apply keeps_flushLogFile.
  - now apply keeps_writePid.
  - now apply keeps_writeSymLinkTarget_loop.
Qed.

Lemma keeps_run_ops h boot ops logFile :
  lf_ok logFile -> keeps (run_ops h boot logFile ops).
Proof.
  revert logFile. induction ops as [|op ops IH]; intros logFile Hok; simpl.
  - now apply keeps_ret.
  - apply keeps_bind; [now apply keeps_run_op | exact IH].
Qed.

Lemma openLogFile_lf_ok h filename w logFile w' :
  openLogFile h filename w = Ok logFile w' ->
  lf_ok logFile /\ bufCount logFile = 0.
Proof.
  unfold openLogFile, bind. intros Heq.
  destruct (open_append h filename (set_errno 0 w)) as [fd1 w1| | |]; try discriminate.
  destruct (safeAssert _ w1) as [u w2| | |]; try discriminate.
  destruct (lock_wait fd1 w2) as [r w3| | |]; try discriminate.
  destruct (safeAssert _ w3) as [u' w4| | |]; try discriminate.
  inversion Heq; subst. split; [|reflexivity].
  split; cbn [buf bufCount]; [reflexivity | unfold sizeof_buf; lia].
Qed.

Lemma session_lf_ok h boot filename ops w logFile w' :
  session h boot filename ops w = Ok logFile w' -> lf_ok logFile.
Proof.
  unfold session, bind. intros Heq.
  destruct (openLogFile h filename w) as [lf0 w0| | |] eqn:E; try discriminate.
  apply openLogFile_lf_ok in E as [Hok _].
  eapply keeps_run_ops; eassumption.
Qed.

(** ** The process identity reader *)

Lemma writes_defined {A} (o : option A) (a : A) (k : A -> M LogFile) logFile w b :
  o = Some a -> writes (k a) logFile w b -> writes (do x <- defined o; k x) logFile w b.
Proof. intros -> H. exact H. Qed.

(** A step that returns [a] and leaves the world alone. *)
Lemma writes_pure {A} (m : M A) (a : A) (k : A -> M LogFile) logFile w b :
  (forall w0, m w0 = Ok a w0) -> writes (k a) logFile w b ->
  writes (do x <- m; k x) logFile w b.
Proof.
  intros Hm (lf' & w' & Hk & Happ). exists lf', w'. split; [|exact Happ].
  unfold bind. now rewrite Hm.
Qed.

Lemma strListCat_cons target s junk parts :
  nonul s -> (length s < length target)%nat ->
  strListCat target (PStr (s ++ NUL :: junk) :: parts)
  = option_map (app s) (strListCat (NUL :: drop (S (length s)) target) parts).
Proof.
  intros Hs Hlen. cbn [strListCat].
  rewrite safeStrCpy_cstr, safeStrLen_cstr by assumption.
  now rewrite take_app_length, drop_app_length.
Qed.

(** The path [writePid] opens. *)
Lemma procStatPath_spec pid junk :
  0 <= pid < 2 ^ 64 ->
  exists rest,
    strListCat (replicate 64 0)
      [PStr (cstr (lit "/proc/")); PStr (decimal pid ++ NUL :: junk);
       PStr (cstr (lit "/stat")); PNull]
    = Some ((lit "/proc/" ++ decimal pid ++ lit "/stat") ++ NUL :: rest).
Proof.
  intros Hpid. pose proof (decimal_length_u64 pid Hpid) as Hlen.
  unfold cstr.
  rewrite strListCat_cons;
    [|apply nonul_check; reflexivity | rewrite length_replicate; simpl; lia].
  rewrite strListCat_cons;
    [|apply decimal_nonul
     |cbn [length]; rewrite length_drop, length_replicate; simpl; lia].
  rewrite strListCat_cons;
    [|apply nonul_check; reflexivity
     |repeat (rewrite length_drop || (progress (cbn [length])));
      rewrite length_replicate; simpl; lia].
  cbn [strListCat option_map]. eexists. rewrite <- !app_assoc. reflexivity.
Qed.

Lemma advance_fields_skip fields r w :
  nonul (concat (List.map (fun f => f ++ [ch_space]) fields)) ->
  Forall (fun f => ch_space ∉ f) fields ->
  advance_fields (length fields) (concat (List.map (fun f => f ++ [ch_space]) fields) ++ r) w
  = Ok r w.
Proof.
  intros Hnul Hsp. revert Hnul.
  induction Hsp as [|f fields Hf _ IH]; intros Hnul; [reflexivity|].
  cbn [List.map concat] in *. apply nonul_app in Hnul as [Hnf Hnrest].
  apply nonul_app in Hnf as [Hnf _].
  cbn [length advance_fields]. unfold bind.
  rewrite <- !app_assoc. cbn [app].
  rewrite safeStrChr_first by (assumption || reflexivity). cbn [defined ret drop].
  now apply IH.
Qed.

Lemma digits_no_space ticks : digits ticks -> ch_space ∉ ticks.
Proof.
  intros Hd Hin. unfold digits in Hd. rewrite Forall_forall in Hd.
  specialize (Hd _ Hin). discriminate Hd.
Qed.

Lemma u64_range z : 0 <= u64 z < 2 ^ 64.
Proof. unfold u64. apply Z.mod_pos_bound. reflexivity. Qed.

Lemma writePid_writes h boot logFile w pid pidtxt comm fields ticks tail :
  let body := concat (List.map (fun f => f ++ [ch_space]) fields)
                ++ ticks ++ ch_space :: tail in
  let content := pidtxt ++ lit " (" ++ comm ++ ch_rparen :: ch_space :: body in
  ready logFile w ->
  0 <= pid < 2 ^ 32 ->
  h_stat h (lit "/proc/" ++ decimal pid ++ lit "/stat") = StatContent content ->
  (length content <= 1023)%nat ->
  nonul content ->
  ch_rparen ∉ body ->
  length fields = 19%nat ->
  Forall (fun f => ch_space ∉ f) fields ->
  digits ticks ->
  writes (writePid h boot logFile pid) logFile w
    (decimal pid ++ [ch_nl] ++ decimal ((boot + dec_value ticks) mod 2 ^ 64) ++ [ch_nl]).
Proof.
  intros body content Hr Hpid Hstat Hlen Hnul Hrp Hfields Hsp Hticks.
  assert (Hpid64 : 0 <= pid < 2 ^ 64) by (split; [lia|]; eapply Z.lt_trans; [apply Hpid | reflexivity]).
  unfold writePid.
  eapply writes_defined.
  { apply uint64ToString_decimal; [exact Hpid64 | rewrite length_replicate; lia]. }
  apply writes_bind; [apply writeString_writes; [apply decimal_nonul | exact Hr]|].
  intros lf1 w1 Hr1.
  apply (writes_bind _ _ _ _ [ch_nl]); [now apply writeChar_writes|].
  intros lf2 w2 Hr2.
  destruct (procStatPath_spec pid
              (drop (S (length (decimal pid))) (replicate 32 0)) Hpid64)
    as (prest & Hpath).
  eapply writes_defined; [exact Hpath|].
  eapply writes_defined.
  { apply string_at_cstr. apply nonul_app. split; [apply nonul_check; reflexivity|].
    apply nonul_app. split; [apply decimal_nonul | apply nonul_check; reflexivity]. }
  rewrite Hstat.
  rewrite take_ge by exact Hlen.
  (* the pieces of the stat line *)
  fold content. unfold content in Hnul.
  apply nonul_app in Hnul as [Hn_pid Hnul].
  apply nonul_app in Hnul as [Hn_open Hnul].
  apply nonul_app in Hnul as [Hn_comm Hnul].
  apply Forall_cons in Hnul as [_ Hnul].
  pose proof Hnul as Hn_spbody.
  apply Forall_cons in Hnul as [_ Hn_body].
  unfold body in Hn_body.
  apply nonul_app in Hn_body as [Hn_fields Hn_rest].
  apply nonul_app in Hn_rest as [Hn_ticks Hn_tail].
  apply Forall_cons in Hn_tail as [_ Hn_tail].
  eapply writes_defined.
  { unfold content.
    replace ((pidtxt ++ lit " (" ++ comm ++ ch_rparen :: ch_space :: body) ++ [NUL])
      with ((pidtxt ++ lit " (" ++ comm) ++ ch_rparen :: (ch_space :: body) ++ NUL :: [])
      by (rewrite <- !app_assoc; reflexivity).
    apply safeStrRChr_rightmost.
    - apply nonul_app. split; [exact Hn_pid|]. apply nonul_app. now split.
    - exact Hn_spbody.
    - reflexivity.
    - discriminate.
    - apply not_elem_of_cons. split; [discriminate | exact Hrp]. }
  cbn [drop app].
  replace (22 - 3)%nat with (length fields) by (rewrite Hfields; reflexivity).
  eapply writes_pure.
  { intros w0. unfold body. rewrite <- app_assoc.
    apply advance_fields_skip; assumption. }
  rewrite <- app_assoc. cbn [app].
  eapply writes_defined.
  { apply safeStrChr_first; [exact Hn_ticks | reflexivity | now apply digits_no_space]. }
  eapply writes_pure; [intros w0; reflexivity|].
  eapply writes_defined.
  { apply stringToUint64_run; [exact Hticks | reflexivity]. }
  eapply writes_defined.
  { apply uint64ToString_decimal; [apply u64_range | rewrite length_replicate; lia]. }
  replace (u64 (boot + u64 (dec_value ticks))) with ((boot + dec_value ticks) mod 2 ^ 64)
    by (unfold u64; now rewrite Zplus_mod_idemp_r).
  apply writes_bind; [apply writeString_writes; [apply decimal_nonul | exact Hr2]|].
  intros lf3 w3 Hr3. now apply writeChar_writes.
Qed.

(** ** Reading the symbolic link *)

Lemma attempt_fits h logFile path junk target size w :
  nonul path -> h_readlink h path = Some target -> nonul target ->
  Z.of_nat (length target) < size -> fits_int target -> ready logFile w ->
  exists logFile' w',
    attemptWriteSymLinkTarget h logFile (path ++ NUL :: junk) size w
    = Ok (true, logFile') w'
    /\ appends logFile w (escaped target ++ [ch_nl]) logFile' w'.
Proof.
  intros Hpath Hlink Htarget Hlen Hfit Hr. unfold attemptWriteSymLinkTarget.
  unfold bind at 1. rewrite string_at_cstr by assumption. cbn [defined ret].
  rewrite Hlink. rewrite take_ge by lia.
  destruct (Z.ltb_spec (Z.of_nat (length target)) size) as [_|]; [|lia].
  destruct (writeEscapedString_writes logFile target [] w Htarget Hfit Hr)
    as (lf1 & w1 & Hw1 & Happ1).
  destruct (writeChar_writes lf1 ch_nl w1 (proj1 Happ1)) as (lf2 & w2 & Hw2 & Happ2).
  exists lf2, w2. split.
  - unfold bind. rewrite Hw1, Hw2. reflexivity.
  - eapply appends_trans; eassumption.
Qed.

Lemma attempt_too_long h logFile path junk target size w :
  nonul path -> h_readlink h path = Some target ->
  0 <= size <= Z.of_nat (length target) ->
  attemptWriteSymLinkTarget h logFile (path ++ NUL :: junk) size w
  = Ok (false, logFile) w.
Proof.
  intros Hpath Hlink Hlen. unfold attemptWriteSymLinkTarget.
  unfold bind at 1. rewrite string_at_cstr by assumption. cbn [defined ret].
  rewrite Hlink.
  assert (Hamt : Z.of_nat (length (take (Z.to_nat size) target)) = size)
    by (rewrite length_take; lia).
  rewrite Hamt, Z.ltb_irrefl, Z.eqb_refl. reflexivity.
Qed.

Lemma double_bufSize bufSize :
  0 < bufSize < 2 ^ 20 -> u64 (Z.shiftl bufSize 1) = 2 * bufSize.
Proof.
  intros H. rewrite Z.shiftl_mul_pow2 by lia. unfold u64.
  rewrite Z.mod_small; [lia|]. change (2 ^ 1) with 2.
  split; [lia|]. eapply Z.lt_trans with (2 ^ 21); [|reflexivity].
  change (2 ^ 21) with (2 ^ 20 * 2). lia.
Qed.

(** Doubling from [bufSize] reaches 1 MiB after [S fuel] rounds; a target
    shorter than 512 KiB fits one of the sizes tried before that. *)
Lemma writeSymLinkTarget_loop_fits fuel h logFile path junk target bufSize w :
  nonul path -> h_readlink h path = Some target -> nonul target ->
  Z.of_nat (length target) < 2 ^ 19 ->
  0 < bufSize -> bufSize * 2 ^ Z.of_nat (S fuel) = 2 ^ 20 ->
  ready logFile w ->
  writes (writeSymLinkTarget_loop (S fuel) h logFile (path ++ NUL :: junk) bufSize)
    logFile w (escaped target ++ [ch_nl]).
Proof.
  intros Hpath Hlink Htarget Hlen. revert bufSize.
  induction fuel as [|fuel IH]; intros bufSize Hpos Hsize Hr;
    rewrite Nat2Z.inj_succ, Z.pow_succ_r in Hsize by lia;
    cbn [writeSymLinkTarget_loop];
    change (1024 * 1024) with (2 ^ 20);
    (destruct (Z.ltb_spec bufSize (2 ^ 20)) as [Hlt|Hge];
     [|match type of Hsize with
       | context [2 ^ ?n] => assert (0 < 2 ^ n) by (apply Z.pow_pos_nonneg; lia)
       end; nia]).
  - change (2 ^ Z.of_nat 0) with 1 in Hsize.
    destruct (attempt_fits h logFile path junk target bufSize w)
      as (lf1 & w1 & Hatt & Happ); try assumption;
      [lia | unfold fits_int, INT_MAX; lia |].
    exists lf1, w1. split; [|exact Happ]. unfold bind. now rewrite Hatt.
  - destruct (Z.lt_ge_cases (Z.of_nat (length target)) bufSize) as [Hfit|Hlong].
    + destruct (attempt_fits h logFile path junk target bufSize w)
        as (lf1 & w1 & Hatt & Happ); try assumption;
        [unfold fits_int, INT_MAX; lia|].
      exists lf1, w1. split; [|exact Happ]. unfold bind. now rewrite Hatt.
    + unfold writes, bind at 1.
      rewrite (attempt_too_long h logFile path junk target bufSize w)
        by (assumption || lia). cbn [fst snd].
      rewrite double_bufSize by lia.
      apply IH; [lia | nia | exact Hr].
Qed.

(** A target of 512 KiB or more fits none of the sizes tried. *)
(** The array of the diagnostic has no closing [NULL]: [strListLen] walks
    off it. *)
Lemma writeSymLinkTarget_error_undefined garbage symLinkTarget :
  writeSymLinkTarget_error garbage symLinkTarget = None.
Proof.
  unfold writeSymLinkTarget_error, writeError. cbn [strListLen].
  destruct (safeStrLen symLinkTarget); destruct (safeStrLen _); reflexivity.
Qed.

(** With a target that fills every buffer the loop gives up, and the
    diagnostic that is to precede [abort()] has no defined result. *)
Lemma writeSymLinkTarget_loop_gives_up fuel h logFile path junk target bufSize w :
  nonul path -> h_readlink h path = Some target ->
  2 ^ 19 <= Z.of_nat (length target) ->
  0 < bufSize -> bufSize * 2 ^ Z.of_nat fuel = 2 ^ 20 ->
  writeSymLinkTarget_loop fuel h logFile (path ++ NUL :: junk) bufSize w = Undef.
Proof.
  intros Hpath Hlink Hlen. revert bufSize.
  induction fuel as [|fuel IH]; intros bufSize Hpos Hsize; cbn [writeSymLinkTarget_loop].
  - change (2 ^ Z.of_nat 0) with 1 in Hsize.
    destruct (Z.ltb_spec bufSize (1024 * 1024)) as [Hlt|Hge];
      [|unfold bind; now rewrite writeSymLinkTarget_error_undefined].
    change (1024 * 1024) with (2 ^ 20) in Hlt. lia.
  - rewrite Nat2Z.inj_succ, Z.pow_succ_r in Hsize by lia.
    assert (0 < 2 ^ Z.of_nat fuel) by (apply Z.pow_pos_nonneg; lia).
    assert (Hhalf : bufSize <= 2 ^ 19) by (change (2 ^ 20) with (2 * 2 ^ 19) in Hsize; nia).
    destruct (Z.ltb_spec bufSize (1024 * 1024)) as [Hlt|Hge];
      [|change (1024 * 1024) with (2 ^ 20) in Hge; change (2 ^ 20) with (2 * 2 ^ 19) in Hge; lia].
    unfold bind at 1. rewrite (attempt_too_long h logFile path junk target bufSize w)
        by (assumption || lia). cbn [fst snd].
    rewrite double_bufSize by (change (1024 * 1024) with (2 ^ 20) in Hlt; lia).
    apply IH; lia.
Qed.

Lemma cwd_path_nonul : nonul (lit "/proc/self/cwd").
Proof. apply nonul_check. reflexivity. Qed.

Lemma writeSymLinkTarget_writes h logFile target w :
  h_readlink h (lit "/proc/self/cwd") = Some target -> nonul target ->
  Z.of_nat (length target) < 2 ^ 19 -> ready logFile w ->
  writes (writeSymLinkTarget h logFile (cstr (lit "/proc/self/cwd"))) logFile w
    (escaped target ++ [ch_nl]).
Proof.
  intros Hlink Htarget Hlen Hr. unfold writeSymLinkTarget, cstr.
  apply writeSymLinkTarget_loop_fits with (target := target);
    try assumption; [apply cwd_path_nonul | lia | reflexivity].
Qed.

Lemma writeSymLinkTarget_gives_up h logFile target w :
  h_readlink h (lit "/proc/self/cwd") = Some target ->
  2 ^ 19 <= Z.of_nat (length target) ->
  writeSymLinkTarget h logFile (cstr (lit "/proc/self/cwd")) w = Undef.
Proof.
  intros Hlink Hlen. unfold writeSymLinkTarget, cstr.
  apply writeSymLinkTarget_loop_gives_up with (target := target);
    try assumption; [apply cwd_path_nonul | lia | reflexivity].
Qed.

(** ** The fuel of the model is enough *)

Create HintDb fuel.

Section Fuel.

Variable h : Host.

Lemma fuelled_ret {A} (a : A) : fuelled (ret a).
Proof. intros w. discriminate. Qed.

Lemma fuelled_abort {A} : fuelled (@abort A).
Proof. intros w. discriminate. Qed.

Lemma fuelled_undef {A} : fuelled (@undef A).
Proof. intros w. discriminate. Qed.

Lemma fuelled_defined {A} (o : option A) : fuelled (defined o).
Proof. destruct o; [apply fuelled_ret | apply fuelled_undef]. Qed.

Lemma fuelled_safeAssert condition : fuelled (safeAssert condition).
Proof. destruct condition; [apply fuelled_ret | apply fuelled_abort]. Qed.

Lemma fuelled_bind {A B} (m : M A) (k : A -> M B) :
  fuelled m -> (forall a, fuelled (k a)) -> fuelled (do x <- m; k x).
Proof.
  intros Hm Hk w. unfold bind. specialize (Hm w).
  destruct (m w); try discriminate; [apply Hk | contradiction].
Qed.

Hint Resolve fuelled_ret fuelled_abort fuelled_undef fuelled_defined
  fuelled_safeAssert : fuel.

Lemma fuelled_flushLogFile logFile : fuelled (flushLogFile logFile).
Proof.
  intros w. unfold flushLogFile.
  destruct (_ && _); [|discriminate].
  destruct (write_loop _ _ _ _) as [amount w1].
  apply fuelled_bind; [auto with fuel|]. intros _. auto with fuel.
Qed.

Lemma fuelled_writeChar logFile ch : fuelled (writeChar logFile ch).
Proof.
  unfold writeChar. apply fuelled_bind.
  - destruct (_ =? _); [apply fuelled_flushLogFile | auto with fuel].
  - intros lf1. destruct (_ && _); auto with fuel.
Qed.

Hint Resolve fuelled_flushLogFile fuelled_writeChar : fuel.

Lemma fuelled_writeString text logFile : fuelled (writeString logFile text).
Proof.
  revert logFile. induction text as [|ch text IH]; intros logFile; simpl;
    [auto with fuel|].
  destruct (ch =? NUL); [auto with fuel|].
  apply fuelled_bind; [auto with fuel | exact IH].
Qed.

Lemma fuelled_writeEscapedString_loop text i logFile :
  fuelled (writeEscapedString_loop logFile text i).
Proof.
  revert logFile i. induction text as [|ch text IH]; intros logFile i;
    cbn [writeEscapedString_loop]; [auto with fuel|].
  destruct (ch =? NUL); [auto with fuel|].
  apply fuelled_bind; [destruct (_ || _); auto with fuel|]. intros lf1.
  apply fuelled_bind; [auto with fuel|]. intros lf2.
  destruct (i <? INT_MAX); [apply IH | auto with fuel].
Qed.

Lemma fuelled_writeEscapedString text logFile :
  fuelled (writeEscapedString logFile text).
Proof.
  unfold writeEscapedString. apply fuelled_bind; [auto with fuel|].
  intros needsQuotes.
  apply fuelled_bind; [destruct needsQuotes; auto with fuel|]. intros lf1.
  apply fuelled_bind; [apply fuelled_writeEscapedString_loop|]. intros lf2.
  destruct needsQuotes; auto with fuel.
Qed.

Hint Resolve fuelled_writeString fuelled_writeEscapedString : fuel.

Lemma fuelled_attemptWriteSymLinkTarget logFile symLinkTarget size :
  fuelled (attemptWriteSymLinkTarget h logFile symLinkTarget size).
Proof.
  unfold attemptWriteSymLinkTarget. apply fuelled_bind; [auto with fuel|].
  intros path. destruct (h_readlink h path); [|auto with fuel].
  destruct (_ <? size).
  - apply fuelled_bind; [auto with fuel|]. intros lf1.
    apply fuelled_bind; auto with fuel.
  - apply fuelled_bind; auto with fuel.
Qed.

(** From [bufSize], [fuel] doublings reach 1 MiB: the loop ends by its
    own test before the fuel is spent. *)
Lemma fuelled_writeSymLinkTarget_loop fuel logFile symLinkTarget bufSize :
  0 < bufSize -> 2 ^ 20 <= bufSize * 2 ^ Z.of_nat fuel ->
  fuelled (writeSymLinkTarget_loop fuel h logFile symLinkTarget bufSize).
Proof.
  revert logFile bufSize.
  induction fuel as [|fuel IH]; intros logFile bufSize Hpos Hfuel;
    cbn [writeSymLinkTarget_loop]; change (1024 * 1024) with (2 ^ 20);
    destruct (Z.ltb_spec bufSize (2 ^ 20)) as [Hlt|Hge];
    [|apply fuelled_bind; [auto with fuel | intros _; auto with fuel]
     | |apply fuelled_bind; [auto with fuel | intros _; auto with fuel]].
  - change (2 ^ Z.of_nat 0) with 1 in Hfuel. lia.
  - rewrite Nat2Z.inj_succ, Z.pow_succ_r in Hfuel by lia.
    apply fuelled_bind; [apply fuelled_attemptWriteSymLinkTarget|].
    intros [ok lf1]. cbn [fst snd]. destruct ok; [auto with fuel|].
    rewrite double_bufSize by lia. apply IH; lia.
Qed.

Lemma fuelled_writeSymLinkTarget logFile symLinkTarget :
  fuelled (writeSymLinkTarget h logFile symLinkTarget).
Proof.
  apply fuelled_writeSymLinkTarget_loop; [lia | vm_compute; discriminate].
Qed.

Lemma fuelled_advance_fields n p : fuelled (advance_fields n p).
Proof.
  revert p. induction n as [|n IH]; intros p; simpl; [auto with fuel|].
  apply fuelled_bind; [auto with fuel|]. intros [q|]; auto with fuel.
Qed.

Lemma fuelled_writePid boot logFile pid : fuelled (writePid h boot logFile pid).
Proof.
  unfold writePid.
  apply fuelled_bind; [auto with fuel|]. intros pidString.
  apply fuelled_bind; [auto with fuel|]. intros lf1.
  apply fuelled_bind; [auto with fuel|]. intros lf2.
  apply fuelled_bind; [auto with fuel|]. intros procStatPath.
  apply fuelled_bind; [auto with fuel|]. intros path.
  destruct (h_stat h path); auto with fuel.
  apply fuelled_bind; [auto with fuel|]. intros [p|]; [|auto with fuel].
  apply fuelled_bind; [apply fuelled_advance_fields|]. intros p'.
  apply fuelled_bind; [auto with fuel|]. intros pEnd.
  apply fuelled_bind; [auto with fuel|]. intros _.
  apply fuelled_bind; [auto with fuel|]. intros ticks.
  apply fuelled_bind; [auto with fuel|]. intros startTime.
  apply fuelled_bind; auto with fuel.
Qed.

Lemma fuelled_openLogFile filename : fuelled (openLogFile h filename).
Proof.
  intros w. unfold openLogFile.
  apply fuelled_bind.
  - unfold open_append. apply fuelled_bind; [auto with fuel|].
    intros path w0. destruct (EINTR_LOOP _ _) as [[fs e] [e'|]]; discriminate.
  - intros fd1. apply fuelled_bind; [auto with fuel|]. intros _.
    apply fuelled_bind.
    + intros w0. unfold lock_wait.
      destruct (EINTR_LOOP _ _) as [[fs e] [e'|]]; discriminate.
    + intros lockRet. apply fuelled_bind; auto with fuel.
Qed.

Lemma fuelled_closeLogFile logFile : fuelled (closeLogFile h logFile).
Proof.
  unfold closeLogFile. apply fuelled_bind; [auto with fuel|]. intros lf1.
  apply fuelled_bind; [auto with fuel|]. intros _ w. discriminate.
Qed.

Lemma fuelled_run_op boot logFile op : fuelled (run_op h boot logFile op).
Proof.
  destruct op; simpl; auto with fuel.
  - apply fuelled_writePid.
  - apply fuelled_writeSymLinkTarget.
Qed.

(** No session is cut short by the fuel of the model. *)
Lemma fuelled_session boot filename ops : fuelled (session h boot filename ops).
Proof.
  unfold session. apply fuelled_bind; [apply fuelled_openLogFile|].
  intros logFile. revert logFile.
  induction ops as [|op ops IH]; intros logFile; simpl; [auto with fuel|].
  apply fuelled_bind; [apply fuelled_run_op | exact IH].
Qed.

Lemma fuelled_write_arguments argv i logFile :
  fuelled (write_arguments logFile i argv).
Proof.
  revert i logFile. induction argv as [|a argv IH]; intros i logFile;
    cbn [write_arguments]; [auto with fuel|].
  destruct (ptr_is a hiddenNull); [auto with fuel|].
  apply fuelled_bind; [destruct (_ <? _); auto with fuel|]. intros lf1.
  apply fuelled_bind; [auto with fuel|]. intros text.
  apply fuelled_bind; [auto with fuel|]. intros lf2.
  destruct (i <? INT_MAX); [apply IH | auto with fuel].
Qed.

(** Nor is any call of [logExecution]. *)
Lemma fuelled_logExecution g filename argv : fuelled (logExecution h g filename argv).
Proof.
  unfold logExecution. destruct (g_logFileName g) as [|c name]; [auto with fuel|].
  destruct (c =? NUL); [auto with fuel|].
  apply fuelled_bind; [apply fuelled_openLogFile|]. intros lf0.
  apply fuelled_bind; [auto with fuel|]. intros lf1.
  apply fuelled_bind; [apply fuelled_writePid|]. intros lf2.
  apply fuelled_bind; [apply fuelled_writePid|]. intros lf3.
  apply fuelled_bind; [apply fuelled_writeSymLinkTarget|]. intros lf4.
  apply fuelled_bind; [auto with fuel|]. intros text.
  apply fuelled_bind; [auto with fuel|]. intros lf5.
  apply fuelled_bind; [auto with fuel|]. intros lf6.
  apply fuelled_bind.
  { unfold write_argument_line. apply fuelled_bind; [|auto with fuel].
    destruct (negb _); [|auto with fuel].
    destruct argv; auto with fuel. apply fuelled_write_arguments. }
  intros lf7. apply fuelled_bind; [auto with fuel|]. intros lf8.
  apply fuelled_closeLogFile.
Qed.

End Fuel.

(** ** The argument line *)

Lemma write_arguments_more args junk i logFile w :
  Forall nonul args -> Forall fits_int args ->
  0 < i -> i + Z.of_nat (length args) <= INT_MAX -> ready logFile w ->
  writes (write_arguments logFile i
            (List.map (fun a => PStr (cstr a)) args ++ PNull :: junk))
    logFile w (more_args args).
Proof.
  intros Hargs. revert i logFile w.
  induction Hargs as [|a args Ha _ IH]; intros i logFile w Hfit Hi Hcount Hr.
  - now apply writes_ret.
  - apply Forall_cons in Hfit as [Hfa Hfit]. cbn [length] in Hcount.
    cbn [List.map app write_arguments ptr_is].
    destruct (Z.ltb_spec 0 i); [|lia].
    apply (writes_bind _ _ _ _ [ch_space] (escaped a ++ more_args args));
      [now apply writeChar_writes|].
    intros lf1 w1 Hr1. eapply writes_defined; [reflexivity|].
    apply writes_bind; [now apply writeEscapedString_writes|].
    intros lf2 w2 Hr2. destruct (Z.ltb_spec i INT_MAX); [|lia].
    apply IH; [assumption | lia | lia | assumption].
Qed.

Lemma write_arguments_writes args junk logFile w :
  Forall nonul args -> Forall fits_int args -> fits_int args -> ready logFile w ->
  writes (write_arguments logFile 0
            (List.map (fun a => PStr (cstr a)) args ++ PNull :: junk))
    logFile w (arg_line args).
Proof.
  intros Hargs Hfit Hcount Hr. unfold fits_int in Hcount.
  destruct Hargs as [|a args Ha Hargs].
  - now apply writes_ret.
  - apply Forall_cons in Hfit as [Hfa Hfit]. cbn [length] in Hcount.
    cbn [List.map app write_arguments ptr_is arg_line].
    change (0 <? 0) with false. cbv iota.
    apply (writes_bind _ _ _ _ [] (escaped a ++ more_args args));
      [now apply writes_ret|].
    intros lf1 w1 Hr1. eapply writes_defined; [reflexivity|].
    apply writes_bind; [now apply writeEscapedString_writes|].
    intros lf2 w2 Hr2. destruct (Z.ltb_spec 0 INT_MAX); [|unfold INT_MAX in *; lia].
    apply write_arguments_more; [assumption | assumption | lia | lia | assumption].
Qed.

Lemma write_argument_line_null logFile w :
  ready logFile w -> writes (write_argument_line logFile PNull) logFile w [ch_nl].
Proof.
  intros Hr. unfold write_argument_line. cbn [ptr_is hiddenNull negb].
  apply (writes_bind _ _ _ _ [] [ch_nl]); [now apply writes_ret|].
  intros lf1 w1 Hr1. now apply writeChar_writes.
Qed.

Lemma write_argument_line_writes args junk logFile w :
  Forall nonul args -> Forall fits_int args -> fits_int args -> ready logFile w ->
  writes (write_argument_line logFile (argv_of args junk)) logFile w
    (arg_line args ++ [ch_nl]).
Proof.
  intros Hargs Hfit Hcount Hr. unfold write_argument_line, argv_of.
  cbn [ptr_is negb].
  apply writes_bind; [now apply write_arguments_writes|].
  intros lf1 w1 Hr1. now apply writeChar_writes.
Qed.

(** An escaped argument has no space at either end. *)
Lemma escape_no_space s : ch_space ∉ s -> ch_space ∉ flat_map escape_char s.
Proof.
  induction s as [|ch s IH]; intros Hin; [exact Hin|].
  apply not_elem_of_cons in Hin as [Hne Hin]. cbn [flat_map].
  rewrite elem_of_app. intros [H|H]; [|now apply IH].
  unfold escape_char in H.
  destruct ((ch =? ch_bslash) || (ch =? ch_quote)).
  - apply elem_of_cons in H as [H|H]; [discriminate|].
    apply list_elem_of_singleton in H. congruence.
  - apply list_elem_of_singleton in H. congruence.
Qed.

Lemma escaped_ends s :
  head (escaped s) <> Some ch_space /\ last (escaped s) <> Some ch_space.
Proof.
  unfold escaped. destruct (needs_quotes s) eqn:Hq.
  - split; [discriminate|]. rewrite app_assoc, last_snoc. discriminate.
  - assert (Hsp : ch_space ∉ s).
    { intros Hin. apply not_true_iff_false in Hq. apply Hq.
      apply needs_quotes_spec. now left. }
    apply escape_no_space in Hsp. cbn [app]. rewrite app_nil_r. split.
    + intros H. apply Hsp. apply head_Some_elem_of. exact H.
    + intros H. apply Hsp. apply last_Some_elem_of. exact H.
Qed.

(** ** Opening and closing the session *)

Lemma EINTR_LOOP_interrupted faults errno :
  Forall (fun f => f = Fails EINTR) faults ->
  exists e, EINTR_LOOP faults errno = ([], e, None).
Proof.
  intros H. revert errno. induction H as [|f faults -> _ IH]; intros errno; simpl.
  - now exists errno.
  - change (EINTR =? EINTR) with true. cbv iota. apply IH.
Qed.

Lemma openLogFile_calm h name rest w :
  nonul name -> calm w -> 0 <= h_log_fd h ->
  exists w',
    openLogFile h (name ++ NUL :: rest) w
    = Ok {| fd := h_log_fd h; buf := replicate 1024 0; bufCount := 0 |} w'
    /\ w_events w' = w_events w ++ [EvOpen name (h_log_fd h); EvLock (h_log_fd h)]
    /\ quiet w'.
Proof.
  intros Hname (Hopen & Hlock & Hq) Hfd.
  unfold openLogFile, open_append, lock_wait, bind.
  rewrite string_at_cstr by assumption. cbn [defined ret].
  cbn [set_errno w_open_faults w_errno].
  destruct (EINTR_LOOP_interrupted (w_open_faults w) 0 Hopen) as (e1 & ->).
  destruct (Z.eqb_spec (h_log_fd h) (-1)) as [Hbad|_]; [lia|].
  cbn [safeAssert negb ret emit set_errno set_open_faults w_lock_faults w_errno].
  destruct (EINTR_LOOP_interrupted (w_lock_faults w) e1 Hlock) as (e2 & ->).
  cbn [Z.eqb safeAssert ret]. eexists. split; [reflexivity|].
  cbn [emit set_errno set_lock_faults w_events w_write_faults].
  split; [now rewrite <- app_assoc | exact Hq].
Qed.

Lemma closeLogFile_quiet h logFile w :
  ready logFile w -> h_unlock_ok h = true ->
  exists w',
    closeLogFile h logFile w = Ok tt w'
    /\ w_events w'
       = w_events w ++ [EvWrite (fd logFile) (buffered logFile);
                        EvUnlock (fd logFile); EvClose (fd logFile)].
Proof.
  intros Hr Hunlock. unfold closeLogFile, bind.
  destruct (flushLogFile_quiet logFile w Hr) as (w1 & -> & Hev & _).
  rewrite Hunlock. cbn [safeAssert ret fd]. eexists. split; [reflexivity|].
  cbn [emit w_events]. rewrite Hev, <- !app_assoc. reflexivity.
Qed.

Lemma writePid_stat_shows h boot logFile w pid start :
  stat_shows h pid start -> 0 <= pid < 2 ^ 32 -> ready logFile w ->
  writes (writePid h boot logFile pid) logFile w
    (decimal pid ++ [ch_nl] ++ decimal ((boot + start) mod 2 ^ 64) ++ [ch_nl]).
Proof.
  intros (pidtxt & comm & fields & ticks & tail & Hstat & Hlen & Hnul & Hrp
            & Hfields & Hsp & Hticks & <-) Hpid Hr.
  now apply (writePid_writes h boot logFile w pid pidtxt comm fields ticks tail).
Qed.

(** ** Lines *)

Lemma lines_from_line cur f rest :
  ch_nl ∉ f ->
  lines_from cur (f ++ ch_nl :: rest) = (rev cur ++ f) :: lines_from [] rest.
Proof.
  revert cur. induction f as [|ch f IH]; intros cur Hin; simpl.
  - rewrite ?Z.eqb_refl. now rewrite app_nil_r.
  - apply not_elem_of_cons in Hin as [Hne Hin].
    destruct (Z.eqb_spec ch ch_nl); [congruence|].
    rewrite IH by assumption. simpl. now rewrite <- app_assoc.
Qed.

(** A text made of newline-free fields, each ended by a newline, has
    exactly those fields as its lines. *)
Lemma lines_record_bytes fields :
  Forall (fun f => ch_nl ∉ f) fields -> lines (record_bytes fields) = fields.
Proof.
  unfold lines, record_bytes.
  induction 1 as [|f fields Hf _ IH]; [reflexivity|].
  cbn [flat_map]. rewrite <- app_assoc. cbn [app].
  rewrite lines_from_line by assumption. cbn [rev app]. now rewrite IH.
Qed.

Lemma digits_no_nl s : digits s -> ch_nl ∉ s.
Proof.
  intros Hd Hin. unfold digits in Hd. rewrite Forall_forall in Hd.
  specialize (Hd _ Hin). discriminate Hd.
Qed.

Lemma escape_no_nl s : ch_nl ∉ s -> ch_nl ∉ flat_map escape_char s.
Proof.
  induction s as [|ch s IH]; intros Hin; [exact Hin|].
  apply not_elem_of_cons in Hin as [Hne Hin]. cbn [flat_map].
  rewrite elem_of_app. intros [H|H]; [|now apply IH].
  unfold escape_char in H.
  destruct ((ch =? ch_bslash) || (ch =? ch_quote)).
  - apply elem_of_cons in H as [H|H]; [discriminate|].
    apply list_elem_of_singleton in H. congruence.
  - apply list_elem_of_singleton in H. congruence.
Qed.

Lemma escaped_no_nl s : ch_nl ∉ s -> ch_nl ∉ escaped s.
Proof.
  intros Hin. unfold escaped. rewrite !elem_of_app.
  intros [H|[H|H]].
  - destruct (needs_quotes s); [|inversion H].
    apply list_elem_of_singleton in H. discriminate.
  - now apply escape_no_nl in H.
  - destruct (needs_quotes s); [|inversion H].
    apply list_elem_of_singleton in H. discriminate.
Qed.

Lemma more_args_no_nl args :
  Forall (fun a => ch_nl ∉ a) args -> ch_nl ∉ more_args args.
Proof.
  unfold more_args. induction 1 as [|a args Ha _ IH]; [apply not_elem_of_nil|].
  cbn [flat_map]. rewrite elem_of_app. intros [H|H]; [|now apply IH].
  apply elem_of_cons in H as [H|H]; [discriminate|].
  now apply escaped_no_nl in H.
Qed.

Lemma arg_line_no_nl args :
  Forall (fun a => ch_nl ∉ a) args -> ch_nl ∉ arg_line args.
Proof.
  intros H. destruct H as [|a args Ha Hargs]; [apply not_elem_of_nil|].
  cbn [arg_line]. rewrite elem_of_app. intros [H|H].
  - now apply escaped_no_nl in H.
  - now apply more_args_no_nl in H.
Qed.

Lemma not_elem_check c s : existsb (Z.eqb c) s = false -> c ∉ s.
Proof.
  intros H Hin. apply existsb_eqb_elem in Hin. congruence.
Qed.

Lemma record_fields_no_nl ppid t1 pid t2 cwd filename args :
  ch_nl ∉ cwd -> ch_nl ∉ filename -> Forall (fun a => ch_nl ∉ a) args ->
  Forall (fun f => ch_nl ∉ f) (record_fields ppid t1 pid t2 cwd filename args).
Proof.
  intros Hcwd Hfn Hargs. unfold record_fields.
  repeat apply Forall_cons_2; try (apply digits_no_nl, decimal_digits).
  - apply not_elem_check. reflexivity.
  - now apply escaped_no_nl.
  - now apply escaped_no_nl.
  - now apply arg_line_no_nl.
  - apply not_elem_of_nil.
  - constructor.
Qed.

(** ** The record *)

Lemma finishes_bind (m : M LogFile) (k : LogFile -> M unit) logFile w b1 b2 :
  writes m logFile w b1 ->
  (forall lf1 w1, ready lf1 w1 -> finishes (k lf1) lf1 w1 b2) ->
  finishes (do x <- m; k x) logFile w (b1 ++ b2).
Proof.
  intros (lf1 & w1 & Hm & Hr1 & Hfd & c1 & Hev1 & Hb1) Hk.
  destruct (Hk lf1 w1 Hr1) as (w2 & c2 & Hk2 & Hev2 & Hb2).
  exists w2, (c1 ++ c2). split; [unfold bind; now rewrite Hm|]. split.
  - rewrite Hev2, Hev1, Hfd, map_app, <- !app_assoc. reflexivity.
  - rewrite concat_app, Hb2, !app_assoc, Hb1. reflexivity.
Qed.

Lemma finishes_defined {A} (o : option A) (a : A) (k : A -> M unit) logFile w b :
  o = Some a -> finishes (k a) logFile w b -> finishes (do x <- defined o; k x) logFile w b.
Proof. intros -> H. exact H. Qed.

Lemma finishes_close h logFile w :
  ready logFile w -> h_unlock_ok h = true ->
  finishes (closeLogFile h logFile) logFile w [].
Proof.
  intros Hr Hunlock.
  destruct (closeLogFile_quiet h logFile w Hr Hunlock) as (w' & Hclose & Hev).
  exists w', [buffered logFile]. split; [exact Hclose|]. split.
  - exact Hev.
  - cbn [concat]. reflexivity.
Qed.

Lemma logExecution_writes h g w name namerest fn fnjunk argv line cwd t1 t2 :
  g_logFileName g = name ++ NUL :: namerest -> name <> [] -> nonul name ->
  calm w -> 0 <= h_log_fd h -> h_unlock_ok h = true ->
  stat_shows h (u32 (h_ppid h)) t1 -> stat_shows h (u32 (h_pid h)) t2 ->
  h_readlink h (lit "/proc/self/cwd") = Some cwd -> nonul cwd ->
  Z.of_nat (length cwd) < 2 ^ 19 ->
  nonul fn -> fits_int fn ->
  (forall lf0 w0, ready lf0 w0 ->
     writes (write_argument_line lf0 argv) lf0 w0 (line ++ [ch_nl])) ->
  exists w' chunks,
    logExecution h g (PStr (fn ++ NUL :: fnjunk)) argv w = Ok tt w'
    /\ w_events w'
       = w_events w ++ [EvOpen name (h_log_fd h); EvLock (h_log_fd h)]
           ++ List.map (EvWrite (h_log_fd h)) chunks
           ++ [EvUnlock (h_log_fd h); EvClose (h_log_fd h)]
    /\ concat chunks
       = record_bytes
           [lit "exec";
            decimal (u32 (h_ppid h));
            decimal ((g_bootTimeInJiffies g + t1) mod 2 ^ 64);
            decimal (u32 (h_pid h));
            decimal ((g_bootTimeInJiffies g + t2) mod 2 ^ 64);
            escaped cwd; escaped fn; line; []].
Proof.
  intros Hg Hne Hname Hcalm Hfd Hunlock Hpp Hp Hlink Hcwd Hlen Hfn Hfnfit Hargv.
  assert (Hu32 : forall z, 0 <= u32 z < 2 ^ 32)
    by (intros z; unfold u32; apply Z.mod_pos_bound; reflexivity).
  unfold logExecution. rewrite Hg.
  destruct name as [|c name']; [contradiction|]. cbn [app].
  pose proof Hname as Hc. apply Forall_cons in Hc as [Hc _].
  destruct (Z.eqb_spec c NUL); [contradiction|].
  change (c :: name' ++ NUL :: namerest) with ((c :: name') ++ NUL :: namerest).
  destruct (openLogFile_calm h (c :: name') namerest w Hname Hcalm Hfd)
    as (w0 & Hopen & Hev0 & Hq0).
  set (lf0 := {| fd := h_log_fd h; buf := replicate 1024 0; bufCount := 0 |}) in *.
  assert (Hr0 : ready lf0 w0).
  { split; [|exact Hq0]. split; [reflexivity | unfold sizeof_buf; cbn; lia]. }
  match goal with
  | |- context [bind (openLogFile _ _) ?k] =>
      assert (Hfin : finishes (k lf0) lf0 w0
                ((lit "exec" ++ [ch_nl])
                   ++ (decimal (u32 (h_ppid h)) ++ [ch_nl]
                         ++ decimal ((g_bootTimeInJiffies g + t1) mod 2 ^ 64) ++ [ch_nl])
                   ++ (decimal (u32 (h_pid h)) ++ [ch_nl]
                         ++ decimal ((g_bootTimeInJiffies g + t2) mod 2 ^ 64) ++ [ch_nl])
                   ++ (escaped cwd ++ [ch_nl])
                   ++ escaped fn ++ [ch_nl] ++ (line ++ [ch_nl]) ++ [ch_nl] ++ []))
  end.
  { cbn beta.
    apply (finishes_bind _ _ _ _ (lit "exec" ++ [ch_nl]));
      [apply writeString_writes; [apply nonul_check; reflexivity | exact Hr0]|].
    intros lf1 w1 Hr1.
    apply (finishes_bind _ _ _ _
             (decimal (u32 (h_ppid h)) ++ [ch_nl]
                ++ decimal ((g_bootTimeInJiffies g + t1) mod 2 ^ 64) ++ [ch_nl]));
      [now apply writePid_stat_shows|].
    intros lf2 w2 Hr2.
    apply (finishes_bind _ _ _ _
             (decimal (u32 (h_pid h)) ++ [ch_nl]
                ++ decimal ((g_bootTimeInJiffies g + t2) mod 2 ^ 64) ++ [ch_nl]));
      [now apply writePid_stat_shows|].
    intros lf3 w3 Hr3.
    apply (finishes_bind _ _ _ _ (escaped cwd ++ [ch_nl]));
      [now apply writeSymLinkTarget_writes|].
    intros lf4 w4 Hr4.
    eapply finishes_defined; [reflexivity|].
    apply (finishes_bind _ _ _ _ (escaped fn));
      [now apply writeEscapedString_writes|].
    intros lf5 w5 Hr5.
    apply (finishes_bind _ _ _ _ [ch_nl]); [now apply writeChar_writes|].
    intros lf6 w6 Hr6.
    apply (finishes_bind _ _ _ _ (line ++ [ch_nl])); [now apply Hargv|].
    intros lf7 w7 Hr7.
    apply (finishes_bind _ _ _ _ [ch_nl] []); [now apply writeChar_writes|].
    intros lf8 w8 Hr8. now apply finishes_close. }
  destruct Hfin as (w' & chunks & Hrun & Hev & Hbytes).
  exists w', chunks. split; [unfold bind at 1; rewrite Hopen; exact Hrun|].
  split.
  - rewrite Hev, Hev0, <- !app_assoc. reflexivity.
  - rewrite Hbytes. unfold record_bytes. cbn [flat_map buffered lf0 bufCount buf].
    rewrite <- !app_assoc. reflexivity.
Qed.

Lemma dec_value_nonneg ds : digits ds -> 0 <= dec_value ds.
Proof.
  intros Hds. unfold dec_value.
  assert (H : forall acc, 0 <= acc ->
            0 <= fold_left (fun acc d => acc * 10 + (d - ch_zero)) ds acc).
  { induction Hds as [|d ds Hd _ IH]; intros acc Hacc; simpl; [exact Hacc|].
    apply IH. apply safeIsDigit_spec in Hd. unfold ch_zero. lia. }
  apply H. lia.
Qed.

(** C2: for a stat file that fits the 1023-byte read window and is laid out
    as proc(5) says, whatever bytes the executable name holds (closing
    parentheses and spaces included), [writePid] finds the rightmost closing
    parenthesis, is at field 3 two bytes later, reaches field 22 after 19
    scans for a space, parses the decimal number there, and writes the pid
    line and then the line of that number plus the boot-tick constant
    (a 64-bit sum: the sum itself when it does not overflow). *)
Theorem writePid_start_tick_from_field_22
    (h : Host) (boot : Z) (logFile : LogFile) (w : World) (pid : Z)
    (pidtxt comm : list Z) (fields : list (list Z)) (ticks tail : list Z) :
  ready logFile w ->
  0 <= pid < 2 ^ 32 ->
  0 <= boot ->
  h_stat h (lit "/proc/" ++ decimal pid ++ lit "/stat")
  = StatContent (stat_line pidtxt comm fields ticks tail) ->
  (length (stat_line pidtxt comm fields ticks tail) <= 1023)%nat ->
  nonul (stat_line pidtxt comm fields ticks tail) ->
  ch_rparen ∉ stat_fields fields ticks tail ->
  length fields = 19%nat ->
  Forall (fun f => ch_space ∉ f) fields ->
  digits ticks ->
  safeStrRChr (stat_line pidtxt comm fields ticks tail ++ [NUL]) ch_rparen
  = Some (Some (ch_rparen :: ch_space :: stat_fields fields ticks tail ++ [NUL]))
  /\ (forall w0,
        advance_fields (22 - 3) (stat_fields fields ticks tail ++ [NUL]) w0
        = Ok (ticks ++ ch_space :: tail ++ [NUL]) w0)
  /\ stringToUint64 (ticks ++ ch_space :: tail ++ [NUL])
     = Some (dec_value ticks mod 2 ^ 64)
  /\ writes (writePid h boot logFile pid) logFile w
       (decimal pid ++ [ch_nl]
          ++ decimal ((boot + dec_value ticks) mod 2 ^ 64) ++ [ch_nl])
  /\ (boot + dec_value ticks < 2 ^ 64 ->
      writes (writePid h boot logFile pid) logFile w
        (decimal pid ++ [ch_nl] ++ decimal (boot + dec_value ticks) ++ [ch_nl])).
Proof.
  intros Hr Hpid Hboot Hstat Hlen Hnul Hrp Hfields Hsp Hticks.
  assert (Hw : writes (writePid h boot logFile pid) logFile w
                 (decimal pid ++ [ch_nl]
                    ++ decimal ((boot + dec_value ticks) mod 2 ^ 64) ++ [ch_nl]))
    by now apply (writePid_writes h boot logFile w pid pidtxt comm fields ticks tail).
  pose proof Hnul as Hparts. unfold stat_line in Hparts.
  apply nonul_app in Hparts as [Hn_pid Hparts].
  apply nonul_app in Hparts as [Hn_open Hparts].
  apply nonul_app in Hparts as [Hn_comm Hparts].
  apply Forall_cons in Hparts as [_ Hn_spbody].
  pose proof Hn_spbody as Hn_body. apply Forall_cons in Hn_body as [_ Hn_body].
  unfold stat_fields in Hn_body.
  apply nonul_app in Hn_body as [Hn_fields Hn_rest].
  split; [|split; [|split; [|split]]].
  - unfold stat_line.
    replace ((pidtxt ++ lit " (" ++ comm
                ++ ch_rparen :: ch_space :: stat_fields fields ticks tail) ++ [NUL])
      with ((pidtxt ++ lit " (" ++ comm)
              ++ ch_rparen :: (ch_space :: stat_fields fields ticks tail) ++ NUL :: [])
      by (rewrite <- !app_assoc; reflexivity).
    apply safeStrRChr_rightmost.
    + apply nonul_app. split; [exact Hn_pid|]. apply nonul_app. now split.
    + exact Hn_spbody.
    + reflexivity.
    + discriminate.
    + apply not_elem_of_cons. split; [discriminate | exact Hrp].
  - intros w0.
    replace (22 - 3)%nat with (length fields) by (rewrite Hfields; reflexivity).
    unfold stat_fields. rewrite <- !app_assoc. cbn [app].
    now apply advance_fields_skip.
  - apply stringToUint64_run; [exact Hticks | reflexivity].
  - exact Hw.
  - intros Hsum. rewrite Z.mod_small in Hw; [exact Hw|].
    pose proof (dec_value_nonneg ticks Hticks). lia.
Qed.

(** C3, amended: the buffer starts at 256 bytes and doubles while it is
    below 1 MiB, so the largest size tried is 512 KiB.  An attempt with a
    buffer no longer than the target returns a full buffer and fails, an
    attempt with a longer buffer writes the target (when the target is
    shorter than [2^31] bytes, as in every attempt the loop makes).  Hence a target shorter
    than 512 KiB is read and written, escaped, with its newline; for a
    target of 512 KiB or more every attempt fails with nothing added to
    the session.  The code then means to abort, but the diagnostic it
    writes first is given an array without its closing [NULL], so the
    call has no defined result from there on. *)
Theorem writeSymLinkTarget_limit_512KiB
    (h : Host) (logFile : LogFile) (w : World) (target : list Z) :
  ready logFile w ->
  h_readlink h (lit "/proc/self/cwd") = Some target ->
  nonul target ->
  writeSymLinkTarget h logFile (cstr (lit "/proc/self/cwd"))
  = writeSymLinkTarget_loop 12 h logFile (cstr (lit "/proc/self/cwd")) 256
  /\ (forall size, 0 <= size <= Z.of_nat (length target) ->
        attemptWriteSymLinkTarget h logFile (cstr (lit "/proc/self/cwd")) size w
        = Ok (false, logFile) w)
  /\ (forall size, Z.of_nat (length target) < size -> fits_int target ->
        exists logFile' w',
          attemptWriteSymLinkTarget h logFile (cstr (lit "/proc/self/cwd")) size w
          = Ok (true, logFile') w'
          /\ appends logFile w (escaped target ++ [ch_nl]) logFile' w')
  /\ (Z.of_nat (length target) < 512 * 1024 ->
      writes (writeSymLinkTarget h logFile (cstr (lit "/proc/self/cwd"))) logFile w
        (escaped target ++ [ch_nl]))
  /\ (512 * 1024 <= Z.of_nat (length target) ->
      writeSymLinkTarget h logFile (cstr (lit "/proc/self/cwd")) w = Undef
      /\ writeSymLinkTarget_error (h_stack h) (cstr (lit "/proc/self/cwd")) = None).
Proof.
  intros Hr Hlink Htarget. change (512 * 1024) with (2 ^ 19).
  split; [reflexivity|]. split; [|split; [|split]].
  - intros size Hsize. unfold cstr.
    now apply attempt_too_long with (target := target); [apply cwd_path_nonul | |].
  - intros size Hsize Hfit. unfold cstr.
    now apply attempt_fits; [apply cwd_path_nonul | | | | |].
  - intros Hlen. now apply writeSymLinkTarget_writes.
  - intros Hlen. split; [|apply writeSymLinkTarget_error_undefined].
    now apply writeSymLinkTarget_gives_up with (target := target).
Qed.

(** C3 as stated fails: a target of exactly 1 MiB - 1 bytes is not read
    and not written. *)
Lemma writeSymLinkTarget_1MiB_minus_1_not_read :
  let target := replicate (Z.to_nat (1024 * 1024 - 1)) 97 in
  Z.of_nat (length target) = 1024 * 1024 - 1
  /\ (forall size, 0 <= size < 1024 * 1024 ->
        attemptWriteSymLinkTarget (sample_host_with target) sample_logFile
          (cstr (lit "/proc/self/cwd")) size sample_world
        = Ok (false, sample_logFile) sample_world)
  /\ writeSymLinkTarget (sample_host_with target) sample_logFile
       (cstr (lit "/proc/self/cwd")) sample_world
     = Undef
  /\ ~ (exists bytes,
          writes (writeSymLinkTarget (sample_host_with target) sample_logFile
                    (cstr (lit "/proc/self/cwd")))
            sample_logFile sample_world bytes).
Proof.
  intros target.
  assert (Hlen : Z.of_nat (length target) = 1024 * 1024 - 1).
  { unfold target. rewrite length_replicate, Z2Nat.id by (vm_compute; discriminate).
    reflexivity. }
  assert (Habort : writeSymLinkTarget (sample_host_with target) sample_logFile
                     (cstr (lit "/proc/self/cwd")) sample_world
                   = Undef).
  { apply writeSymLinkTarget_gives_up with (target := target); [reflexivity|].
    rewrite Hlen. vm_compute. discriminate. }
  split; [exact Hlen|]. split; [|split; [exact Habort|]].
  { intros size Hsize. unfold cstr.
    apply attempt_too_long with (target := target);
      [apply cwd_path_nonul | reflexivity | lia]. }
  intros (bytes & lf' & w' & Hok & _). rewrite Habort in Hok. discriminate Hok.
Qed.

Lemma escaped_nonempty x : x <> [] -> escaped x <> [].
Proof.
  intros Hx H. unfold escaped in H.
  apply app_eq_nil in H as [_ H]. apply app_eq_nil in H as [H _].
  destruct x as [|ch x]; [contradiction|]. cbn [flat_map] in H.
  apply app_eq_nil in H as [H _]. unfold escape_char in H.
  destruct ((ch =? ch_bslash) || (ch =? ch_quote)); discriminate H.
Qed.

Lemma arg_line_head a args :
  a <> [] -> head (arg_line (a :: args)) <> Some ch_space.
Proof.
  intros Ha. cbn [arg_line]. rewrite head_app.
  destruct (head (escaped a)) as [c|] eqn:Hh.
  - rewrite <- Hh. apply escaped_ends.
  - apply head_None in Hh. now apply escaped_nonempty in Hh.
Qed.

Lemma arg_line_last a args z :
  last (a :: args) = Some z -> z <> [] ->
  last (arg_line (a :: args)) <> Some ch_space.
Proof.
  intros Hlast Hz.
  assert (Hend : exists front, arg_line (a :: args) = front ++ escaped z).
  { apply last_Some in Hlast as (front & Hfront).
    destruct front as [|a' front]; cbn [app] in Hfront.
    - injection Hfront as Heq1 Heq2. subst a args. exists [].
      cbn [arg_line more_args flat_map]. now rewrite app_nil_r.
    - injection Hfront as Heq1 Heq2. subst a' args. cbn [arg_line]. unfold more_args.
      rewrite flat_map_app. cbn [flat_map]. rewrite app_nil_r.
      exists (escaped a ++ flat_map (fun x => ch_space :: escaped x) front ++ [ch_space]).
      rewrite <- !app_assoc. reflexivity. }
  destruct Hend as (front & ->). rewrite last_app.
  destruct (last (escaped z)) as [c|] eqn:Hl.
  - rewrite <- Hl. apply escaped_ends.
  - apply last_None in Hl. now apply escaped_nonempty in Hl.
Qed.

(** C8, amended: the argument line.  For a [NULL] vector and for a vector
    whose first element is [NULL] it is the newline alone; the vector is
    compared with [hiddenNull] before it is read.  Otherwise it is the
    escaped arguments with exactly one space between neighbours, none added
    before the first or after the last, then the newline.  No escaped
    argument starts or ends with a space, so the line starts with a space
    only when the first argument is the empty string, and ends with one
    (before the newline) only when the last argument is the empty string:
    an empty argument is written as no bytes at all.  Each argument is
    shorter than [2^31] bytes and there are fewer than [2^31] of them, the
    most the [int] indices of the two loops can walk. *)
Theorem argument_line_single_spaces
    (logFile : LogFile) (w : World) (a : list Z) (args : list (list Z))
    (junk : list ptr) :
  ready logFile w -> nonul a -> Forall nonul args ->
  fits_int a -> Forall fits_int args -> fits_int (a :: args) ->
  writes (write_argument_line logFile hiddenNull) logFile w [ch_nl]
  /\ writes (write_argument_line logFile (PVec (hiddenNull :: junk))) logFile w [ch_nl]
  /\ writes (write_argument_line logFile (argv_of (a :: args) junk)) logFile w
       (arg_line (a :: args) ++ [ch_nl])
  /\ arg_line (a :: args)
     = escaped a ++ flat_map (fun x => ch_space :: escaped x) args
  /\ Forall (fun x => head (escaped x) <> Some ch_space
                      /\ last (escaped x) <> Some ch_space) (a :: args)
  /\ (a <> [] -> head (arg_line (a :: args)) <> Some ch_space)
  /\ (forall z, last (a :: args) = Some z -> z <> [] ->
        last (arg_line (a :: args)) <> Some ch_space).
Proof.
  intros Hr Ha Hargs Hfa Hfargs Hcount.
  split; [|split; [|split; [|split; [|split; [|split]]]]].
  - now apply write_argument_line_null.
  - apply (write_argument_line_writes [] junk);
      [constructor | constructor | apply fits_int_check; reflexivity | exact Hr].
  - apply (write_argument_line_writes (a :: args) junk);
      [now constructor | now constructor | exact Hcount | exact Hr].
  - reflexivity.
  - apply List.Forall_forall. intros x _. apply escaped_ends.
  - apply arg_line_head.
  - apply arg_line_last.
Qed.

(** C8 as stated fails: with the empty string as first argument the
    argument line starts with a space, and with the empty string as last
    argument it ends with one. *)
Lemma argument_line_empty_argument_leading_space :
  match write_argument_line sample_logFile (argv_of [[]; lit "a"] []) sample_world with
  | Ok logFile' _ =>
      buffered logFile' = ch_space :: lit "a" ++ [ch_nl]
      /\ ~ (head (buffered logFile') <> Some ch_space)
  | _ => False
  end
  /\ match write_argument_line sample_logFile (argv_of [lit "a"; []] []) sample_world with
     | Ok logFile' _ => buffered logFile' = lit "a" ++ [ch_space; ch_nl]
     | _ => False
     end.
Proof.
  vm_compute. split; [split; [reflexivity|] | reflexivity].
  intros H. now apply H.
Qed.

(** C6: with a [NULL] leading argument, [execle] builds the vector that
    holds the terminator alone and takes as environment the first variadic
    argument, the one right after the [NULL]; both go to [wrap_execve], and
    from there, once [logExecution] has returned, to the real [execve]. *)
Theorem execle_null_leading_argument
    (h : Host) (g : Globals) (path envp : ptr) (more : list ptr) (w : World) :
  execle_argv hiddenNull (envp :: more) = Some ([PNull], envp)
  /\ execle h g path hiddenNull (envp :: more) w
     = wrap_execve h g path (PVec [PNull]) envp w
  /\ (forall w1,
        logExecution h g path (PVec [PNull]) w = Ok tt w1 ->
        execle h g path hiddenNull (envp :: more) w
        = real_execve g path (PVec [PNull]) envp w1).
Proof.
  split; [reflexivity|]. split; [reflexivity|].
  intros w1 Hlog. unfold execle, wrap_execve, bind.
  change (defined (execle_argv hiddenNull (envp :: more)) w)
    with (Ok ([PNull], envp) w).
  cbn [fst snd]. now rewrite Hlog.
Qed.










Lemma _init_globals ld g :
  _init ld = Some (Some g) ->
  ld_execve ld = Some (real_execve g) /\ ld_execvpe ld = Some (real_execvpe g)
  /\ init_logFileName (ld_getenv ld) = Some (g_logFileName g).
Proof.
  unfold _init. intros H.
  destruct (ld_execve ld) as [re|]; [|discriminate].
  destruct (ld_execvpe ld) as [rp|]; [|discriminate].
  destruct (init_logFileName (ld_getenv ld)) as [name|]; [|discriminate].
  cbv zeta in H.
  destruct (1 <=? to_int (ld_clk_tck ld)); [|discriminate].
  destruct (ld_proc_stat ld) as [lines|]; [|discriminate].
  destruct (init_bootTime lines (to_int (ld_clk_tck ld))) as [[b|]|];
    try discriminate.
  destruct (0 <? b); [|discriminate].
  injection H as <-. repeat split.
Qed.



(** C9: at every point of a session (after [openLogFile] and any sequence
    of session operations that completed) the fill count of the staging
    buffer is between 0 and its capacity of 1024.  There, [writeChar] with a
    full buffer flushes first and stores the character at index 0, and with
    room left stores it without any [write]; a completed [flushLogFile] has
    written exactly the buffered bytes and reset the count to 0; a [write]
    that falls short makes it abort. *)
Theorem staging_buffer_within_capacity
    (h : Host) (boot : Z) (filename : list Z) (ops : list session_op)
    (w : World) (logFile : LogFile) (w' : World) :
  session h boot filename ops w = Ok logFile w' ->
  0 <= bufCount logFile <= sizeof_buf
  /\ length (buf logFile) = Z.to_nat sizeof_buf
  /\ (forall ch w1,
        bufCount logFile = sizeof_buf ->
        writeChar logFile ch w1
        = (do flushed <- flushLogFile logFile;
           ret {| fd := fd flushed; buf := <[0%nat := ch]> (buf flushed);
                  bufCount := 1 |}) w1)
  /\ (forall ch w1,
        bufCount logFile <> sizeof_buf ->
        writeChar logFile ch w1
        = Ok {| fd := fd logFile;
                buf := <[Z.to_nat (bufCount logFile) := ch]> (buf logFile);
                bufCount := bufCount logFile + 1 |} w1)
  /\ (forall w1 flushed w2,
        flushLogFile logFile w1 = Ok flushed w2 ->
        bufCount flushed = 0
        /\ w_events w2 = w_events w1 ++ [EvWrite (fd logFile) (buffered logFile)])
  /\ (forall w1 n faults,
        w_write_faults w1 = WriteShort n :: faults ->
        Z.of_nat n < bufCount logFile ->
        exists w2, flushLogFile logFile w1 = Abort w2).
Proof.
  intros Hrun. pose proof (session_lf_ok _ _ _ _ _ _ _ Hrun) as Hok.
  pose proof Hok as [Hlen Hcnt].
  split; [exact Hcnt|]. split; [exact Hlen|].
  split; [|split; [|split]].
  - intros ch w1 Hfull. unfold writeChar, bind. rewrite Hfull, Z.eqb_refl.
    destruct (flushLogFile logFile w1) as [flushed w2| | |] eqn:E; try reflexivity.
    apply flushLogFile_Ok in E as [-> _]. reflexivity.
  - intros ch w1 Hroom. unfold writeChar, bind, ret.
    destruct (Z.eqb_spec (bufCount logFile) sizeof_buf); [contradiction|].
    replace ((0 <=? bufCount logFile) && (bufCount logFile <? sizeof_buf))
      with true by (symmetry; apply andb_true_iff; unfold sizeof_buf in *; lia).
    reflexivity.
  - intros w1 flushed w2 E. apply flushLogFile_Ok in E as [-> Hev].
    split; [reflexivity | now apply Hev].
  - intros w1 n faults Hfaults Hshort. unfold flushLogFile.
    replace ((0 <=? bufCount logFile) && (bufCount logFile <=? sizeof_buf))
      with true by (symmetry; apply andb_true_iff; lia).
    rewrite Hfaults. cbn [write_loop]. unfold bind, safeAssert.
    fold (buffered logFile).
    assert (Hamt : Z.of_nat (length (take n (buffered logFile))) <> bufCount logFile).
    { rewrite length_take. lia. }
    destruct (Z.eqb_spec (Z.of_nat (length (take n (buffered logFile))))
                (bufCount logFile)); [contradiction|].
    eexists. reflexivity.
Qed.

(** C1, amended: for a call made while the log path is non-empty, on a host
    where the session can be opened, both stat files are well formed and the
    cwd link is shorter than 512 KiB, with a filename and arguments shorter
    than [2^31] bytes each and fewer than [2^31] arguments, [logExecution]
    completes and appends
    exactly one record under the lock: the call trace gains the [open], the
    lock, [write]s whose data add up to the record, the unlock and the
    [close].  The record is nine fields in this order, each ended by a
    newline: [exec], parent pid, parent start tick since the epoch, self
    pid, self start tick since the epoch, cwd, program filename, argument
    line, and an empty field.  The cwd, the filename and the arguments are
    written quoted, not escaped, when they hold a newline: only when none of
    them holds one are the lines of the record exactly these nine fields
    (seven lines between the [exec] line and the blank line). *)
Theorem logExecution_appends_one_record
    (h : Host) (g : Globals) (w : World) (name namerest fn fnjunk : list Z)
    (argv : ptr) (args : list (list Z)) (junk : list ptr) (cwd : list Z)
    (t1 t2 : Z) :
  g_logFileName g = name ++ NUL :: namerest -> name <> [] -> nonul name ->
  calm w -> 0 <= h_log_fd h -> h_unlock_ok h = true ->
  stat_shows h (u32 (h_ppid h)) t1 -> stat_shows h (u32 (h_pid h)) t2 ->
  h_readlink h (lit "/proc/self/cwd") = Some cwd -> nonul cwd ->
  Z.of_nat (length cwd) < 512 * 1024 ->
  nonul fn -> Forall nonul args ->
  fits_int fn -> Forall fits_int args -> fits_int args ->
  (argv = hiddenNull /\ args = []) \/ argv = argv_of args junk ->
  let fields :=
    record_fields (u32 (h_ppid h)) ((g_bootTimeInJiffies g + t1) mod 2 ^ 64)
      (u32 (h_pid h)) ((g_bootTimeInJiffies g + t2) mod 2 ^ 64) cwd fn args in
  exists w' chunks,
    logExecution h g (PStr (fn ++ NUL :: fnjunk)) argv w = Ok tt w'
    /\ w_events w'
       = w_events w ++ [EvOpen name (h_log_fd h); EvLock (h_log_fd h)]
           ++ List.map (EvWrite (h_log_fd h)) chunks
           ++ [EvUnlock (h_log_fd h); EvClose (h_log_fd h)]
    /\ concat chunks = record_bytes fields
    /\ length fields = 9%nat
    /\ (exists middle,
          record_bytes fields = (lit "exec" ++ [ch_nl]) ++ middle ++ [ch_nl; ch_nl])
    /\ (ch_nl ∉ cwd -> ch_nl ∉ fn -> Forall (fun a => ch_nl ∉ a) args ->
        lines (record_bytes fields) = fields).
Proof.
  intros Hg Hne Hname Hcalm Hfd Hunlock Hpp Hp Hlink Hcwd Hlen Hfn Hargs
    Hfnfit Hargsfit Hcount Hargv fields.
  destruct (logExecution_writes h g w name namerest fn fnjunk argv (arg_line args)
              cwd t1 t2) as (w' & chunks & Hrun & Hev & Hbytes); try assumption.
  { intros lf0 w0 Hr0. destruct Hargv as [[-> ->] | ->].
    - now apply write_argument_line_null.
    - now apply write_argument_line_writes. }
  exists w', chunks. split; [exact Hrun|]. split; [exact Hev|].
  split; [exact Hbytes|]. split; [reflexivity|]. split.
  - unfold fields, record_fields, record_bytes. cbn [flat_map].
    exists ((decimal (u32 (h_ppid h)) ++ [ch_nl])
              ++ (decimal ((g_bootTimeInJiffies g + t1) mod 2 ^ 64) ++ [ch_nl])
              ++ (decimal (u32 (h_pid h)) ++ [ch_nl])
              ++ (decimal ((g_bootTimeInJiffies g + t2) mod 2 ^ 64) ++ [ch_nl])
              ++ (escaped cwd ++ [ch_nl]) ++ (escaped fn ++ [ch_nl]) ++ arg_line args).
    rewrite <- !app_assoc. reflexivity.
  - intros Hc Hf Ha. apply lines_record_bytes. now apply record_fields_no_nl.
Qed.

Lemma Forall_not_elem_check c (fs : list (list Z)) :
  forallb (fun f => negb (existsb (Z.eqb c) f)) fs = true ->
  Forall (fun f => c ∉ f) fs.
Proof.
  intros H. apply List.Forall_forall. intros f Hin.
  rewrite forallb_forall in H. specialize (H f Hin).
  apply not_elem_check. now apply negb_true_iff.
Qed.

Lemma sample_stat_shows_100 : stat_shows sample_host 100 4000.
Proof.
  exists (decimal 100), sample_comm, sample_fields, (decimal 4000), sample_tail.
  split; [reflexivity|].
  split; [apply Nat.leb_le; reflexivity|].
  split; [apply nonul_check; reflexivity|].
  split; [apply not_elem_check; reflexivity|].
  split; [reflexivity|].
  split; [apply Forall_not_elem_check; reflexivity|].
  split; [apply digits_check; reflexivity | reflexivity].
Qed.

Lemma sample_stat_shows_200 : stat_shows sample_host 200 5000.
Proof.
  exists (decimal 200), sample_comm, sample_fields, (decimal 5000), sample_tail.
  split; [reflexivity|].
  split; [apply Nat.leb_le; reflexivity|].
  split; [apply nonul_check; reflexivity|].
  split; [apply not_elem_check; reflexivity|].
  split; [reflexivity|].
  split; [apply Forall_not_elem_check; reflexivity|].
  split; [apply digits_check; reflexivity | reflexivity].
Qed.

Lemma sample_world_calm : calm sample_world.
Proof. repeat split; repeat constructor. Qed.

Lemma sample_ready : ready sample_logFile sample_world.
Proof.
  split; [split; [reflexivity | unfold sizeof_buf; cbn; lia]|].
  repeat constructor.
Qed.

Lemma logExecution_appends_one_record_witness :
  let fields :=
    record_fields 100 5000 200 6000 (lit "/w") (lit "/bin/ls") [lit "ls"; lit "-l"] in
  exists w' chunks,
    logExecution sample_host sample_globals (PStr (lit "/bin/ls" ++ NUL :: []))
      (argv_of [lit "ls"; lit "-l"] []) sample_world = Ok tt w'
    /\ w_events w'
       = w_events sample_world ++ [EvOpen (lit "/tmp/t.log") 3; EvLock 3]
           ++ List.map (EvWrite 3) chunks ++ [EvUnlock 3; EvClose 3]
    /\ concat chunks = record_bytes fields
    /\ length fields = 9%nat
    /\ (exists middle,
          record_bytes fields = (lit "exec" ++ [ch_nl]) ++ middle ++ [ch_nl; ch_nl])
    /\ (ch_nl ∉ lit "/w" -> ch_nl ∉ lit "/bin/ls" ->
        Forall (fun a => ch_nl ∉ a) [lit "ls"; lit "-l"] ->
        lines (record_bytes fields) = fields).
Proof.
  apply (logExecution_appends_one_record sample_host sample_globals sample_world
           (lit "/tmp/t.log") (replicate 1013 0) (lit "/bin/ls") []
           (argv_of [lit "ls"; lit "-l"] []) [lit "ls"; lit "-l"] [] (lit "/w")
           4000 5000).
  - reflexivity.
  - discriminate.
  - apply nonul_check. reflexivity.
  - exact sample_world_calm.
  - vm_compute. discriminate.
  - reflexivity.
  - exact sample_stat_shows_100.
  - exact sample_stat_shows_200.
  - reflexivity.
  - apply nonul_check. reflexivity.
  - vm_compute. reflexivity.
  - apply nonul_check. reflexivity.
  - apply Forall_cons_2; [apply nonul_check; reflexivity|].
    apply Forall_cons_2; [apply nonul_check; reflexivity | constructor].
  - apply fits_int_check. reflexivity.
  - each_fits.
  - apply fits_int_check. reflexivity.
  - right. reflexivity.
Defined.

(** C1 as stated fails: a filename that holds a newline is written quoted
    with the newline as it is, so the record has ten lines, eight of them
    between the [exec] line and the blank line. *)
Lemma logExecution_newline_in_filename_ten_lines :
  match logExecution sample_host sample_globals
          (PStr (cstr (lit "a" ++ [ch_nl] ++ lit "b")))
          (argv_of [lit "ls"] []) sample_world with
  | Ok _ w' =>
      lines (written (w_events w'))
      = [lit "exec"; lit "100"; lit "5000"; lit "200"; lit "6000"; lit "/w";
         ch_quote :: lit "a"; lit "b" ++ [ch_quote]; lit "ls"; []]
      /\ length (lines (written (w_events w'))) = 10%nat
      /\ length (lines (written (w_events w'))) <> 9%nat
  | _ => False
  end.
Proof. vm_compute. repeat split. discriminate. Qed.

(** The first end-to-end scenario of the log format. *)
Example scenario_execve_ls :
  match execve sample_host sample_globals (PStr (cstr (lit "/bin/ls")))
          (argv_of [lit "ls"; lit "-l"] []) (PVec [PNull]) sample_world with
  | Ok r w' =>
      r = -1 /\ w_errno w' = 2
      /\ written (w_events w')
         = record_bytes [lit "exec"; lit "100"; lit "5000"; lit "200"; lit "6000";
                         lit "/w"; lit "/bin/ls"; lit "ls -l"; []]
  | _ => False
  end.
Proof. vm_compute. repeat split. Qed.

(** [execl("/bin/ls", "ls", "a b", NULL)]: the argument with a space is
    quoted. *)
Example scenario_execl_quoted :
  match execl sample_host sample_globals (PStr (cstr (lit "/bin/ls")))
          (PStr (cstr (lit "ls"))) [PStr (cstr (lit "a b")); PNull] sample_world with
  | Ok _ w' =>
      lines (written (w_events w'))
      = [lit "exec"; lit "100"; lit "5000"; lit "200"; lit "6000"; lit "/w";
         lit "/bin/ls"; lit "ls " ++ [ch_quote] ++ lit "a b" ++ [ch_quote]; []]
  | _ => False
  end.
Proof. vm_compute. reflexivity. Qed.

(** [execl("/bin/ls", NULL)]: an empty argument line, no crash. *)
Example scenario_execl_null :
  match execl sample_host sample_globals (PStr (cstr (lit "/bin/ls")))
          PNull [] sample_world with
  | Ok _ w' =>
      lines (written (w_events w'))
      = [lit "exec"; lit "100"; lit "5000"; lit "200"; lit "6000"; lit "/w";
         lit "/bin/ls"; []; []]
  | _ => False
  end.
Proof. vm_compute. reflexivity. Qed.


(** ** The theorems at the sample host *)

Lemma writePid_start_tick_from_field_22_witness :
  safeStrRChr (sample_stat 200 5000 ++ [NUL]) ch_rparen
  = Some (Some (ch_rparen :: ch_space
                  :: stat_fields sample_fields (decimal 5000) sample_tail ++ [NUL]))
  /\ (forall w0,
        advance_fields (22 - 3)
          (stat_fields sample_fields (decimal 5000) sample_tail ++ [NUL]) w0
        = Ok (decimal 5000 ++ ch_space :: sample_tail ++ [NUL]) w0)
  /\ stringToUint64 (decimal 5000 ++ ch_space :: sample_tail ++ [NUL])
     = Some (dec_value (decimal 5000) mod 2 ^ 64)
  /\ writes (writePid sample_host 1000 sample_logFile 200) sample_logFile sample_world
       (decimal 200 ++ [ch_nl]
          ++ decimal ((1000 + dec_value (decimal 5000)) mod 2 ^ 64) ++ [ch_nl])
  /\ (1000 + dec_value (decimal 5000) < 2 ^ 64 ->
      writes (writePid sample_host 1000 sample_logFile 200) sample_logFile sample_world
        (decimal 200 ++ [ch_nl]
           ++ decimal (1000 + dec_value (decimal 5000)) ++ [ch_nl])).
Proof.
  apply (writePid_start_tick_from_field_22 sample_host 1000 sample_logFile
           sample_world 200 (decimal 200) sample_comm sample_fields (decimal 5000)
           sample_tail).
  - exact sample_ready.
  - vm_compute. split; [discriminate | reflexivity].
  - vm_compute. discriminate.
  - reflexivity.
  - apply Nat.leb_le. reflexivity.
  - apply nonul_check. reflexivity.
  - apply not_elem_check. reflexivity.
  - reflexivity.
  - apply Forall_not_elem_check. reflexivity.
  - apply digits_check. reflexivity.
Defined.

Lemma writeSymLinkTarget_limit_512KiB_witness :
  let path := cstr (lit "/proc/self/cwd") in
  writeSymLinkTarget sample_host sample_logFile path
  = writeSymLinkTarget_loop 12 sample_host sample_logFile path 256
  /\ (forall size, 0 <= size <= Z.of_nat (length (lit "/w")) ->
        attemptWriteSymLinkTarget sample_host sample_logFile path size sample_world
        = Ok (false, sample_logFile) sample_world)
  /\ (forall size, Z.of_nat (length (lit "/w")) < size -> fits_int (lit "/w") ->
        exists logFile' w',
          attemptWriteSymLinkTarget sample_host sample_logFile path size sample_world
          = Ok (true, logFile') w'
          /\ appends sample_logFile sample_world (escaped (lit "/w") ++ [ch_nl])
               logFile' w')
  /\ (Z.of_nat (length (lit "/w")) < 512 * 1024 ->
      writes (writeSymLinkTarget sample_host sample_logFile path)
        sample_logFile sample_world (escaped (lit "/w") ++ [ch_nl]))
  /\ (512 * 1024 <= Z.of_nat (length (lit "/w")) ->
      writeSymLinkTarget sample_host sample_logFile path sample_world = Undef
      /\ writeSymLinkTarget_error (h_stack sample_host) path = None).
Proof.
  apply (writeSymLinkTarget_limit_512KiB sample_host sample_logFile sample_world
           (lit "/w")).
  - exact sample_ready.
  - reflexivity.
  - apply nonul_check. reflexivity.
Defined.

Lemma writeEscapedString_roundtrip_witness :
  let x := lit "say " ++ [ch_quote] ++ lit "hi" ++ [ch_quote; ch_bslash; ch_nl] in
  exists out,
    writes (writeEscapedString sample_logFile (x ++ NUL :: [])) sample_logFile
      sample_world out
    /\ spec_decode out = x
    /\ out = (if needs_quotes x then [ch_quote] else [])
              ++ flat_map escape_char x
              ++ (if needs_quotes x then [ch_quote] else [])
    /\ (needs_quotes x = true <-> ch_space ∈ x \/ ch_nl ∈ x)
    /\ (forall ch, ch = ch_bslash \/ ch = ch_quote -> escape_char ch = [ch_bslash; ch])
    /\ (forall ch, ch <> ch_bslash -> ch <> ch_quote -> escape_char ch = [ch]).
Proof.
  apply (writeEscapedString_roundtrip
           (lit "say " ++ [ch_quote] ++ lit "hi" ++ [ch_quote; ch_bslash; ch_nl])
           [] sample_logFile sample_world).
  - apply nonul_check. reflexivity.
  - apply fits_int_check. reflexivity.
  - exact sample_ready.
Defined.

(** C4 as stated fails: for a string of [2^31] bytes the [int] index of the
    loop is incremented at [INT_MAX], so the call has no defined result and
    no encoding is appended. *)
Lemma writeEscapedString_2GiB_string_undefined :
  let x := replicate (Z.to_nat (2 ^ 31)) 97 in
  nonul x
  /\ Z.of_nat (length x) = 2 ^ 31
  /\ writeEscapedString sample_logFile (x ++ NUL :: []) sample_world = Undef
  /\ ~ (exists out,
          writes (writeEscapedString sample_logFile (x ++ NUL :: []))
            sample_logFile sample_world out).
Proof.
  intros x.
  assert (Hx : nonul x) by (apply Forall_replicate; discriminate).
  assert (Hlen : Z.of_nat (length x) = 2 ^ 31).
  { unfold x. rewrite length_replicate. apply Z2Nat.id. discriminate. }
  assert (Hundef : writeEscapedString sample_logFile (x ++ NUL :: []) sample_world
                   = Undef).
  { apply writeEscapedString_overflow; [exact Hx | | exact sample_ready].
    rewrite Hlen. reflexivity. }
  split; [exact Hx|]. split; [exact Hlen|]. split; [exact Hundef|].
  intros (out & lf' & w' & Hok & _). rewrite Hundef in Hok. discriminate Hok.
Qed.



Lemma argument_line_single_spaces_witness :
  let a := lit "sh" in
  let args := [lit "-c"; lit "echo hi"] in
  writes (write_argument_line sample_logFile hiddenNull) sample_logFile sample_world
    [ch_nl]
  /\ writes (write_argument_line sample_logFile (PVec (hiddenNull :: [])))
       sample_logFile sample_world [ch_nl]
  /\ writes (write_argument_line sample_logFile (argv_of (a :: args) []))
       sample_logFile sample_world (arg_line (a :: args) ++ [ch_nl])
  /\ arg_line (a :: args)
     = escaped a ++ flat_map (fun x => ch_space :: escaped x) args
  /\ Forall (fun x => head (escaped x) <> Some ch_space
                      /\ last (escaped x) <> Some ch_space) (a :: args)
  /\ (a <> [] -> head (arg_line (a :: args)) <> Some ch_space)
  /\ (forall z, last (a :: args) = Some z -> z <> [] ->
        last (arg_line (a :: args)) <> Some ch_space).
Proof.
  apply (argument_line_single_spaces sample_logFile sample_world (lit "sh")
           [lit "-c"; lit "echo hi"] []).
  - exact sample_ready.
  - apply nonul_check. reflexivity.
  - apply Forall_cons_2; [apply nonul_check; reflexivity|].
    apply Forall_cons_2; [apply nonul_check; reflexivity | constructor].
  - apply fits_int_check. reflexivity.
  - each_fits.
  - apply fits_int_check. reflexivity.
Defined.

Lemma staging_buffer_within_capacity_witness :
  let logFile := fst sample_session_end in
  0 <= bufCount logFile <= sizeof_buf
  /\ length (buf logFile) = Z.to_nat sizeof_buf
  /\ (forall ch w1,
        bufCount logFile = sizeof_buf ->
        writeChar logFile ch w1
        = (do flushed <- flushLogFile logFile;
           ret {| fd := fd flushed; buf := <[0%nat := ch]> (buf flushed);
                  bufCount := 1 |}) w1)
  /\ (forall ch w1,
        bufCount logFile <> sizeof_buf ->
        writeChar logFile ch w1
        = Ok {| fd := fd logFile;
                buf := <[Z.to_nat (bufCount logFile) := ch]> (buf logFile);
                bufCount := bufCount logFile + 1 |} w1)
  /\ (forall w1 flushed w2,
        flushLogFile logFile w1 = Ok flushed w2 ->
        bufCount flushed = 0
        /\ w_events w2 = w_events w1 ++ [EvWrite (fd logFile) (buffered logFile)])
  /\ (forall w1 n faults,
        w_write_faults w1 = WriteShort n :: faults ->
        Z.of_nat n < bufCount logFile ->
        exists w2, flushLogFile logFile w1 = Abort w2).
Proof.
  apply (staging_buffer_within_capacity sample_host 1000 (cstr (lit "/tmp/t.log"))
           sample_session_ops sample_world (fst sample_session_end)
           (snd sample_session_end)).
  vm_compute. reflexivity.
Defined.

Example sample_session_fills_buffer : bufCount (fst sample_session_end) = sizeof_buf.
Proof. reflexivity. Qed.

Lemma execle_null_leading_argument_witness :
  execle_argv hiddenNull (sample_envp :: []) = Some ([PNull], sample_envp)
  /\ execle sample_host sample_globals (PStr (cstr (lit "/bin/true"))) hiddenNull
       (sample_envp :: []) sample_world
     = wrap_execve sample_host sample_globals (PStr (cstr (lit "/bin/true")))
         (PVec [PNull]) sample_envp sample_world
  /\ execle sample_host sample_globals (PStr (cstr (lit "/bin/true"))) hiddenNull
       (sample_envp :: []) sample_world
     = real_execve sample_globals (PStr (cstr (lit "/bin/true"))) (PVec [PNull])
         sample_envp sample_logged_world.
Proof.
  destruct (execle_null_leading_argument sample_host sample_globals
              (PStr (cstr (lit "/bin/true"))) sample_envp [] sample_world)
    as (Hargv & Hwrap & Hreal).
  split; [exact Hargv|]. split; [exact Hwrap|].
  apply Hreal. vm_compute. reflexivity.
Defined.

(** * The safe primitives on terminated strings *)

Lemma safeStrChr_unterminated s c : nonul s -> misses c s -> safeStrChr s c = None.
Proof.
  intros Hs. induction Hs as [|ch s Hch _ IH]; intros Hin; [reflexivity|].
  rewrite safeStrChr_cons.
  apply Forall_cons in Hin as [Hne Hin].
  destruct (Z.eqb_spec (char_value ch) c); [congruence|].
  not_terminator ch. auto.
Qed.

Lemma misses_NUL s : nonul s -> misses NUL s.
Proof.
  intros Hs. eapply Forall_impl; [exact Hs|].
  intros b Hb E. apply Hb. now apply char_value_NUL.
Qed.

Lemma misses_high c s : 128 <= c -> Forall byte s -> misses c s.
Proof.
  intros Hc Hs. eapply Forall_impl; [exact Hs|].
  intros b Hb. cbv beta. now apply char_value_high.
Qed.

Lemma safeStrRChr_from_terminator ret s rest :
  nonul s -> safeStrRChr_from ret (s ++ NUL :: rest) NUL = Some (Some (NUL :: rest)).
Proof.
  intros Hs. revert ret. induction Hs as [|ch s Hch _ IH]; intros ret; cbn [app];
    rewrite safeStrRChr_from_cons; cbv zeta.
  - reflexivity.
  - not_terminator ch. apply IH.
Qed.

Lemma byte_check s : forallb (fun b => (0 <=? b) && (b <? 256)) s = true -> Forall byte s.
Proof.
  intros H. apply Forall_forall. intros b Hin.
  rewrite forallb_forall in H. apply list_elem_of_In in Hin. apply H in Hin.
  unfold byte. lia.
Qed.

Lemma misses_check c s :
  forallb (fun b => negb (char_value b =? c)) s = true -> misses c s.
Proof.
  intros H. apply Forall_forall. intros b Hin.
  rewrite forallb_forall in H. apply list_elem_of_In in Hin. apply H in Hin.
  destruct (Z.eqb_spec (char_value b) c); [discriminate | assumption].
Qed.

(** X1: [safeStrChr] compares each [char] of a terminated string, as the
    signed value [char_value] gives, with the [int] it is passed.  It
    returns the suffix that starts at the first byte whose value is [c],
    [NULL] when no byte has that value, and the suffix at the terminator
    when asked for the terminator itself; on bytes with neither such a byte
    nor a terminator it runs off the array.  A character of the 7-bit set
    is met exactly at its own byte; a [c] from 128 on is met by no byte,
    so the result is then [NULL] whatever the string holds. *)
Theorem safeStrChr_first_occurrence (s rest : list Z) (c : Z) :
  nonul s ->
  (forall pre b post, s = pre ++ b :: post -> char_value b = c -> misses c pre ->
     safeStrChr (s ++ NUL :: rest) c = Some (Some (b :: post ++ NUL :: rest)))
  /\ (c <> NUL -> misses c s -> safeStrChr (s ++ NUL :: rest) c = Some None)
  /\ safeStrChr (s ++ NUL :: rest) NUL = Some (Some (NUL :: rest))
  /\ (misses c s -> safeStrChr s c = None)
  /\ (ascii7 c = true -> forall b, char_value b = c <-> b = c)
  /\ (128 <= c -> Forall byte s -> safeStrChr (s ++ NUL :: rest) c = Some None).
Proof.
  intros Hs. repeat split.
  - intros pre b post -> Hb Hpre. apply nonul_app in Hs as [Hp _].
    rewrite <- app_assoc. cbn [app]. now apply safeStrChr_hit.
  - intros Hc Hin. now apply safeStrChr_miss.
  - apply safeStrChr_hit; [assumption | now apply misses_NUL | reflexivity].
  - intros Hin. now apply safeStrChr_unterminated.
  - now apply char_value_ascii7.
  - now apply char_value_ascii7.
  - intros Hc Hb. apply safeStrChr_miss; [assumption | unfold NUL; lia |].
    now apply misses_high.
Qed.

Lemma safeStrChr_first_occurrence_witness :
  safeStrChr ([97; 233; 98; 233] ++ NUL :: [7]) (-23)
  = Some (Some (233 :: [98; 233] ++ NUL :: [7]))
  /\ safeStrChr ([97; 233; 98; 233] ++ NUL :: [7]) 233 = Some None
  /\ safeStrChr ([97; 233; 98; 233] ++ NUL :: [7]) 98
     = Some (Some (98 :: [233] ++ NUL :: [7])).
Proof.
  destruct (safeStrChr_first_occurrence [97; 233; 98; 233] [7] (-23))
    as (Hhit & _); [apply nonul_check; reflexivity|].
  destruct (safeStrChr_first_occurrence [97; 233; 98; 233] [7] 233)
    as (_ & _ & _ & _ & _ & Hhigh); [apply nonul_check; reflexivity|].
  destruct (safeStrChr_first_occurrence [97; 233; 98; 233] [7] 98)
    as (Hplain & _); [apply nonul_check; reflexivity|].
  split; [|split].
  - apply (Hhit [97] 233 [98; 233]); [reflexivity | reflexivity |].
    apply misses_check. reflexivity.
  - apply Hhigh; [lia | apply byte_check; reflexivity].
  - apply (Hplain [97; 233] 98 [233]); [reflexivity | reflexivity |].
    apply misses_check. reflexivity.
Defined.

(** X2: [safeStrRChr] makes the same comparison as [safeStrChr] and returns
    the suffix that starts at the last byte of a terminated string whose
    [char] value is [c], [NULL] when no byte has that value, and the suffix
    at the terminator when asked for the terminator itself.  A [c] from 128
    on is met by no byte, so the result is then [NULL]. *)
Theorem safeStrRChr_last_occurrence (s rest : list Z) (c : Z) :
  nonul s ->
  (forall pre b post, c <> NUL -> s = pre ++ b :: post -> char_value b = c ->
     misses c post ->
     safeStrRChr (s ++ NUL :: rest) c = Some (Some (b :: post ++ NUL :: rest)))
  /\ (c <> NUL -> misses c s -> safeStrRChr (s ++ NUL :: rest) c = Some None)
  /\ safeStrRChr (s ++ NUL :: rest) NUL = Some (Some (NUL :: rest))
  /\ (ascii7 c = true -> forall b, char_value b = c <-> b = c)
  /\ (128 <= c -> Forall byte s -> safeStrRChr (s ++ NUL :: rest) c = Some None).
Proof.
  intros Hs. repeat split.
  - intros pre b post Hc -> Hb Hpost. apply nonul_app in Hs as [Hp Hq].
    apply Forall_cons in Hq as [Hbn Hq].
    rewrite <- app_assoc. cbn [app]. unfold safeStrRChr.
    rewrite safeStrRChr_from_hit by assumption.
    now apply safeStrRChr_from_miss.
  - intros Hc Hin. unfold safeStrRChr. now apply safeStrRChr_from_miss.
  - unfold safeStrRChr. now apply safeStrRChr_from_terminator.
  - now apply char_value_ascii7.
  - now apply char_value_ascii7.
  - intros Hc Hb. unfold safeStrRChr.
    apply safeStrRChr_from_miss; [assumption | unfold NUL; lia |].
    now apply misses_high.
Qed.

Lemma safeStrRChr_last_occurrence_witness :
  safeStrRChr ([233; 97; 233; 98] ++ NUL :: []) (-23)
  = Some (Some (233 :: [98] ++ NUL :: []))
  /\ safeStrRChr ([233; 97; 233; 98] ++ NUL :: []) 233 = Some None
  /\ safeStrRChr (lit "1 (a) b) S" ++ NUL :: []) ch_rparen
     = Some (Some (ch_rparen :: lit " S" ++ NUL :: [])).
Proof.
  destruct (safeStrRChr_last_occurrence [233; 97; 233; 98] [] (-23))
    as (Hhit & _); [apply nonul_check; reflexivity|].
  destruct (safeStrRChr_last_occurrence [233; 97; 233; 98] [] 233)
    as (_ & _ & _ & _ & Hhigh); [apply nonul_check; reflexivity|].
  destruct (safeStrRChr_last_occurrence (lit "1 (a) b) S") [] ch_rparen)
    as (Hplain & _); [apply nonul_check; reflexivity|].
  split; [|split].
  - apply (Hhit [233; 97] 233 [98]); [discriminate | reflexivity | reflexivity |].
    apply misses_check. reflexivity.
  - apply Hhigh; [lia | apply byte_check; reflexivity].
  - apply (Hplain (lit "1 (a) b") ch_rparen (lit " S"));
      [discriminate | reflexivity | reflexivity |].
    apply misses_check. reflexivity.
Defined.

Lemma safeStrCpy_overflow s rest dest :
  nonul s -> (length dest <= length s)%nat ->
  safeStrCpy dest (s ++ NUL :: rest) = None.
Proof.
  intros Hs. revert dest.
  induction Hs as [|ch s Hch _ IH]; intros [|d dest] Hlen; simpl in *;
    try reflexivity; try lia.
  not_terminator ch. rewrite IH by lia. reflexivity.
Qed.

(** X3: [safeStrCpy] stores the source string and its terminator at the
    start of the destination and leaves the bytes behind them as they were,
    so the destination then reads back as the source; a destination of at
    most as many bytes as the string has characters is overrun. *)
Theorem safeStrCpy_copies_string (s rest dest : list Z) :
  nonul s ->
  ((length s < length dest)%nat ->
     exists dest',
       safeStrCpy dest (s ++ NUL :: rest) = Some dest'
       /\ dest' = s ++ NUL :: drop (S (length s)) dest
       /\ length dest' = length dest
       /\ string_at dest' = Some s
       /\ safeStrLen dest' = Some (length s))
  /\ ((length dest <= length s)%nat -> safeStrCpy dest (s ++ NUL :: rest) = None).
Proof.
  intros Hs. split.
  - intros Hlen. eexists. split; [now apply safeStrCpy_cstr|].
    split; [reflexivity|]. split; [|split].
    + rewrite length_app. cbn [length]. rewrite length_drop. lia.
    + now apply string_at_cstr.
    + now apply safeStrLen_cstr.
  - intros Hlen. now apply safeStrCpy_overflow.
Qed.

Lemma safeStrCpy_copies_string_witness :
  ((length (lit "/stat") < length (replicate 8 7))%nat ->
     exists dest',
       safeStrCpy (replicate 8 7) (lit "/stat" ++ NUL :: []) = Some dest'
       /\ dest' = lit "/stat" ++ NUL :: drop (S (length (lit "/stat"))) (replicate 8 7)
       /\ length dest' = length (replicate 8 7)
       /\ string_at dest' = Some (lit "/stat")
       /\ safeStrLen dest' = Some (length (lit "/stat")))
  /\ ((length (replicate 8 7) <= length (lit "/stat"))%nat ->
      safeStrCpy (replicate 8 7) (lit "/stat" ++ NUL :: []) = None).
Proof.
  apply (safeStrCpy_copies_string (lit "/stat") [] (replicate 8 7)).
  apply nonul_check. reflexivity.
Defined.

Lemma safeStrNCmp_terminated s1 r1 s2 r2 n :
  nonul s1 -> nonul s2 ->
  exists r, safeStrNCmp (s1 ++ NUL :: r1) (s2 ++ NUL :: r2) n = Some r
            /\ (r = 0 <-> take n s1 = take n s2).
Proof.
  intros H1. revert s2 n.
  induction H1 as [|c1 s1 Hc1 _ IH]; intros s2 n H2; destruct n as [|n].
  - exists 0. split; [reflexivity|]. now rewrite !take_0.
  - destruct H2 as [|c2 s2 Hc2 H2]; simpl.
    + exists 0. split; [reflexivity|]. tauto.
    + destruct (Z.eqb_spec NUL c2) as [E|E]; [congruence|]. simpl.
      exists (NUL - c2). split; [reflexivity|].
      unfold NUL in *. split; [lia|discriminate].
  - exists 0. split; [reflexivity|]. now rewrite !take_0.
  - destruct H2 as [|c2 s2 Hc2 H2]; simpl.
    + destruct (Z.eqb_spec c1 NUL) as [E|E]; [contradiction|].
      exists (c1 - NUL). split.
      * destruct (c1 =? NUL) eqn:E1; [apply Z.eqb_eq in E1; contradiction|].
        reflexivity.
      * unfold NUL in *. split; [lia|discriminate].
    + destruct (Z.eqb_spec c1 c2) as [E|E]; simpl.
      * subst c2. not_terminator c1. simpl.
        destruct (IH s2 n H2) as (r & -> & Hr). exists r. split; [reflexivity|].
        rewrite Hr. split; [congruence|]. intros Heq. now injection Heq.
      * exists (c1 - c2). split; [reflexivity|]. split; [lia|].
        intros Heq. injection Heq as Heq _. contradiction.
Qed.

(** X4: on two terminated strings [safeStrNCmp] is defined and returns zero
    exactly when the strings agree on their first [n] characters (on the
    whole of them when they are shorter). *)
Theorem safeStrNCmp_zero_iff_same_prefix (s1 r1 s2 r2 : list Z) (n : nat) :
  nonul s1 -> nonul s2 ->
  exists r, safeStrNCmp (s1 ++ NUL :: r1) (s2 ++ NUL :: r2) n = Some r
            /\ (r = 0 <-> take n s1 = take n s2).
Proof. apply safeStrNCmp_terminated. Qed.

Lemma safeStrNCmp_zero_iff_same_prefix_witness :
  exists r, safeStrNCmp (lit "btime 17" ++ NUL :: []) (lit "btime " ++ NUL :: []) 6
            = Some r
            /\ (r = 0 <-> take 6 (lit "btime 17") = take 6 (lit "btime ")).
Proof.
  apply (safeStrNCmp_zero_iff_same_prefix (lit "btime 17") [] (lit "btime ") [] 6);
    apply nonul_check; reflexivity.
Defined.

(** * String lists and diagnostics *)

(** Each string of a list written out holds no terminator. *)
Ltac each_nonul :=
  lazymatch goal with
  | |- Forall _ [] => constructor
  | |- Forall _ (_ :: _) =>
      apply Forall_cons_2;
      [cbn [fst]; first [assumption | apply decimal_nonul | apply nonul_check; reflexivity]
      |each_nonul]
  end.

Lemma nonul_concat (ss : list (list Z)) : Forall nonul ss -> nonul (concat ss).
Proof.
  induction 1 as [|s ss Hs _ IH]; simpl; [constructor|].
  apply nonul_app. now split.
Qed.

Lemma strListLen_parts strs more :
  Forall (fun p => nonul (fst p)) strs ->
  strListLen (parts_of strs ++ PNull :: more)
  = Some (length (concat (List.map fst strs)) + 1)%nat.
Proof.
  induction 1 as [|[s junk] strs Hs _ IH]; simpl in *; [reflexivity|].
  rewrite safeStrLen_cstr by assumption. rewrite IH.
  rewrite length_app. f_equal. lia.
Qed.

Lemma strListCat_parts strs more target :
  Forall (fun p => nonul (fst p)) strs -> strs <> [] ->
  (length (concat (List.map fst strs)) < length target)%nat ->
  strListCat target (parts_of strs ++ PNull :: more)
  = Some (concat (List.map fst strs)
            ++ NUL :: drop (S (length (concat (List.map fst strs)))) target).
Proof.
  intros Hs. revert target.
  induction Hs as [|[s junk] strs Hs Hrest IH]; intros target Hne Hlen; [congruence|].
  cbn [parts_of List.map fst snd concat app] in *.
  rewrite length_app in Hlen.
  rewrite strListCat_cons by (assumption || lia).
  destruct strs as [|p strs].
  - simpl. rewrite !app_nil_r. reflexivity.
  - unfold parts_of in IH. rewrite IH; [|discriminate|cbn [length]; rewrite length_drop; lia].
    cbn [option_map]. rewrite <- app_assoc. do 3 f_equal.
    rewrite length_app. cbn [drop]. rewrite drop_drop. do 2 f_equal; lia.
Qed.

(** X5: [strListLen] is the total length of the strings plus one for the
    terminator, and an array of that many bytes is enough for
    [strListCat], which stores the strings end to end, then one terminator,
    and leaves the bytes behind it alone; with no string at all it stores
    nothing, not even a terminator. *)
Theorem strListCat_fits_strListLen
    (strs : list (list Z * list Z)) (more : list ptr) (target : list Z) :
  Forall (fun p => nonul (fst p)) strs ->
  let text := concat (List.map fst strs) in
  strListLen (parts_of strs ++ PNull :: more) = Some (length text + 1)%nat
  /\ (strs <> [] -> (length text < length target)%nat ->
      strListCat target (parts_of strs ++ PNull :: more)
      = Some (text ++ NUL :: drop (S (length text)) target))
  /\ strListCat target (PNull :: more) = Some target.
Proof.
  intros Hs text. split; [now apply strListLen_parts|].
  split; [|reflexivity]. intros Hne Hlen. now apply strListCat_parts.
Qed.

Lemma strListCat_fits_strListLen_witness :
  let strs := [(lit "/proc/", []); (lit "42", [7; 7]); (lit "/stat", [])] in
  let text := concat (List.map fst strs) in
  strListLen (parts_of strs ++ PNull :: []) = Some (length text + 1)%nat
  /\ (strs <> [] -> (length text < length (replicate 64 0))%nat ->
      strListCat (replicate 64 0) (parts_of strs ++ PNull :: [])
      = Some (text ++ NUL :: drop (S (length text)) (replicate 64 0)))
  /\ strListCat (replicate 64 0) (PNull :: []) = Some (replicate 64 0).
Proof.
  apply (strListCat_fits_strListLen
           [(lit "/proc/", []); (lit "42", [7; 7]); (lit "/stat", [])] []
           (replicate 64 0)).
  each_nonul.
Defined.

Lemma length_uninitialised garbage size : length (uninitialised garbage size) = size.
Proof. unfold uninitialised. now rewrite length_map, length_seq. Qed.

Lemma writeError_parts garbage strs more :
  Forall (fun p => nonul (fst p)) strs -> strs <> [] ->
  writeError garbage (parts_of strs ++ PNull :: more)
  = Some (concat (List.map fst strs)).
Proof.
  intros Hs Hne. unfold writeError.
  rewrite strListLen_parts by assumption.
  rewrite strListCat_parts; [|assumption|assumption|rewrite length_uninitialised; lia].
  rewrite safeStrLen_cstr.
  - now rewrite take_app_length.
  - apply nonul_concat. apply Forall_map. exact Hs.
Qed.

(** X6: [writeError] writes the strings of its array end to end, whatever
    the message array holds before; for an array that starts with [NULL]
    the one-byte message array is never initialised, and the call writes
    nothing if that byte happens to be zero and reads past the array
    otherwise. *)
Theorem writeError_writes_concatenation
    (garbage : nat -> Z) (strs : list (list Z * list Z)) (more : list ptr) :
  Forall (fun p => nonul (fst p)) strs ->
  (strs <> [] ->
   writeError garbage (parts_of strs ++ PNull :: more)
   = Some (concat (List.map fst strs)))
  /\ writeError garbage (PNull :: more)
     = (if garbage 0%nat =? NUL then Some [] else None).
Proof.
  intros Hs. split; [intros Hne; now apply writeError_parts|].
  unfold writeError. cbn. destruct (garbage 0%nat =? NUL); reflexivity.
Qed.

Lemma writeError_writes_concatenation_witness :
  let strs := [(lit "libbtrace.so: ", []); (lit "oops", [1; 2])] in
  (strs <> [] ->
   writeError (fun i => Z.of_nat i + 1) (parts_of strs ++ PNull :: [])
   = Some (concat (List.map fst strs)))
  /\ writeError (fun i => Z.of_nat i + 1) (PNull :: [])
     = (if Z.of_nat 0 + 1 =? NUL then Some [] else None).
Proof.
  apply (writeError_writes_concatenation (fun i => Z.of_nat i + 1)
           [(lit "libbtrace.so: ", []); (lit "oops", [1; 2])] []).
  each_nonul.
Defined.

(** X7: the diagnostic of a failed assertion reads
    [libbtrace.so: FILE:LINE: FUNC: Assertion `COND' failed.] and a
    newline, with the line number in decimal, whatever the two
    uninitialised arrays hold before. *)
Theorem safeAssertFail_message
    (garbage garbage' : nat -> Z) (filename func condition j1 j2 j3 : list Z)
    (line : Z) :
  nonul filename -> nonul func -> nonul condition -> 0 <= line < 2 ^ 31 ->
  safeAssertFail garbage garbage' (filename ++ NUL :: j1) line (func ++ NUL :: j2)
    (condition ++ NUL :: j3)
  = Some (lit "libbtrace.so: " ++ filename ++ lit ":" ++ decimal line ++ lit ": "
            ++ func ++ lit ": Assertion `" ++ condition ++ lit "' failed." ++ [ch_nl]).
Proof.
  intros Hf Hu Hc Hline. unfold safeAssertFail.
  rewrite u64_small by lia.
  rewrite uint64ToString_decimal by (rewrite ?length_uninitialised; lia).
  set (junk := drop _ (uninitialised garbage 32)).
  change (writeError garbage'
            (parts_of [(lit "libbtrace.so: ", []); (filename, j1); (lit ":", []);
                       (decimal line, junk); (lit ": ", []); (func, j2);
                       (lit ": Assertion `", []); (condition, j3);
                       (lit "' failed." ++ [ch_nl], [])] ++ PNull :: [])
          = Some (lit "libbtrace.so: " ++ filename ++ lit ":" ++ decimal line
                    ++ lit ": " ++ func ++ lit ": Assertion `" ++ condition
                    ++ lit "' failed." ++ [ch_nl])).
  rewrite writeError_parts; [|each_nonul|discriminate].
  cbn [List.map fst concat]. rewrite app_nil_r. reflexivity.
Qed.

Lemma safeAssertFail_message_witness :
  safeAssertFail (fun i => Z.of_nat i + 1) (fun _ => 255)
    (lit "libbtrace.c" ++ NUL :: []) 258
    (lit "openLogFile" ++ NUL :: []) (lit "logFile->fd != -1" ++ NUL :: [])
  = Some (lit "libbtrace.so: " ++ lit "libbtrace.c" ++ lit ":" ++ decimal 258 ++ lit ": "
            ++ lit "openLogFile" ++ lit ": Assertion `" ++ lit "logFile->fd != -1"
            ++ lit "' failed." ++ [ch_nl]).
Proof.
  apply (safeAssertFail_message (fun i => Z.of_nat i + 1) (fun _ => 255)
           (lit "libbtrace.c")
           (lit "openLogFile") (lit "logFile->fd != -1") [] [] [] 258);
    try (apply nonul_check; reflexivity); lia.
Defined.

(** X8: the diagnostic [writeSymLinkTarget] means to write when every
    attempt has failed is built from an array literal without the closing
    [NULL], so [strListLen] walks off the array: the call has no defined
    result, whatever the path is. *)
Theorem writeSymLinkTarget_error_unterminated
    (garbage : nat -> Z) (symLinkTarget : list Z) :
  strListLen [PStr (cstr (lit "libbtrace.so: Error reading symlink "));
              PStr symLinkTarget] = None
  /\ writeSymLinkTarget_error garbage symLinkTarget = None.
Proof.
  assert (H : strListLen [PStr (cstr (lit "libbtrace.so: Error reading symlink "));
                          PStr symLinkTarget] = None).
  { cbn [strListLen]. destruct (safeStrLen symLinkTarget);
      destruct (safeStrLen _); reflexivity. }
  split; [exact H|]. unfold writeSymLinkTarget_error, writeError. now rewrite H.
Qed.

(** * Initialisation *)

Lemma safeStrLen_inv bytes n :
  safeStrLen bytes = Some n ->
  exists s rest, bytes = s ++ NUL :: rest /\ nonul s /\ length s = n.
Proof.
  revert n. induction bytes as [|ch bytes IH]; intros n H; simpl in H; [discriminate|].
  destruct (Z.eqb_spec ch NUL) as [->|Hch].
  - injection H as <-. exists [], bytes. repeat split. constructor.
  - destruct (safeStrLen bytes) as [m|]; [|discriminate]. injection H as <-.
    destruct (IH m eq_refl) as (s & rest & -> & Hs & <-).
    exists (ch :: s), rest. repeat split. now apply Forall_cons_2.
Qed.

Lemma init_logFileName_short s rest :
  nonul s -> (length s < 1024)%nat ->
  init_logFileName (PStr (s ++ NUL :: rest))
  = Some (s ++ replicate (1024 - length s) 0).
Proof.
  intros Hs Hlen. unfold init_logFileName, sizeof_g_logFileName.
  rewrite safeStrLen_cstr by assumption.
  destruct (Z.ltb_spec (Z.of_nat (length s)) 1024); [|lia].
  rewrite safeStrCpy_cstr by (rewrite ?length_replicate; assumption).
  rewrite drop_replicate.
  replace (1024 - length s)%nat with (S (1024 - S (length s))) by lia.
  reflexivity.
Qed.

(** X9: a value of [BTRACE_LOG] shorter than 1024 bytes is copied whole into
    [g_logFileName], which then reads back as that value; a non-empty value
    leaves a first byte other than zero there, which is what
    [logExecution] tests. *)
Theorem init_logFileName_copies_short_value (s rest : list Z) :
  nonul s -> (length s < 1024)%nat ->
  let name := s ++ replicate (1024 - length s) 0 in
  init_logFileName (PStr (s ++ NUL :: rest)) = Some name
  /\ length name = 1024%nat
  /\ string_at name = Some s
  /\ (s <> [] -> exists c tl, name = c :: tl /\ c <> NUL).
Proof.
  intros Hs Hlen name. split; [now apply init_logFileName_short|].
  split; [|split].
  - unfold name. rewrite length_app, length_replicate. lia.
  - unfold name.
    replace (1024 - length s)%nat with (S (1024 - S (length s))) by lia.
    now apply string_at_cstr.
  - intros Hne. destruct s as [|c s]; [congruence|].
    exists c, (s ++ replicate (1024 - length (c :: s)) 0).
    split; [reflexivity|]. now apply Forall_cons in Hs as [? _].
Qed.

Lemma init_logFileName_copies_short_value_witness :
  let s := replicate 1023 97 in
  let name := s ++ replicate (1024 - length s) 0 in
  init_logFileName (PStr (s ++ NUL :: [])) = Some name
  /\ length name = 1024%nat
  /\ string_at name = Some s
  /\ (s <> [] -> exists c tl, name = c :: tl /\ c <> NUL).
Proof.
  apply (init_logFileName_copies_short_value (replicate 1023 97) []).
  - apply nonul_check. reflexivity.
  - rewrite length_replicate. lia.
Defined.

Lemma init_bootTime_skip pre lines jiffiesPerSecond :
  Forall not_btime pre ->
  init_bootTime (pre ++ lines) jiffiesPerSecond = init_bootTime lines jiffiesPerSecond.
Proof.
  induction 1 as [|line pre (s & junk & -> & Hs & Hne) _ IH]; [reflexivity|].
  cbn [app init_bootTime].
  destruct (safeStrNCmp_terminated s junk (lit "btime ") [] 6 Hs) as (r & Hr & Hiff).
  { apply nonul_check. reflexivity. }
  unfold cstr. rewrite Hr.
  destruct (Z.eqb_spec r 0) as [E|E]; [|exact IH].
  apply Hiff in E. contradiction.
Qed.

Lemma init_bootTime_btime ds c r post jiffiesPerSecond :
  digits ds -> safeIsDigit c = false ->
  init_bootTime ((lit "btime " ++ ds ++ c :: r) :: post) jiffiesPerSecond
  = Some (if 0 <? (dec_value ds * jiffiesPerSecond) mod 2 ^ 64
          then Some ((dec_value ds * jiffiesPerSecond) mod 2 ^ 64) else None).
Proof.
  intros Hds Hc. cbn [init_bootTime].
  change (safeStrNCmp (lit "btime " ++ ds ++ c :: r) (cstr (lit "btime ")) 6)
    with (Some 0).
  change (drop 6 (lit "btime " ++ ds ++ c :: r)) with (ds ++ c :: r).
  rewrite stringToUint64_run by assumption.
  rewrite Z.eqb_refl. unfold u64. rewrite Zmult_mod_idemp_l.
  destruct (0 <? _); reflexivity.
Qed.

Lemma init_bootTime_none lines jiffiesPerSecond :
  Forall not_btime lines -> init_bootTime lines jiffiesPerSecond = Some (Some 0).
Proof.
  intros H. rewrite <- (app_nil_r lines). now rewrite init_bootTime_skip.
Qed.

Lemma init_bootTime_range lines jiffiesPerSecond b :
  init_bootTime lines jiffiesPerSecond = Some (Some b) -> 0 <= b < 2 ^ 64.
Proof.
  induction lines as [|line lines IH]; cbn [init_bootTime]; intros H.
  - injection H as <-. lia.
  - destruct (safeStrNCmp line _ 6) as [cmp|]; [|discriminate].
    destruct (cmp =? 0); [|auto].
    destruct (stringToUint64 _) as [v|]; [|discriminate].
    destruct (0 <? u64 (v * jiffiesPerSecond)); [|discriminate].
    injection H as <-. apply u64_range.
Qed.

Lemma to_int_range z : - 2 ^ 31 <= to_int z < 2 ^ 31.
Proof. unfold to_int. pose proof (Z.mod_pos_bound (z + 2 ^ 31) (2 ^ 32)). lia. Qed.

Lemma to_int_small z : - 2 ^ 31 <= z < 2 ^ 31 -> to_int z = z.
Proof. intros Hz. unfold to_int. rewrite Z.mod_small; lia. Qed.

Lemma to_int_congruent z : (to_int z - z) mod 2 ^ 32 = 0.
Proof.
  unfold to_int. rewrite (Z.mod_eq (z + 2 ^ 31) (2 ^ 32)) by lia.
  replace (z + 2 ^ 31 - 2 ^ 32 * ((z + 2 ^ 31) / 2 ^ 32) - 2 ^ 31 - z)
    with (- ((z + 2 ^ 31) / 2 ^ 32) * 2 ^ 32) by lia.
  apply Z_mod_mult.
Qed.

(** X10: [_init] takes the boot time from the first line of /proc/stat that
    starts with [btime ]: the run of digits behind it times the clock tick
    rate, modulo [2^64]; later lines are not looked at.  The clock tick
    rate is what [sysconf] returned as the [int] it is stored in: the value
    within the range of [int] that differs from it by a multiple of [2^32],
    so the value itself when that is within the range.  When the rate is at
    least one, the product is positive and the rest of the set-up succeeds,
    the product is the value of [g_bootTimeInJiffies]. *)
Theorem _init_boot_time_from_first_btime_line
    (ld : Loader) (re rp : RealExec) (name : list Z)
    (pre post : list (list Z)) (ds : list Z) (c : Z) (r : list Z) :
  ld_execve ld = Some re -> ld_execvpe ld = Some rp ->
  init_logFileName (ld_getenv ld) = Some name ->
  1 <= to_int (ld_clk_tck ld) ->
  ld_proc_stat ld = Some (pre ++ (lit "btime " ++ ds ++ c :: r) :: post) ->
  Forall not_btime pre -> digits ds -> safeIsDigit c = false ->
  0 < (dec_value ds * to_int (ld_clk_tck ld)) mod 2 ^ 64 ->
  _init ld
  = Some (Some {| real_execve := re; real_execvpe := rp; g_logFileName := name;
                  g_bootTimeInJiffies
                  := (dec_value ds * to_int (ld_clk_tck ld)) mod 2 ^ 64 |})
  /\ - 2 ^ 31 <= to_int (ld_clk_tck ld) < 2 ^ 31
  /\ (to_int (ld_clk_tck ld) - ld_clk_tck ld) mod 2 ^ 32 = 0
  /\ (- 2 ^ 31 <= ld_clk_tck ld < 2 ^ 31 -> to_int (ld_clk_tck ld) = ld_clk_tck ld).
Proof.
  intros He Hp Hname Hclk Hstat Hpre Hds Hc Hpos.
  split; [|split; [apply to_int_range |
                   split; [apply to_int_congruent | apply to_int_small]]].
  unfold _init.
  rewrite He, Hp, Hname, Hstat. cbv zeta.
  destruct (Z.leb_spec 1 (to_int (ld_clk_tck ld))); [|lia].
  rewrite init_bootTime_skip by assumption.
  rewrite init_bootTime_btime by assumption.
  apply Z.ltb_lt in Hpos. rewrite Hpos. cbv beta iota. rewrite Hpos.
  reflexivity.
Qed.

Lemma sample_cpu_line_not_btime : not_btime (cstr (lit "cpu  1 2 3 4" ++ [ch_nl])).
Proof.
  exists (lit "cpu  1 2 3 4" ++ [ch_nl]), []. split; [reflexivity|].
  split; [apply nonul_check; reflexivity|discriminate].
Qed.

Lemma _init_boot_time_from_first_btime_line_witness :
  ld_clk_tck sample_wide_loader = 2 ^ 32 + 100
  /\ _init sample_wide_loader
     = Some (Some {| real_execve := sample_real; real_execvpe := sample_real;
                     g_logFileName := lit "/tmp/t.log" ++ replicate 1014 0;
                     g_bootTimeInJiffies := 170000000000 |})
  /\ _init sample_enabled_loader = Some (Some sample_enabled_globals).
Proof.
  split; [reflexivity|]. split.
  - refine (proj1 (_init_boot_time_from_first_btime_line sample_wide_loader
                     sample_real sample_real (lit "/tmp/t.log" ++ replicate 1014 0)
                     [cstr (lit "cpu  1 2 3 4" ++ [ch_nl])]
                     [cstr (lit "btime 5" ++ [ch_nl])]
                     (lit "1700000000") ch_nl [NUL]
                     eq_refl eq_refl eq_refl _ eq_refl _ _ eq_refl eq_refl)).
    + vm_compute. discriminate.
    + apply Forall_cons_2; [apply sample_cpu_line_not_btime|constructor].
    + apply digits_check. reflexivity.
  - refine (proj1 (_init_boot_time_from_first_btime_line sample_enabled_loader
                     sample_real sample_real (lit "/tmp/t.log" ++ replicate 1014 0)
                     [cstr (lit "cpu  1 2 3 4" ++ [ch_nl])]
                     [cstr (lit "btime 5" ++ [ch_nl])]
                     (lit "1700000000") ch_nl [NUL]
                     eq_refl eq_refl eq_refl _ eq_refl _ _ eq_refl eq_refl)).
    + vm_compute. discriminate.
    + apply Forall_cons_2; [apply sample_cpu_line_not_btime|constructor].
    + apply digits_check. reflexivity.
Defined.

(** A clock tick rate of [2^32 + 100] is stored as 100. *)
Example _init_clock_rate_stored_in_int :
  to_int (ld_clk_tck sample_wide_loader) = 100
  /\ option_map (option_map g_bootTimeInJiffies) (_init sample_wide_loader)
     = Some (Some 170000000000).
Proof. vm_compute. split; reflexivity. Qed.

(** X11: [_init] aborts when either symbol is missing, and, past the copy
    of the log file name, when the clock tick rate, as the [int] it is
    stored in, is below one, when /proc/stat cannot be read, when none of
    its lines starts with [btime ], and when the first such line gives a
    boot time of zero ticks. *)
Theorem _init_aborts (ld : Loader) (name : list Z) :
  init_logFileName (ld_getenv ld) = Some name ->
  (ld_execve ld = None \/ ld_execvpe ld = None -> _init ld = Some None)
  /\ (to_int (ld_clk_tck ld) < 1 -> _init ld = Some None)
  /\ (ld_proc_stat ld = None -> _init ld = Some None)
  /\ (forall lines, ld_proc_stat ld = Some lines -> Forall not_btime lines ->
        _init ld = Some None)
  /\ (forall pre ds c r post,
        ld_proc_stat ld = Some (pre ++ (lit "btime " ++ ds ++ c :: r) :: post) ->
        Forall not_btime pre -> digits ds -> safeIsDigit c = false ->
        (dec_value ds * to_int (ld_clk_tck ld)) mod 2 ^ 64 = 0 ->
        _init ld = Some None).
Proof.
  intros Hname. unfold _init. rewrite Hname. cbv zeta.
  destruct (ld_execve ld) as [re|], (ld_execvpe ld) as [rp|];
    repeat split; try reflexivity; try (intros [?|?]; discriminate).
  - intros Hclk. destruct (Z.leb_spec 1 (to_int (ld_clk_tck ld))); [lia|reflexivity].
  - intros ->. destruct (1 <=? to_int (ld_clk_tck ld)); reflexivity.
  - intros lines -> Hlines. destruct (1 <=? to_int (ld_clk_tck ld)); [|reflexivity].
    now rewrite init_bootTime_none.
  - intros pre ds c r post -> Hpre Hds Hc Hzero.
    destruct (1 <=? to_int (ld_clk_tck ld)); [|reflexivity].
    rewrite init_bootTime_skip by assumption.
    rewrite init_bootTime_btime by assumption.
    rewrite Hzero. reflexivity.
Qed.

Lemma _init_aborts_witness :
  _init {| ld_execve := Some sample_real; ld_execvpe := Some sample_real;
           ld_getenv := PNull; ld_clk_tck := 100;
           ld_proc_stat := Some [cstr (lit "cpu  1 2 3 4" ++ [ch_nl]);
                                 cstr (lit "btime 0" ++ [ch_nl])] |}
  = Some None.
Proof.
  refine (proj2 (proj2 (proj2 (proj2
            (_init_aborts
               {| ld_execve := Some sample_real; ld_execvpe := Some sample_real;
                  ld_getenv := PNull; ld_clk_tck := 100;
                  ld_proc_stat := Some [cstr (lit "cpu  1 2 3 4" ++ [ch_nl]);
                                        cstr (lit "btime 0" ++ [ch_nl])] |}
               (replicate 1024 0) eq_refl))))
            [cstr (lit "cpu  1 2 3 4" ++ [ch_nl])] (lit "0") ch_nl [NUL] []
            eq_refl _ _ eq_refl eq_refl).
  - apply Forall_cons_2; [apply sample_cpu_line_not_btime|constructor].
  - apply digits_check. reflexivity.
Defined.

Lemma init_logFileName_shape logFileVar name :
  init_logFileName logFileVar = Some name ->
  length name = 1024%nat /\ exists s rest, name = s ++ NUL :: rest /\ nonul s.
Proof.
  unfold init_logFileName, sizeof_g_logFileName.
  assert (Hzero : length (replicate 1024 0) = 1024%nat
                  /\ exists s rest, replicate 1024 0 = s ++ NUL :: rest /\ nonul s).
  { split; [now rewrite length_replicate|].
    exists [], (replicate 1023 0). split; [reflexivity|constructor]. }
  assert (Hlen : length (replicate 1024 0) = 1024%nat) by apply Hzero.
  revert Hzero Hlen. generalize (replicate 1024 0). intros zeros Hzero Hlen Hname.
  destruct logFileVar as [|bytes|]; [| |discriminate].
  - injection Hname as <-. exact Hzero.
  - destruct (safeStrLen bytes) as [n|] eqn:Hn; [|discriminate].
    destruct (Z.ltb_spec (Z.of_nat n) 1024) as [Hlt|].
    + apply safeStrLen_inv in Hn as (s & rest & -> & Hs & <-).
      rewrite safeStrCpy_cstr in Hname by (assumption || lia).
      injection Hname as <-. split.
      * rewrite length_app. cbn [length]. rewrite length_drop. lia.
      * eexists _, _. split; [reflexivity|assumption].
    + injection Hname as <-. exact Hzero.
Qed.

(** X12: whenever [_init] completes, the boot time is positive and below
    [2^64], the log file name array holds a terminated string within its
    1024 bytes, both real implementations are resolved, and the clock tick
    rate, as the [int] it is stored in, is at least one. *)
Theorem _init_establishes_globals (ld : Loader) (g : Globals) :
  _init ld = Some (Some g) ->
  0 < g_bootTimeInJiffies g < 2 ^ 64
  /\ length (g_logFileName g) = 1024%nat
  /\ (exists s rest, g_logFileName g = s ++ NUL :: rest /\ nonul s
                     /\ string_at (g_logFileName g) = Some s)
  /\ ld_execve ld = Some (real_execve g)
  /\ ld_execvpe ld = Some (real_execvpe g)
  /\ 1 <= to_int (ld_clk_tck ld) < 2 ^ 31.
Proof.
  intros H. destruct (_init_globals ld g H) as (He & Hp & Hname).
  unfold _init in H. rewrite He, Hp, Hname in H. cbv zeta in H.
  pose proof (to_int_range (ld_clk_tck ld)) as Hrange.
  destruct (Z.leb_spec 1 (to_int (ld_clk_tck ld))) as [Hclk|]; [|discriminate].
  destruct (ld_proc_stat ld) as [lines|]; [|discriminate].
  destruct (init_bootTime lines (to_int (ld_clk_tck ld))) as [[b|]|] eqn:Hb;
    try discriminate.
  destruct (Z.ltb_spec 0 b) as [Hpos|]; [|discriminate].
  injection H as <-. cbn [g_bootTimeInJiffies g_logFileName real_execve real_execvpe] in *.
  apply init_bootTime_range in Hb.
  split; [lia|].
  destruct (init_logFileName_shape _ _ Hname) as (Hlen & s & rest & Heq & Hs).
  split; [exact Hlen|]. split.
  - exists s, rest. split; [exact Heq|]. split; [exact Hs|].
    rewrite Heq. now apply string_at_cstr.
  - split; [exact He|]. split; [exact Hp | lia].
Qed.

Lemma _init_establishes_globals_witness :
  0 < g_bootTimeInJiffies sample_enabled_globals < 2 ^ 64
  /\ length (g_logFileName sample_enabled_globals) = 1024%nat
  /\ (exists s rest, g_logFileName sample_enabled_globals = s ++ NUL :: rest /\ nonul s
                     /\ string_at (g_logFileName sample_enabled_globals) = Some s)
  /\ ld_execve sample_enabled_loader = Some (real_execve sample_enabled_globals)
  /\ ld_execvpe sample_enabled_loader = Some (real_execvpe sample_enabled_globals)
  /\ 1 <= to_int (ld_clk_tck sample_enabled_loader) < 2 ^ 31.
Proof.
  apply (_init_establishes_globals sample_enabled_loader sample_enabled_globals).
  vm_compute. reflexivity.
Defined.

(** * Failures of the system calls *)

Lemma EINTR_LOOP_fails k e more errno :
  e <> EINTR ->
  EINTR_LOOP (replicate k (Fails EINTR) ++ Fails e :: more) errno = (more, e, Some e).
Proof.
  intros He. revert errno. induction k as [|k IH]; intros errno; simpl.
  - destruct (Z.eqb_spec e EINTR); [contradiction|reflexivity].
  - change (EINTR =? EINTR) with true. cbv iota. apply IH.
Qed.

(** X13: [openLogFile] retries [open] and the lock request while they are
    interrupted.  When [open] fails otherwise it aborts with no descriptor
    opened; when the lock request fails otherwise it aborts with the file
    opened, neither locked nor closed.  [errno] is that of the failed
    call. *)
Theorem openLogFile_failures
    (h : Host) (name rest : list Z) (w : World) (k : nat) (e : Z)
    (more : list fault) :
  nonul name -> e <> EINTR ->
  (w_open_faults w = replicate k (Fails EINTR) ++ Fails e :: more ->
   exists w',
     openLogFile h (name ++ NUL :: rest) w = Abort w'
     /\ w_events w' = w_events w /\ w_errno w' = e /\ w_open_faults w' = more)
  /\ (Forall (fun f => f = Fails EINTR) (w_open_faults w) -> h_log_fd h <> -1 ->
      w_lock_faults w = replicate k (Fails EINTR) ++ Fails e :: more ->
      exists w',
        openLogFile h (name ++ NUL :: rest) w = Abort w'
        /\ w_events w' = w_events w ++ [EvOpen name (h_log_fd h)]
        /\ w_errno w' = e /\ w_lock_faults w' = more).
Proof.
  intros Hname He. split.
  - intros Hopen. unfold openLogFile, open_append, lock_wait, bind.
    rewrite string_at_cstr by assumption. cbn [defined ret].
    cbn [set_errno w_open_faults w_errno]. rewrite Hopen.
    rewrite EINTR_LOOP_fails by assumption.
    change (-1 =? -1) with true. cbn [safeAssert negb abort].
    eexists. split; [reflexivity|]. repeat split.
  - intros Hopen Hfd Hlock. unfold openLogFile, open_append, lock_wait, bind.
    rewrite string_at_cstr by assumption. cbn [defined ret].
    cbn [set_errno w_open_faults w_errno].
    destruct (EINTR_LOOP_interrupted (w_open_faults w) 0 Hopen) as (e1 & ->).
    destruct (Z.eqb_spec (h_log_fd h) (-1)) as [Hbad|_]; [contradiction|].
    cbn [safeAssert negb ret emit set_errno set_open_faults w_lock_faults w_errno].
    rewrite Hlock. rewrite EINTR_LOOP_fails by assumption.
    change (-1 =? 0) with false. cbn [safeAssert abort].
    eexists. split; [reflexivity|]. repeat split.
Qed.

Lemma openLogFile_failures_witness :
  let w := {| w_open_faults := [Fails EINTR; Fails EINTR; Fails 13; Fails 2];
              w_lock_faults := []; w_write_faults := []; w_errno := 0;
              w_events := [] |} in
  exists w',
    openLogFile sample_host (lit "/tmp/t.log" ++ NUL :: []) w = Abort w'
    /\ w_events w' = w_events w /\ w_errno w' = 13 /\ w_open_faults w' = [Fails 2].
Proof.
  refine (proj1 (openLogFile_failures sample_host (lit "/tmp/t.log") []
                   {| w_open_faults := [Fails EINTR; Fails EINTR; Fails 13; Fails 2];
                      w_lock_faults := []; w_write_faults := []; w_errno := 0;
                      w_events := [] |} 2 13 [Fails 2] _ _) eq_refl).
  - apply nonul_check. reflexivity.
  - discriminate.
Defined.

Lemma write_loop_short k n more fd data w :
  w_write_faults w = replicate k (WriteFails EINTR) ++ WriteShort n :: more ->
  exists w',
    write_loop (w_write_faults w) fd data w = (Z.of_nat (length (take n data)), w')
    /\ w_events w' = w_events w ++ [EvWrite fd (take n data)]
    /\ w_write_faults w' = more.
Proof.
  intros ->. revert w. induction k as [|k IH]; intros w; simpl.
  - eexists. repeat split.
  - change (EINTR =? EINTR) with true. cbv iota.
    destruct (IH (set_errno EINTR w)) as (w' & -> & Hev & Hf).
    exists w'. repeat split; assumption.
Qed.

Lemma write_loop_error k e more fd data w :
  e <> EINTR ->
  w_write_faults w = replicate k (WriteFails EINTR) ++ WriteFails e :: more ->
  exists w',
    write_loop (w_write_faults w) fd data w = (-1, w')
    /\ w_events w' = w_events w /\ w_errno w' = e /\ w_write_faults w' = more.
Proof.
  intros He ->. revert w. induction k as [|k IH]; intros w; simpl.
  - destruct (Z.eqb_spec e EINTR); [contradiction|]. eexists. repeat split.
  - change (EINTR =? EINTR) with true. cbv iota.
    destruct (IH (set_errno EINTR w)) as (w' & -> & Hev & Herr & Hf).
    exists w'. repeat split; assumption.
Qed.

(** X14: [flushLogFile] retries [write] while it is interrupted.  A [write]
    that takes fewer bytes than are buffered leaves those first bytes in
    the file and the process aborts; a [write] that fails otherwise leaves
    the file as it was and the process aborts, [errno] being that of the
    call. *)
Theorem flushLogFile_failures
    (logFile : LogFile) (w : World) (k : nat) (more : list write_fault) :
  lf_ok logFile ->
  (forall n,
     w_write_faults w = replicate k (WriteFails EINTR) ++ WriteShort n :: more ->
     Z.of_nat n < bufCount logFile ->
     exists w',
       flushLogFile logFile w = Abort w'
       /\ w_events w' = w_events w ++ [EvWrite (fd logFile) (take n (buffered logFile))]
       /\ length (take n (buffered logFile)) = n
       /\ w_write_faults w' = more)
  /\ (forall e,
        w_write_faults w = replicate k (WriteFails EINTR) ++ WriteFails e :: more ->
        e <> EINTR ->
        exists w',
          flushLogFile logFile w = Abort w'
          /\ w_events w' = w_events w /\ w_errno w' = e /\ w_write_faults w' = more).
Proof.
  intros Hok. pose proof Hok as [Hlen Hcnt]. pose proof (buffered_length _ Hok) as Hb.
  split.
  - intros n Hfaults Hn. unfold flushLogFile.
    replace ((0 <=? bufCount logFile) && (bufCount logFile <=? sizeof_buf))
      with true by (symmetry; apply andb_true_iff; lia).
    fold (buffered logFile).
    destruct (write_loop_short k n more (fd logFile) (buffered logFile) w Hfaults)
      as (w' & -> & Hev & Hf).
    assert (Hshort : length (take n (buffered logFile)) = n)
      by (rewrite length_take; lia).
    rewrite Hshort. unfold bind, safeAssert.
    destruct (Z.eqb_spec (Z.of_nat n) (bufCount logFile)); [lia|].
    exists w'. repeat split; assumption.
  - intros e Hfaults He. unfold flushLogFile.
    replace ((0 <=? bufCount logFile) && (bufCount logFile <=? sizeof_buf))
      with true by (symmetry; apply andb_true_iff; lia).
    destruct (write_loop_error k e more (fd logFile)
                (take (Z.to_nat (bufCount logFile)) (buf logFile)) w He Hfaults)
      as (w' & -> & Hev & Herr & Hf).
    unfold bind, safeAssert.
    destruct (Z.eqb_spec (-1) (bufCount logFile)); [lia|].
    exists w'. repeat split; assumption.
Qed.

Lemma flushLogFile_failures_witness :
  let logFile := fst sample_session_end in
  let w := {| w_open_faults := []; w_lock_faults := [];
              w_write_faults := [WriteFails EINTR; WriteShort 100];
              w_errno := 0; w_events := [] |} in
  exists w',
    flushLogFile logFile w = Abort w'
    /\ w_events w' = w_events w ++ [EvWrite (fd logFile) (take 100 (buffered logFile))]
    /\ length (take 100 (buffered logFile)) = 100%nat
    /\ w_write_faults w' = [].
Proof.
  refine (proj1 (flushLogFile_failures (fst sample_session_end)
                   {| w_open_faults := []; w_lock_faults := [];
                      w_write_faults := [WriteFails EINTR; WriteShort 100];
                      w_errno := 0; w_events := [] |} 1 [] _) 100%nat eq_refl _).
  - split; [reflexivity|]. vm_compute. split; discriminate.
  - vm_compute. reflexivity.
Defined.

(** X15: [closeLogFile] first writes what is buffered; when the unlock
    request then fails the process aborts with that data in the file and
    the descriptor neither unlocked nor closed. *)
Theorem closeLogFile_unlock_failure (h : Host) (logFile : LogFile) (w : World) :
  ready logFile w -> h_unlock_ok h = false ->
  exists w',
    closeLogFile h logFile w = Abort w'
    /\ w_events w' = w_events w ++ [EvWrite (fd logFile) (buffered logFile)].
Proof.
  intros Hr Hunlock. unfold closeLogFile, bind.
  destruct (flushLogFile_quiet logFile w Hr) as (w1 & -> & Hev & _).
  rewrite Hunlock. cbn [safeAssert abort]. exists w1. split; [reflexivity|exact Hev].
Qed.

Lemma closeLogFile_unlock_failure_witness :
  let h := {| h_ppid := 100; h_pid := 200; h_stat := fun _ => StatNoOpen;
              h_readlink := fun _ => None; h_log_fd := 3; h_environ := PNull;
              h_unlock_ok := false; h_stack := fun _ => 170 |} in
  exists w',
    closeLogFile h (fst sample_session_end) sample_world = Abort w'
    /\ w_events w'
       = w_events sample_world
           ++ [EvWrite (fd (fst sample_session_end)) (buffered (fst sample_session_end))].
Proof.
  apply (closeLogFile_unlock_failure
           {| h_ppid := 100; h_pid := 200; h_stat := fun _ => StatNoOpen;
              h_readlink := fun _ => None; h_log_fd := 3; h_environ := PNull;
              h_unlock_ok := false; h_stack := fun _ => 170 |} (fst sample_session_end) sample_world).
  - split; [split; [reflexivity|vm_compute; split; discriminate]|].
    apply Forall_cons_2; [reflexivity|constructor].
  - reflexivity.
Defined.

(** * The variadic wrappers *)





(** * The size of the writes *)

Lemma bind_Ok {A B} (m : M A) (k : A -> M B) w b w' :
  (do x <- m; k x) w = Ok b w' -> exists a w1, m w = Ok a w1 /\ k a w1 = Ok b w'.
Proof.
  unfold bind. destruct (m w) as [a w1| | |]; try discriminate.
  intros H. now exists a, w1.
Qed.

Lemma full_writes_refl logFile w : lf_ok logFile -> full_writes logFile w logFile w.
Proof.
  intros Hok. split; [exact Hok|]. split; [reflexivity|].
  exists []. split; [simpl; now rewrite app_nil_r | constructor].
Qed.

Lemma full_writes_trans lf0 w0 lf1 w1 lf2 w2 :
  full_writes lf0 w0 lf1 w1 -> full_writes lf1 w1 lf2 w2 -> full_writes lf0 w0 lf2 w2.
Proof.
  intros (_ & Hfd1 & c1 & Hev1 & Hc1) (Hok & Hfd2 & c2 & Hev2 & Hc2).
  split; [exact Hok|]. split; [congruence|].
  exists (c1 ++ c2). split.
  - rewrite Hev2, Hev1, Hfd1, map_app, app_assoc. reflexivity.
  - apply Forall_app. now split.
Qed.

Lemma paced_ret logFile : lf_ok logFile -> paced (ret logFile) logFile.
Proof. intros Hok w lf' w' H. inversion H; subst. now apply full_writes_refl. Qed.

Lemma paced_abort logFile : paced abort logFile.
Proof. intros w lf' w' H. discriminate H. Qed.

Lemma paced_undef logFile : paced undef logFile.
Proof. intros w lf' w' H. discriminate H. Qed.

Lemma paced_bind (m : M LogFile) (k : LogFile -> M LogFile) logFile :
  paced m logFile -> (forall lf1, lf_ok lf1 -> paced (k lf1) lf1) ->
  paced (do x <- m; k x) logFile.
Proof.
  intros Hm Hk w lf' w' H. apply bind_Ok in H as (lf1 & w1 & H1 & H2).
  apply Hm in H1. eapply full_writes_trans; [exact H1|].
  apply Hk; [apply H1 | exact H2].
Qed.

Lemma paced_inert {A} (m : M A) (k : A -> M LogFile) logFile :
  inert m -> (forall a, paced (k a) logFile) -> paced (do x <- m; k x) logFile.
Proof.
  intros Hm Hk w lf' w' H. apply bind_Ok in H as (a & w1 & H1 & H2).
  apply Hm in H1. subst w1. now apply (Hk a).
Qed.

Lemma inert_defined {A} (o : option A) : inert (defined o).
Proof. intros w a w' H. destruct o; [now inversion H | discriminate H]. Qed.

Lemma inert_safeAssert condition : inert (safeAssert condition).
Proof. intros w a w' H. destruct condition; [now inversion H | discriminate H]. Qed.

Lemma inert_advance_fields n p : inert (advance_fields n p).
Proof.
  revert p. induction n as [|n IH]; intros p w a w' H; simpl in H.
  - now inversion H.
  - apply bind_Ok in H as ([q|] & w1 & H1 & H2); [|discriminate H2].
    apply inert_defined in H1. subst w1. now apply IH in H2.
Qed.

Lemma writeChar_Ok logFile ch w logFile' w' :
  lf_ok logFile -> writeChar logFile ch w = Ok logFile' w' ->
  full_writes logFile w logFile' w' /\ 1 <= bufCount logFile'.
Proof.
  intros Hok H. pose proof Hok as [Hlen Hcnt]. unfold writeChar in H.
  apply bind_Ok in H as (lf1 & w1 & H1 & H2).
  assert (Hstep : full_writes logFile w lf1 w1 /\ 0 <= bufCount lf1).
  { destruct (Z.eqb_spec (bufCount logFile) sizeof_buf) as [Hfull|Hroom].
    - apply flushLogFile_Ok in H1 as [-> Hev]. split; [|simpl; lia].
      split; [split; [exact Hlen | unfold sizeof_buf; simpl; lia]|].
      split; [reflexivity|].
      exists [buffered logFile]. split; [now apply Hev|].
      apply Forall_cons_2; [|constructor].
      pose proof (buffered_length _ Hok) as Hb. unfold sizeof_buf in *. lia.
    - inversion H1; subst. split; [now apply full_writes_refl | lia]. }
  destruct Hstep as [Hstep Hpos].
  destruct ((0 <=? bufCount lf1) && (bufCount lf1 <? sizeof_buf)) eqn:Hin;
    [|discriminate H2].
  apply andb_true_iff in Hin as [Hin1 Hin2]. inversion H2; subst. clear H2.
  destruct Hstep as ([Hlen1 Hcnt1] & Hfd & chunks & Hev & Hchunks).
  split; [|simpl; lia].
  split; [split; cbn [buf bufCount];
          [now rewrite length_insert | unfold sizeof_buf in *; lia]|].
  split; [exact Hfd|]. now exists chunks.
Qed.

Lemma paced_writeChar logFile ch : lf_ok logFile -> paced (writeChar logFile ch) logFile.
Proof. intros Hok w lf' w' H. now apply (writeChar_Ok logFile ch w). Qed.

Lemma paced_writeString text logFile :
  lf_ok logFile -> paced (writeString logFile text) logFile.
Proof.
  revert logFile. induction text as [|ch text IH]; intros logFile Hok; simpl.
  - apply paced_undef.
  - destruct (ch =? NUL); [now apply paced_ret|].
    apply paced_bind; [now apply paced_writeChar | exact IH].
Qed.

Lemma paced_writeEscapedString_loop text i logFile :
  lf_ok logFile -> paced (writeEscapedString_loop logFile text i) logFile.
Proof.
  revert logFile i. induction text as [|ch text IH]; intros logFile i Hok;
    cbn [writeEscapedString_loop].
  - apply paced_undef.
  - destruct (ch =? NUL); [now apply paced_ret|].
    apply paced_bind.
    { destruct ((ch =? ch_bslash) || (ch =? ch_quote));
        [now apply paced_writeChar | now apply paced_ret]. }
    intros lf1 Hok1. apply paced_bind; [now apply paced_writeChar|].
    intros lf2 Hok2. destruct (i <? INT_MAX); [now apply IH | apply paced_undef].
Qed.

Lemma paced_writeEscapedString text logFile :
  lf_ok logFile -> paced (writeEscapedString logFile text) logFile.
Proof.
  intros Hok. unfold writeEscapedString.
  apply paced_inert; [apply inert_defined|]. intros needsQuotes.
  apply paced_bind.
  { destruct needsQuotes; [now apply paced_writeChar | now apply paced_ret]. }
  intros lf1 Hok1.
  apply paced_bind; [now apply paced_writeEscapedString_loop|].
  intros lf2 Hok2.
  destruct needsQuotes; [now apply paced_writeChar | now apply paced_ret].
Qed.

Lemma attemptWriteSymLinkTarget_Ok h logFile symLinkTarget size w r w' :
  lf_ok logFile ->
  attemptWriteSymLinkTarget h logFile symLinkTarget size w = Ok r w' ->
  full_writes logFile w (snd r) w'.
Proof.
  intros Hok H. unfold attemptWriteSymLinkTarget in H.
  apply bind_Ok in H as (path & w0 & H0 & H).
  apply inert_defined in H0. subst w0.
  destruct (h_readlink h path) as [target|]; [|discriminate H].
  destruct (_ <? size).
  - apply bind_Ok in H as (lf1 & w1 & H1 & H).
    apply bind_Ok in H as (lf2 & w2 & H2 & H).
    inversion H; subst. cbn [snd].
    apply paced_writeEscapedString in H1; [|exact Hok].
    eapply full_writes_trans; [exact H1|].
    apply paced_writeChar in H2; [exact H2 | apply H1].
  - apply bind_Ok in H as (u & w1 & H1 & H).
    apply inert_safeAssert in H1. inversion H; subst. cbn [snd].
    now apply full_writes_refl.
Qed.

Lemma paced_writeSymLinkTarget_loop fuel h symLinkTarget bufSize logFile :
  lf_ok logFile ->
  paced (writeSymLinkTarget_loop fuel h logFile symLinkTarget bufSize) logFile.
Proof.
  revert bufSize logFile.
  induction fuel as [|fuel IH]; intros bufSize logFile Hok; simpl;
    destruct (bufSize <? 1024 * 1024);
    try (apply paced_inert; [apply inert_defined | intros _; apply paced_abort]).
  - intros w lf' w' H. discriminate H.
  - intros w lf' w' H. apply bind_Ok in H as (r & w1 & H1 & H).
    apply attemptWriteSymLinkTarget_Ok in H1; [|exact Hok].
    eapply full_writes_trans; [exact H1|].
    destruct (fst r).
    + inversion H; subst. apply full_writes_refl. apply H1.
    + eapply IH; [apply H1 | exact H].
Qed.

Lemma paced_writePid h boot pid logFile :
  lf_ok logFile -> paced (writePid h boot logFile pid) logFile.
Proof.
  intros Hok. unfold writePid.
  apply paced_inert; [apply inert_defined|]. intros pidString.
  apply paced_bind; [now apply paced_writeString|]. intros lf1 Hok1.
  apply paced_bind; [now apply paced_writeChar|]. intros lf2 Hok2.
  apply paced_inert; [apply inert_defined|]. intros procStatPath.
  apply paced_inert; [apply inert_defined|]. intros path.
  destruct (h_stat h path); try apply paced_abort.
  apply paced_inert; [apply inert_defined|]. intros [p|]; [|apply paced_abort].
  apply paced_inert; [apply inert_advance_fields|]. intros p'.
  apply paced_inert; [apply inert_defined|]. intros pEnd.
  apply paced_inert; [apply inert_safeAssert|]. intros _.
  apply paced_inert; [apply inert_defined|]. intros ticks.
  apply paced_inert; [apply inert_defined|]. intros startTime.
  apply paced_bind; [now apply paced_writeString|]. intros lf3 Hok3.
  now apply paced_writeChar.
Qed.

Lemma paced_write_arguments argv i logFile :
  lf_ok logFile -> paced (write_arguments logFile i argv) logFile.
Proof.
  revert i logFile. induction argv as [|a argv IH]; intros i logFile Hok;
    cbn [write_arguments].
  - apply paced_undef.
  - destruct (ptr_is a hiddenNull); [now apply paced_ret|].
    apply paced_bind.
    { destruct (0 <? i); [now apply paced_writeChar | now apply paced_ret]. }
    intros lf1 Hok1.
    apply paced_inert; [apply inert_defined|]. intros text.
    apply paced_bind; [now apply paced_writeEscapedString|].
    intros lf2 Hok2. destruct (i <? INT_MAX); [now apply IH | apply paced_undef].
Qed.

Lemma paced_write_argument_line argv logFile :
  lf_ok logFile -> paced (write_argument_line logFile argv) logFile.
Proof.
  intros Hok. unfold write_argument_line. apply paced_bind.
  - destruct (negb (ptr_is argv hiddenNull)); [|now apply paced_ret].
    destruct argv; try apply paced_undef. now apply paced_write_arguments.
  - intros lf1 Hok1. now apply paced_writeChar.
Qed.

Lemma closing_bind (m : M LogFile) (k : LogFile -> M unit) logFile :
  paced m logFile -> (forall lf1, lf_ok lf1 -> closing (k lf1) lf1) ->
  closing (do x <- m; k x) logFile.
Proof.
  intros Hm Hk w w' H. apply bind_Ok in H as (lf1 & w1 & H1 & H2).
  apply Hm in H1 as (Hok1 & Hfd & c1 & Hev1 & Hc1).
  apply Hk in H2 as (c2 & final & Hev2 & Hc2 & Hfinal); [|exact Hok1].
  exists (c1 ++ c2), final. split; [|split; [apply Forall_app; now split | exact Hfinal]].
  rewrite Hev2, Hev1, Hfd, map_app, <- !app_assoc. reflexivity.
Qed.

Lemma closing_inert {A} (m : M A) (k : A -> M unit) logFile :
  inert m -> (forall a, closing (k a) logFile) -> closing (do x <- m; k x) logFile.
Proof.
  intros Hm Hk w w' H. apply bind_Ok in H as (a & w1 & H1 & H2).
  apply Hm in H1. subst w1. now apply (Hk a).
Qed.

Lemma closeLogFile_Ok h logFile w w' :
  lf_ok logFile -> closeLogFile h logFile w = Ok tt w' ->
  w_events w'
  = w_events w ++ [EvWrite (fd logFile) (buffered logFile);
                   EvUnlock (fd logFile); EvClose (fd logFile)].
Proof.
  intros Hok H. unfold closeLogFile in H.
  apply bind_Ok in H as (lf1 & w1 & H1 & H).
  apply flushLogFile_Ok in H1 as [-> Hev].
  apply bind_Ok in H as (u & w2 & H2 & H).
  apply inert_safeAssert in H2. subst w2.
  inversion H; subst. cbn [emit w_events fd].
  rewrite Hev by exact Hok. rewrite <- !app_assoc. reflexivity.
Qed.

Lemma closing_last_char h ch logFile :
  lf_ok logFile ->
  closing (do x <- writeChar logFile ch; closeLogFile h x) logFile.
Proof.
  intros Hok w w' H. apply bind_Ok in H as (lf1 & w1 & H1 & H2).
  apply writeChar_Ok in H1 as [(Hok1 & Hfd & chunks & Hev & Hchunks) Hpos];
    [|exact Hok].
  apply closeLogFile_Ok in H2; [|exact Hok1].
  exists chunks, (buffered lf1). split; [|split; [exact Hchunks|]].
  - rewrite H2, Hev, Hfd, <- !app_assoc. reflexivity.
  - pose proof (buffered_length _ Hok1) as Hb. destruct Hok1 as [_ Hcnt].
    unfold sizeof_buf in *. lia.
Qed.

Lemma openLogFile_Ok h filename w logFile w' :
  openLogFile h filename w = Ok logFile w' ->
  exists path,
    string_at filename = Some path
    /\ w_events w' = w_events w ++ [EvOpen path (fd logFile); EvLock (fd logFile)]
    /\ lf_ok logFile.
Proof.
  intros H. pose proof (openLogFile_lf_ok _ _ _ _ _ H) as [Hok _].
  unfold openLogFile, open_append, lock_wait in H.
  apply bind_Ok in H as (fd0 & w1 & H1 & H).
  apply bind_Ok in H1 as (path & w0 & H0 & H1).
  destruct (string_at filename) as [p|]; [|discriminate H0].
  inversion H0; subst. clear H0.
  exists path. split; [reflexivity|]. split; [|exact Hok].
  apply bind_Ok in H as (u & w2 & H2 & H).
  destruct (EINTR_LOOP _ _) as [[fs e] [x|]] in H1; inversion H1; subst; clear H1.
  { change (-1 =? -1) with true in H2. discriminate H2. }
  apply inert_safeAssert in H2. subst w2.
  apply bind_Ok in H as (lockRet & w3 & H3 & H).
  apply bind_Ok in H as (u2 & w4 & H4 & H).
  destruct (EINTR_LOOP _ _) as [[fs2 e2] [x|]] in H3; inversion H3; subst; clear H3.
  { discriminate H4. }
  apply inert_safeAssert in H4. subst w4.
  inversion H; subst. cbn [emit set_errno set_lock_faults set_open_faults w_events fd].
  now rewrite <- app_assoc.
Qed.

Lemma logExecution_Ok_events
    (h : Host) (g : Globals) (filename argv : ptr) (w w' : World)
    (c : Z) (tl : list Z) :
  g_logFileName g = c :: tl -> c <> NUL ->
  logExecution h g filename argv w = Ok tt w' ->
  exists path fd chunks final,
    string_at (g_logFileName g) = Some path
    /\ w_events w'
       = w_events w ++ [EvOpen path fd; EvLock fd] ++ List.map (EvWrite fd) chunks
           ++ [EvWrite fd final; EvUnlock fd; EvClose fd]
    /\ Forall (fun chunk => length chunk = 1024%nat) chunks
    /\ (1 <= length final <= 1024)%nat.
Proof.
  intros Hname Hc H. unfold logExecution in H. rewrite Hname in H.
  destruct (Z.eqb_spec c NUL); [contradiction|]. rewrite <- Hname in H.
  apply bind_Ok in H as (lf0 & w0 & H0 & H).
  apply openLogFile_Ok in H0 as (path & Hpath & Hev0 & Hok0).
  assert (Hclosing : closing
            (do logFile <- writeString lf0 (cstr (lit "exec" ++ [ch_nl]));
             do logFile <- writePid h (g_bootTimeInJiffies g) logFile (u32 (h_ppid h));
             do logFile <- writePid h (g_bootTimeInJiffies g) logFile (u32 (h_pid h));
             do logFile <- writeSymLinkTarget h logFile (cstr (lit "/proc/self/cwd"));
             do text <- defined (chars_of filename);
             do logFile <- writeEscapedString logFile text;
             do logFile <- writeChar logFile ch_nl;
             do logFile <- write_argument_line logFile argv;
             do logFile <- writeChar logFile ch_nl;
             closeLogFile h logFile) lf0).
  { apply closing_bind; [now apply paced_writeString|]. intros lf1 Hok1.
    apply closing_bind; [now apply paced_writePid|]. intros lf2 Hok2.
    apply closing_bind; [now apply paced_writePid|]. intros lf3 Hok3.
    apply closing_bind; [now apply paced_writeSymLinkTarget_loop|]. intros lf4 Hok4.
    apply closing_inert; [apply inert_defined|]. intros text.
    apply closing_bind; [now apply paced_writeEscapedString|]. intros lf5 Hok5.
    apply closing_bind; [now apply paced_writeChar|]. intros lf6 Hok6.
    apply closing_bind; [now apply paced_write_argument_line|]. intros lf7 Hok7.
    now apply closing_last_char. }
  apply Hclosing in H as (chunks & final & Hev & Hchunks & Hfinal).
  exists path, (fd lf0), chunks, final.
  split; [exact Hpath|]. split; [|split; assumption].
  rewrite Hev, Hev0, <- !app_assoc. reflexivity.
Qed.

(** X18: whenever [logExecution] completes with tracing on, what it did to
    the log file is: open, lock, some writes of exactly 1024 bytes, one
    last write of 1 to 1024 bytes, unlock, close, in this order and on
    one descriptor. *)
Theorem logExecution_writes_full_buffers
    (h : Host) (g : Globals) (filename argv : ptr) (w w' : World)
    (c : Z) (tl : list Z) :
  g_logFileName g = c :: tl -> c <> NUL ->
  logExecution h g filename argv w = Ok tt w' ->
  exists path fd chunks final,
    string_at (g_logFileName g) = Some path
    /\ w_events w'
       = w_events w ++ [EvOpen path fd; EvLock fd] ++ List.map (EvWrite fd) chunks
           ++ [EvWrite fd final; EvUnlock fd; EvClose fd]
    /\ Forall (fun chunk => length chunk = 1024%nat) chunks
    /\ (1 <= length final <= 1024)%nat.
Proof. apply logExecution_Ok_events. Qed.

Lemma logExecution_writes_full_buffers_witness :
  exists path fd chunks final,
    string_at (g_logFileName sample_globals) = Some path
    /\ w_events sample_logged_world
       = w_events sample_world ++ [EvOpen path fd; EvLock fd]
           ++ List.map (EvWrite fd) chunks
           ++ [EvWrite fd final; EvUnlock fd; EvClose fd]
    /\ Forall (fun chunk => length chunk = 1024%nat) chunks
    /\ (1 <= length final <= 1024)%nat.
Proof.
  apply (logExecution_writes_full_buffers sample_host sample_globals
           (PStr (cstr (lit "/bin/true"))) (PVec [PNull]) sample_world
           sample_logged_world (byte_of_ascii "/"%char)
           (lit "tmp/t.log" ++ NUL :: replicate 1013 0)).
  - reflexivity.
  - discriminate.
  - vm_compute. reflexivity.
Defined.

(** * Records in the file *)

Lemma written_app evs1 evs2 : written (evs1 ++ evs2) = written evs1 ++ written evs2.
Proof. unfold written. apply flat_map_app. Qed.

Lemma written_writes fd chunks : written (List.map (EvWrite fd) chunks) = concat chunks.
Proof.
  induction chunks as [|chunk chunks IH]; [reflexivity|].
  simpl. now rewrite <- IH.
Qed.

Lemma logExecution_record h g name cwd t1 t2 fn fnjunk args junk w :
  traceable h g name cwd t1 t2 -> calm w -> nonul fn -> Forall nonul args ->
  fits_int fn -> Forall fits_int args -> fits_int args ->
  exists w' chunks,
    logExecution h g (PStr (fn ++ NUL :: fnjunk)) (argv_of args junk) w = Ok tt w'
    /\ w_events w'
       = w_events w ++ [EvOpen name (h_log_fd h); EvLock (h_log_fd h)]
           ++ List.map (EvWrite (h_log_fd h)) chunks
           ++ [EvUnlock (h_log_fd h); EvClose (h_log_fd h)]
    /\ concat chunks = record_of h g cwd fn args t1 t2.
Proof.
  intros ((namerest & Hname) & Hne & Hnul & Hfd & Hunlock & Hs1 & Hs2 & Hcwd & Hcnul
          & Hlen) Hcalm Hfn Hargs Hfnfit Hargsfit Hcount.
  apply (logExecution_writes h g w name namerest fn fnjunk (argv_of args junk)
           (arg_line args) cwd t1 t2); try assumption.
  intros lf0 w0 Hr0. now apply write_argument_line_writes.
Qed.

Lemma logExecution_content h g name cwd t1 t2 fn fnjunk args junk w :
  traceable h g name cwd t1 t2 -> calm w -> nonul fn -> Forall nonul args ->
  fits_int fn -> Forall fits_int args -> fits_int args ->
  exists w',
    logExecution h g (PStr (fn ++ NUL :: fnjunk)) (argv_of args junk) w = Ok tt w'
    /\ written (w_events w') = written (w_events w) ++ record_of h g cwd fn args t1 t2.
Proof.
  intros Ht Hcalm Hfn Hargs Hfnfit Hargsfit Hcount.
  destruct (logExecution_record h g name cwd t1 t2 fn fnjunk args junk w Ht Hcalm Hfn
              Hargs Hfnfit Hargsfit Hcount) as (w' & chunks & Hrun & Hev & Hcat).
  exists w'. split; [exact Hrun|].
  rewrite Hev, !written_app, written_writes, Hcat. simpl. now rewrite app_nil_r.
Qed.

Lemma escaped_length s : (length s <= length (escaped s))%nat.
Proof.
  unfold escaped. rewrite !length_app.
  assert (H : (length s <= length (flat_map escape_char s))%nat).
  { induction s as [|ch s IH]; [reflexivity|]. cbn [flat_map length].
    rewrite length_app. unfold escape_char at 1.
    destruct ((ch =? ch_bslash) || (ch =? ch_quote)); cbn [length]; lia. }
  lia.
Qed.

Lemma more_args_length args :
  Forall (fun a => (length a <= length (more_args args))%nat) args.
Proof.
  induction args as [|a args IH]; [constructor|].
  unfold more_args in *. cbn [flat_map]. apply Forall_cons_2.
  - cbn [app length]. rewrite length_app. pose proof (escaped_length a). lia.
  - eapply Forall_impl; [exact IH|]. cbv beta. intros x Hx.
    cbn [app length]. rewrite length_app. lia.
Qed.

Lemma more_args_count args : (length args <= length (more_args args))%nat.
Proof.
  induction args as [|a args IH]; [reflexivity|].
  unfold more_args in *. cbn [flat_map app length]. rewrite length_app. lia.
Qed.

Lemma arg_line_count args : (length args <= S (length (arg_line args)))%nat.
Proof.
  destruct args as [|a args]; [cbn; lia|]. cbn [arg_line length].
  rewrite length_app. pose proof (more_args_count args). lia.
Qed.

Lemma arg_line_length args :
  Forall (fun a => (length a <= length (arg_line args))%nat) args.
Proof.
  destruct args as [|a args]; [constructor|]. cbn [arg_line]. apply Forall_cons_2.
  - rewrite length_app. pose proof (escaped_length a). lia.
  - eapply Forall_impl; [apply more_args_length|]. cbv beta. intros x Hx.
    rewrite length_app. lia.
Qed.

(** The filename and the arguments of a record are no longer than the
    record. *)
Lemma record_of_length h g cwd fn args t1 t2 :
  (length fn <= length (record_of h g cwd fn args t1 t2))%nat
  /\ Forall (fun a => (length a <= length (record_of h g cwd fn args t1 t2))%nat) args
  /\ (length args <= length (record_of h g cwd fn args t1 t2))%nat.
Proof.
  unfold record_of, record_fields, record_bytes. cbn [flat_map].
  rewrite !length_app. split; [|split].
  - pose proof (escaped_length fn). lia.
  - eapply Forall_impl; [apply arg_line_length|]. cbv beta. intros x Hx. lia.
  - pose proof (arg_line_count args). cbn [length]. lia.
Qed.

Lemma short_record_fits h g cwd fn args t1 t2 :
  (length (record_of h g cwd fn args t1 t2) <= 1024)%nat ->
  fits_int fn /\ Forall fits_int args /\ fits_int args.
Proof.
  intros Hshort.
  destruct (record_of_length h g cwd fn args t1 t2) as (Hfn & Hargs & Hcount).
  split; [unfold fits_int, INT_MAX; lia|].
  split; [|unfold fits_int, INT_MAX; lia].
  eapply Forall_impl; [exact Hargs|]. cbv beta. intros x Hx.
  unfold fits_int, INT_MAX. lia.
Qed.

(** X19: a record of at most 1024 bytes reaches the file through a single
    [write] call that carries the whole record, between the lock and the
    unlock. *)
Theorem short_record_is_one_write
    (h : Host) (g : Globals) (name cwd : list Z) (t1 t2 : Z)
    (fn fnjunk : list Z) (args : list (list Z)) (junk : list ptr) (w : World) :
  traceable h g name cwd t1 t2 -> calm w -> nonul fn -> Forall nonul args ->
  (length (record_of h g cwd fn args t1 t2) <= 1024)%nat ->
  exists w',
    logExecution h g (PStr (fn ++ NUL :: fnjunk)) (argv_of args junk) w = Ok tt w'
    /\ w_events w'
       = w_events w
           ++ [EvOpen name (h_log_fd h); EvLock (h_log_fd h);
               EvWrite (h_log_fd h) (record_of h g cwd fn args t1 t2);
               EvUnlock (h_log_fd h); EvClose (h_log_fd h)].
Proof.
  intros Ht Hcalm Hfn Hargs Hshort.
  destruct (short_record_fits h g cwd fn args t1 t2 Hshort)
    as (Hfnfit & Hargsfit & Hcount).
  destruct (logExecution_record h g name cwd t1 t2 fn fnjunk args junk w Ht Hcalm Hfn
              Hargs Hfnfit Hargsfit Hcount) as (w' & chunks & Hrun & Hev & Hcat).
  exists w'. split; [exact Hrun|].
  destruct Ht as ((namerest & Hname) & Hne & Hnul & _).
  destruct name as [|c name]; [congruence|].
  destruct (logExecution_Ok_events h g (PStr (fn ++ NUL :: fnjunk)) (argv_of args junk)
              w w' c (name ++ NUL :: namerest) Hname)
    as (path & fd0 & full & final & Hpath & Hev' & Hfull & Hfinal);
    [now apply Forall_cons in Hnul as [? _] | exact Hrun |].
  assert (Hfd : fd0 = h_log_fd h).
  { rewrite Hev in Hev'. apply app_inv_head in Hev'. now injection Hev' as _ ->. }
  subst fd0.
  assert (Hbytes : concat full ++ final = record_of h g cwd fn args t1 t2).
  { rewrite <- Hcat.
    assert (Hw : written (w_events w') = written (w_events w')) by reflexivity.
    rewrite Hev in Hw at 1. rewrite Hev' in Hw.
    rewrite !written_app, !written_writes in Hw. simpl in Hw.
    rewrite !app_nil_r in Hw. apply app_inv_head in Hw. now rewrite Hw. }
  destruct full as [|chunk full].
  - simpl in Hbytes. subst final. rewrite Hev'.
    rewrite Hname in Hpath. rewrite (string_at_cstr (c :: name) namerest Hnul) in Hpath.
    injection Hpath as <-. reflexivity.
  - apply Forall_cons in Hfull as [Hchunk _].
    rewrite <- Hbytes in Hshort. simpl in Hshort.
    rewrite !length_app in Hshort. lia.
Qed.

Lemma sample_traceable : traceable sample_host sample_globals (lit "/tmp/t.log") (lit "/w") 4000 5000.
Proof.
  split; [exists (replicate 1013 0); reflexivity|].
  split; [discriminate|]. split; [apply nonul_check; reflexivity|].
  split; [vm_compute; discriminate|]. split; [reflexivity|].
  split; [exact sample_stat_shows_100|]. split; [exact sample_stat_shows_200|].
  split; [reflexivity|]. split; [apply nonul_check; reflexivity|].
  vm_compute. reflexivity.
Qed.

Lemma short_record_is_one_write_witness :
  exists w',
    logExecution sample_host sample_globals (PStr (lit "/bin/ls" ++ NUL :: []))
      (argv_of [lit "ls"; lit "-l"] []) sample_world = Ok tt w'
    /\ w_events w'
       = w_events sample_world
           ++ [EvOpen (lit "/tmp/t.log") (h_log_fd sample_host);
               EvLock (h_log_fd sample_host);
               EvWrite (h_log_fd sample_host)
                 (record_of sample_host sample_globals (lit "/w") (lit "/bin/ls")
                    [lit "ls"; lit "-l"] 4000 5000);
               EvUnlock (h_log_fd sample_host); EvClose (h_log_fd sample_host)].
Proof.
  apply (short_record_is_one_write sample_host sample_globals (lit "/tmp/t.log")
           (lit "/w") 4000 5000 (lit "/bin/ls") [] [lit "ls"; lit "-l"] [] sample_world).
  - exact sample_traceable.
  - exact sample_world_calm.
  - apply nonul_check. reflexivity.
  - each_nonul.
  - vm_compute. lia.
Defined.

(** X20: the bytes a traced call appends to the log file are exactly its
    record, and the records of two calls made one after the other follow
    each other in the file in call order, whole.  The filenames and the
    arguments are shorter than [2^31] bytes each, and each call has fewer
    than [2^31] arguments. *)
Theorem records_follow_in_call_order
    (h1 h2 : Host) (g1 g2 : Globals) (name cwd1 cwd2 : list Z) (t1 t2 u1 u2 : Z)
    (fn1 fn2 junk1 junk2 : list Z) (args1 args2 : list (list Z))
    (more1 more2 : list ptr) (w : World) :
  traceable h1 g1 name cwd1 t1 t2 -> nonul fn1 -> Forall nonul args1 ->
  fits_int fn1 -> Forall fits_int args1 -> fits_int args1 ->
  traceable h2 g2 name cwd2 u1 u2 -> nonul fn2 -> Forall nonul args2 ->
  fits_int fn2 -> Forall fits_int args2 -> fits_int args2 ->
  calm w ->
  exists w1,
    logExecution h1 g1 (PStr (fn1 ++ NUL :: junk1)) (argv_of args1 more1) w = Ok tt w1
    /\ written (w_events w1)
       = written (w_events w) ++ record_of h1 g1 cwd1 fn1 args1 t1 t2
    /\ forall v,
         w_events v = w_events w1 -> calm v ->
         exists w2,
           logExecution h2 g2 (PStr (fn2 ++ NUL :: junk2)) (argv_of args2 more2) v
           = Ok tt w2
           /\ written (w_events w2)
              = written (w_events w) ++ record_of h1 g1 cwd1 fn1 args1 t1 t2
                  ++ record_of h2 g2 cwd2 fn2 args2 u1 u2.
Proof.
  intros Ht1 Hfn1 Hargs1 Hfit1 Hfits1 Hcount1 Ht2 Hfn2 Hargs2 Hfit2 Hfits2 Hcount2
    Hcalm.
  destruct (logExecution_content h1 g1 name cwd1 t1 t2 fn1 junk1 args1 more1 w
              Ht1 Hcalm Hfn1 Hargs1 Hfit1 Hfits1 Hcount1) as (w1 & Hrun1 & Hw1).
  exists w1. split; [exact Hrun1|]. split; [exact Hw1|].
  intros v Hv Hcalmv.
  destruct (logExecution_content h2 g2 name cwd2 u1 u2 fn2 junk2 args2 more2 v
              Ht2 Hcalmv Hfn2 Hargs2 Hfit2 Hfits2 Hcount2) as (w2 & Hrun2 & Hw2).
  exists w2. split; [exact Hrun2|].
  rewrite Hw2, Hv, Hw1, <- app_assoc. reflexivity.
Qed.

Lemma sample_child_traceable :
  traceable sample_child_host sample_globals (lit "/tmp/t.log") (lit "/w/sub dir") 5000 4000.
Proof.
  split; [exists (replicate 1013 0); reflexivity|].
  split; [discriminate|]. split; [apply nonul_check; reflexivity|].
  split; [vm_compute; discriminate|]. split; [reflexivity|].
  split; [exact sample_stat_shows_200|]. split; [exact sample_stat_shows_100|].
  split; [reflexivity|]. split; [apply nonul_check; reflexivity|].
  vm_compute. reflexivity.
Qed.

Lemma records_follow_in_call_order_witness :
  exists w1,
    logExecution sample_host sample_globals (PStr (lit "/bin/sh" ++ NUL :: []))
      (argv_of [lit "sh"; lit "-c"; lit "ls -l"] []) sample_world = Ok tt w1
    /\ written (w_events w1)
       = written (w_events sample_world)
           ++ record_of sample_host sample_globals (lit "/w") (lit "/bin/sh")
                [lit "sh"; lit "-c"; lit "ls -l"] 4000 5000
    /\ forall v,
         w_events v = w_events w1 -> calm v ->
         exists w2,
           logExecution sample_child_host sample_globals (PStr (lit "/bin/ls" ++ NUL :: []))
             (argv_of [lit "ls"; lit "-l"] []) v = Ok tt w2
           /\ written (w_events w2)
              = written (w_events sample_world)
                  ++ record_of sample_host sample_globals (lit "/w") (lit "/bin/sh")
                       [lit "sh"; lit "-c"; lit "ls -l"] 4000 5000
                  ++ record_of sample_child_host sample_globals (lit "/w/sub dir")
                       (lit "/bin/ls") [lit "ls"; lit "-l"] 5000 4000.
Proof.
  apply (records_follow_in_call_order sample_host sample_child_host
           sample_globals sample_globals (lit "/tmp/t.log") (lit "/w") (lit "/w/sub dir")
           4000 5000 5000 4000 (lit "/bin/sh") (lit "/bin/ls") [] []
           [lit "sh"; lit "-c"; lit "ls -l"] [lit "ls"; lit "-l"] [] [] sample_world).
  - exact sample_traceable.
  - apply nonul_check. reflexivity.
  - each_nonul.
  - apply fits_int_check. reflexivity.
  - each_fits.
  - apply fits_int_check. reflexivity.
  - exact sample_child_traceable.
  - apply nonul_check. reflexivity.
  - each_nonul.
  - apply fits_int_check. reflexivity.
  - each_fits.
  - apply fits_int_check. reflexivity.
  - exact sample_world_calm.
Defined.

(** X21: with tracing on, each of the four fixed-argument wrappers first
    completes the record, lock released and descriptor closed, and then
    enters the real implementation with the caller's own path, argument
    vector and environment ([environ] for [execv] and [execvp]); what the
    real implementation returns is what the wrapper returns.  The filename
    and the arguments are shorter than [2^31] bytes each, and there are
    fewer than [2^31] arguments. *)
Theorem wrappers_log_then_call_real
    (h : Host) (g : Globals) (name cwd : list Z) (t1 t2 : Z)
    (fn fnjunk : list Z) (args : list (list Z)) (junk : list ptr)
    (envp : ptr) (w : World) :
  traceable h g name cwd t1 t2 -> calm w -> nonul fn -> Forall nonul args ->
  fits_int fn -> Forall fits_int args -> fits_int args ->
  let path := PStr (fn ++ NUL :: fnjunk) in
  let argv := argv_of args junk in
  exists w',
    logExecution h g path argv w = Ok tt w'
    /\ written (w_events w') = written (w_events w) ++ record_of h g cwd fn args t1 t2
    /\ last (w_events w') = Some (EvClose (h_log_fd h))
    /\ execve h g path argv envp w = real_execve g path argv envp w'
    /\ execv h g path argv w = real_execve g path argv (h_environ h) w'
    /\ execvpe h g path argv envp w = real_execvpe g path argv envp w'
    /\ execvp h g path argv w = real_execvpe g path argv (h_environ h) w'.
Proof.
  intros Ht Hcalm Hfn Hargs Hfnfit Hargsfit Hcount path argv.
  destruct (logExecution_record h g name cwd t1 t2 fn fnjunk args junk w Ht Hcalm Hfn
              Hargs Hfnfit Hargsfit Hcount) as (w' & chunks & Hrun & Hev & Hcat).
  exists w'. split; [exact Hrun|]. split; [|split].
  - rewrite Hev, !written_app, written_writes, Hcat. simpl. now rewrite app_nil_r.
  - rewrite Hev, !app_assoc.
    change [EvUnlock (h_log_fd h); EvClose (h_log_fd h)]
      with ([EvUnlock (h_log_fd h)] ++ [EvClose (h_log_fd h)]).
    rewrite app_assoc. apply last_snoc.
  - unfold execve, execv, execvpe, execvp, wrap_execve, wrap_execvpe, bind.
    fold path argv in Hrun. rewrite Hrun. repeat split.
Qed.

Lemma wrappers_log_then_call_real_witness :
  let path := PStr (lit "/bin/ls" ++ NUL :: []) in
  let argv := argv_of [lit "ls"; lit "-l"] [] in
  exists w',
    logExecution sample_host sample_globals path argv sample_world = Ok tt w'
    /\ written (w_events w')
       = written (w_events sample_world)
           ++ record_of sample_host sample_globals (lit "/w") (lit "/bin/ls")
                [lit "ls"; lit "-l"] 4000 5000
    /\ last (w_events w') = Some (EvClose (h_log_fd sample_host))
    /\ execve sample_host sample_globals path argv sample_envp sample_world
       = real_execve sample_globals path argv sample_envp w'
    /\ execv sample_host sample_globals path argv sample_world
       = real_execve sample_globals path argv (h_environ sample_host) w'
    /\ execvpe sample_host sample_globals path argv sample_envp sample_world
       = real_execvpe sample_globals path argv sample_envp w'
    /\ execvp sample_host sample_globals path argv sample_world
       = real_execvpe sample_globals path argv (h_environ sample_host) w'.
Proof.
  apply (wrappers_log_then_call_real sample_host sample_globals (lit "/tmp/t.log")
           (lit "/w") 4000 5000 (lit "/bin/ls") [] [lit "ls"; lit "-l"] []
           sample_envp sample_world).
  - exact sample_traceable.
  - exact sample_world_calm.
  - apply nonul_check. reflexivity.
  - each_nonul.
  - apply fits_int_check. reflexivity.
  - each_fits.
  - apply fits_int_check. reflexivity.
Defined.

(** * Stat files that cannot be used *)

Lemma bind_eq {A B} (m : M A) (k : A -> M B) w a w1 :
  m w = Ok a w1 -> (do x <- m; k x) w = k a w1.
Proof. unfold bind. now intros ->. Qed.

Lemma bind_defined {A B} (a : A) (k : A -> M B) w :
  (do x <- defined (Some a); k x) w = k a w.
Proof. reflexivity. Qed.

Lemma bind_Abort {A B} (m : M A) (k : A -> M B) w w1 :
  m w = Abort w1 -> (do x <- m; k x) w = Abort w1.
Proof. unfold bind. now intros ->. Qed.

Lemma procStatPath_nonul pid : nonul (lit "/proc/" ++ decimal pid ++ lit "/stat").
Proof.
  apply nonul_app. split; [apply nonul_check; reflexivity|].
  apply nonul_app. split; [apply decimal_nonul | apply nonul_check; reflexivity].
Qed.

(** Up to the test of the descriptor, [writePid] stages the pid line. *)
Lemma writePid_reaches_open h boot logFile pid w :
  ready logFile w -> 0 <= pid < 2 ^ 32 ->
  exists lf2 w2,
    appends logFile w (decimal pid ++ [ch_nl]) lf2 w2
    /\ writePid h boot logFile pid w
       = writePid_after_open boot lf2
           (h_stat h (lit "/proc/" ++ decimal pid ++ lit "/stat")) w2.
Proof.
  intros Hr Hpid.
  assert (Hpid64 : 0 <= pid < 2 ^ 64)
    by (split; [lia|]; eapply Z.lt_trans; [apply Hpid | reflexivity]).
  unfold writePid.
  rewrite uint64ToString_decimal by (rewrite ?length_replicate; lia).
  rewrite bind_defined.
  destruct (writeString_writes logFile (decimal pid)
              (drop (S (length (decimal pid))) (replicate 32 0)) w
              (decimal_nonul pid) Hr) as (lf1 & w1 & Hrun1 & Happ1).
  rewrite (bind_eq _ _ _ _ _ Hrun1).
  destruct (writeChar_writes lf1 ch_nl w1 (proj1 Happ1)) as (lf2 & w2 & Hrun2 & Happ2).
  rewrite (bind_eq _ _ _ _ _ Hrun2).
  destruct (procStatPath_spec pid
              (drop (S (length (decimal pid))) (replicate 32 0)) Hpid64)
    as (prest & ->).
  rewrite bind_defined.
  rewrite string_at_cstr by apply procStatPath_nonul.
  rewrite bind_defined.
  exists lf2, w2. split; [|reflexivity].
  eapply appends_trans; eassumption.
Qed.

Lemma writeChar_room logFile ch w :
  lf_ok logFile -> bufCount logFile < 1024 ->
  writeChar logFile ch w
  = Ok {| fd := fd logFile;
          buf := <[Z.to_nat (bufCount logFile) := ch]> (buf logFile);
          bufCount := bufCount logFile + 1 |} w.
Proof.
  intros [Hlen Hcnt] Hroom. unfold writeChar, bind, sizeof_buf.
  destruct (Z.eqb_spec (bufCount logFile) 1024); [lia|]. unfold ret.
  replace ((0 <=? bufCount logFile) && (bufCount logFile <? 1024))
    with true by (symmetry; apply andb_true_iff; lia).
  reflexivity.
Qed.

(** A string that fits the room left in the staging buffer is staged
    without a system call. *)
Lemma writeString_room s rest logFile w :
  nonul s -> lf_ok logFile -> bufCount logFile + Z.of_nat (length s) <= 1024 ->
  exists lf',
    writeString logFile (s ++ NUL :: rest) w = Ok lf' w
    /\ lf_ok lf' /\ bufCount lf' = bufCount logFile + Z.of_nat (length s).
Proof.
  intros Hs. revert logFile.
  induction Hs as [|ch s Hch _ IH]; intros logFile Hok Hroom; simpl.
  - exists logFile. split; [reflexivity|]. split; [exact Hok | lia].
  - not_terminator ch. cbn [length] in Hroom.
    rewrite (bind_eq _ _ _ _ _ (writeChar_room logFile ch w Hok ltac:(lia))).
    destruct Hok as [Hlen Hcnt].
    edestruct IH as (lf' & Hrun & Hok' & Hcount); [| |exists lf'; split; [exact Hrun|]].
    + split; cbn [buf bufCount]; [now rewrite length_insert | unfold sizeof_buf in *; lia].
    + cbn [bufCount]. lia.
    + split; [exact Hok'|]. rewrite Hcount. cbn [bufCount length]. lia.
Qed.

Lemma writePid_room h boot logFile pid w :
  lf_ok logFile -> bufCount logFile + 21 <= 1024 -> 0 <= pid < 2 ^ 32 ->
  exists lf2,
    writePid h boot logFile pid w
    = writePid_after_open boot lf2
        (h_stat h (lit "/proc/" ++ decimal pid ++ lit "/stat")) w.
Proof.
  intros Hok Hroom Hpid.
  assert (Hpid64 : 0 <= pid < 2 ^ 64)
    by (split; [lia|]; eapply Z.lt_trans; [apply Hpid | reflexivity]).
  pose proof (decimal_length_u64 pid Hpid64) as Hlen.
  unfold writePid.
  rewrite uint64ToString_decimal by (rewrite ?length_replicate; lia).
  rewrite bind_defined.
  destruct (writeString_room (decimal pid)
              (drop (S (length (decimal pid))) (replicate 32 0)) logFile w
              (decimal_nonul pid) Hok ltac:(lia)) as (lf1 & Hrun1 & Hok1 & Hcount1).
  rewrite (bind_eq _ _ _ _ _ Hrun1).
  rewrite (bind_eq _ _ _ _ _ (writeChar_room lf1 ch_nl w Hok1 ltac:(lia))).
  destruct (procStatPath_spec pid
              (drop (S (length (decimal pid))) (replicate 32 0)) Hpid64)
    as (prest & ->).
  rewrite bind_defined.
  rewrite string_at_cstr by apply procStatPath_nonul.
  rewrite bind_defined.
  eexists. reflexivity.
Qed.

Lemma u32_range z : 0 <= u32 z < 2 ^ 32.
Proof. unfold u32. apply Z.mod_pos_bound. reflexivity. Qed.

(** X22: when the stat file of the parent cannot be opened or read,
    [logExecution] aborts having opened and locked the log file and
    written nothing to it: the bytes staged so far never leave the
    buffer. *)
Theorem logExecution_unreadable_stat_writes_nothing
    (h : Host) (g : Globals) (name namerest : list Z) (filename argv : ptr)
    (w : World) :
  g_logFileName g = name ++ NUL :: namerest -> name <> [] -> nonul name ->
  calm w -> 0 <= h_log_fd h ->
  h_stat h (lit "/proc/" ++ decimal (u32 (h_ppid h)) ++ lit "/stat") = StatNoOpen
  \/ h_stat h (lit "/proc/" ++ decimal (u32 (h_ppid h)) ++ lit "/stat") = StatReadError ->
  exists w',
    logExecution h g filename argv w = Abort w'
    /\ w_events w' = w_events w ++ [EvOpen name (h_log_fd h); EvLock (h_log_fd h)]
    /\ written (w_events w') = written (w_events w).
Proof.
  intros Hname Hne Hnul Hcalm Hfd Hstat.
  destruct (openLogFile_calm h name namerest w Hnul Hcalm Hfd) as (w0 & Hopen & Hev & _).
  exists w0. split; [|split; [exact Hev|]].
  - unfold logExecution. rewrite Hname.
    destruct name as [|c name]; [congruence|]. cbn [app].
    apply Forall_cons in Hnul as [Hc _]. not_terminator c.
    change (c :: name ++ NUL :: namerest) with ((c :: name) ++ NUL :: namerest).
    rewrite (bind_eq _ _ _ _ _ Hopen).
    set (lf0 := {| fd := h_log_fd h; buf := replicate 1024 0; bufCount := 0 |}).
    assert (Hok0 : lf_ok lf0).
    { split; [apply length_replicate | cbn; unfold sizeof_buf; lia]. }
    destruct (writeString_room (lit "exec" ++ [ch_nl]) [] lf0 w0) as (lf1 & Hrun1 & Hok1 & Hcount1);
      [apply nonul_check; reflexivity | exact Hok0 | cbn; lia |].
    unfold cstr. rewrite (bind_eq _ _ _ _ _ Hrun1).
    apply bind_Abort.
    destruct (writePid_room h (g_bootTimeInJiffies g) lf1 (u32 (h_ppid h)) w0 Hok1)
      as (lf2 & ->); [rewrite Hcount1; cbn; lia | apply u32_range |].
    destruct Hstat as [-> | ->]; reflexivity.
  - rewrite Hev, written_app. simpl. now rewrite app_nil_r.
Qed.

Lemma logExecution_unreadable_stat_writes_nothing_witness :
  exists w',
    logExecution sample_host_no_proc sample_globals (PStr (cstr (lit "/bin/ls")))
      (argv_of [lit "ls"] []) sample_world = Abort w'
    /\ w_events w'
       = w_events sample_world
           ++ [EvOpen (lit "/tmp/t.log") (h_log_fd sample_host_no_proc);
               EvLock (h_log_fd sample_host_no_proc)]
    /\ written (w_events w') = written (w_events sample_world).
Proof.
  apply (logExecution_unreadable_stat_writes_nothing sample_host_no_proc sample_globals
           (lit "/tmp/t.log") (replicate 1013 0) (PStr (cstr (lit "/bin/ls")))
           (argv_of [lit "ls"] []) sample_world).
  - reflexivity.
  - discriminate.
  - apply nonul_check. reflexivity.
  - exact sample_world_calm.
  - vm_compute. discriminate.
  - left. reflexivity.
Defined.

Lemma spaces_absent s : ch_space ∉ s -> spaces s = 0%nat.
Proof.
  intros H. apply count_occ_not_In. intros Hin. apply H. now apply list_elem_of_In.
Qed.

Lemma spaces_present s : ch_space ∈ s -> (0 < spaces s)%nat.
Proof.
  intros H. apply count_occ_In. now apply list_elem_of_In.
Qed.

(** With fewer than [n + 1] spaces ahead, skipping [n] fields and asking
    for the end of the next one fails an assertion. *)
Lemma advance_fields_too_few n body (k : list Z -> M LogFile) w :
  nonul body -> (spaces body < S n)%nat ->
  (do p <- advance_fields n (body ++ [NUL]);
   do pEnd <- defined (safeStrChr p ch_space);
   do _ <- safeAssert (bool_decide (is_Some pEnd));
   k p) w = Abort w.
Proof.
  revert body. induction n as [|n IH]; intros body Hnul Hfew.
  - cbn [advance_fields]. unfold bind at 1. cbn [ret].
    rewrite safeStrChr_absent; [reflexivity|exact Hnul|reflexivity|discriminate|].
    intros Hin. apply spaces_present in Hin. lia.
  - cbn [advance_fields].
    destruct (decide (ch_space ∈ body)) as [Hin|Hout].
    + apply list_elem_of_split_l in Hin as (pre & post & -> & Hpre).
      apply nonul_app in Hnul as [Hn1 Hn2]. apply Forall_cons in Hn2 as [_ Hn2].
      rewrite <- app_assoc. cbn [app].
      rewrite safeStrChr_first by (assumption || reflexivity).
      unfold bind at 1. unfold bind at 2. cbn [defined ret drop].
      unfold spaces in Hfew. rewrite count_occ_app in Hfew.
      rewrite count_occ_cons_eq in Hfew by reflexivity.
      specialize (IH post Hn2 ltac:(unfold spaces; lia)).
      exact IH.
    + rewrite safeStrChr_absent;
        [reflexivity|exact Hnul|reflexivity|discriminate|exact Hout].
Qed.

(** X23: a stat file [writePid] can neither open nor read, one whose first
    1023 bytes hold no closing parenthesis, and one with fewer than twenty
    spaces behind the byte that follows the last closing parenthesis each
    stop the process, once the pid line is staged; when the last closing
    parenthesis is the last byte read, [writePid] reads past the
    terminator it stored. *)
Theorem writePid_unusable_stat
    (h : Host) (boot : Z) (logFile : LogFile) (pid : Z) (w : World) :
  ready logFile w -> 0 <= pid < 2 ^ 32 ->
  let stat := h_stat h (lit "/proc/" ++ decimal pid ++ lit "/stat") in
  (stat = StatNoOpen \/ stat = StatReadError ->
   exists w', writePid h boot logFile pid w = Abort w')
  /\ (forall content,
        stat = StatContent content -> nonul (take 1023 content) ->
        (ch_rparen ∉ take 1023 content ->
         exists w', writePid h boot logFile pid w = Abort w')
        /\ (forall pre sep body,
              take 1023 content = pre ++ ch_rparen :: sep :: body ->
              ch_rparen ∉ sep :: body -> (spaces body < 20)%nat ->
              exists w', writePid h boot logFile pid w = Abort w')
        /\ (forall pre,
              take 1023 content = pre ++ [ch_rparen] ->
              writePid h boot logFile pid w = Undef)).
Proof.
  intros Hr Hpid stat.
  destruct (writePid_reaches_open h boot logFile pid w Hr Hpid)
    as (lf2 & w2 & _ & ->). fold stat.
  split.
  - intros [-> | ->]; exists w2; reflexivity.
  - intros content -> Hnul. cbn [writePid_after_open]. split; [|split].
    + intros Hno. exists w2.
      unfold safeStrRChr. rewrite safeStrRChr_from_absent;
        [reflexivity | exact Hnul | reflexivity | discriminate | exact Hno].
    + intros pre sep body Heq Hlast Hfew. exists w2.
      rewrite Heq in Hnul |- *.
      apply nonul_app in Hnul as [Hn1 Hn2]. apply Forall_cons in Hn2 as [_ Hn2].
      replace ((pre ++ ch_rparen :: sep :: body) ++ [NUL])
        with (pre ++ ch_rparen :: (sep :: body) ++ NUL :: [])
        by (rewrite <- app_assoc; reflexivity).
      rewrite safeStrRChr_rightmost;
        [|assumption|assumption|reflexivity|discriminate|assumption].
      rewrite bind_defined. cbn [drop app].
      apply Forall_cons in Hn2 as [_ Hn2].
      apply advance_fields_too_few; [exact Hn2 | exact Hfew].
    + intros pre Heq. rewrite Heq in Hnul |- *.
      apply nonul_app in Hnul as [Hn1 _].
      replace ((pre ++ [ch_rparen]) ++ [NUL])
        with (pre ++ ch_rparen :: [] ++ NUL :: [])
        by (rewrite <- app_assoc; reflexivity).
      rewrite safeStrRChr_rightmost;
        [reflexivity | assumption | constructor | reflexivity | discriminate
        | apply not_elem_of_nil].
Qed.

Lemma writePid_unusable_stat_witness :
  exists w', writePid sample_host_short_stat 1000 sample_logFile 100 sample_world = Abort w'.
Proof.
  refine (proj1 (proj2 (proj2 (writePid_unusable_stat sample_host_short_stat 1000
                   sample_logFile 100 sample_world sample_ready _)
                   (lit "100 (a) b) S 1 2 3") eq_refl _))
            (lit "100 (a) b") ch_space (lit "S 1 2 3") eq_refl _ _).
  - lia.
  - apply nonul_check. reflexivity.
  - apply not_elem_check. reflexivity.
  - vm_compute. lia.
Defined.

(** * Numerals and plain strings *)

Lemma decimal_digit r : 0 <= r < 10 -> decimal r = [ch_zero + r].
Proof.
  intros Hr. unfold decimal. rewrite decimal_fuel_S.
  rewrite Z.div_small, Z.mod_small by lia. reflexivity.
Qed.

Lemma decimal_snoc q r :
  0 < q -> 0 <= r < 10 -> decimal (q * 10 + r) = decimal q ++ [ch_zero + r].
Proof.
  intros Hq Hr.
  pose proof (decimal_fuel_bound q ltac:(lia)) as Hbound.
  set (f := S (Z.to_nat (Z.log2 q))) in *.
  rewrite <- (decimal_fuel_ok (S f) (q * 10 + r)).
  - rewrite decimal_fuel_S.
    replace ((q * 10 + r) / 10) with q by (apply Z.div_unique_pos with r; lia).
    replace ((q * 10 + r) mod 10) with r by (apply Z.mod_unique_pos with q; lia).
    destruct (Z.eqb_spec q 0); [lia|]. reflexivity.
  - split; [lia|]. rewrite Nat2Z.inj_succ, Z.pow_succ_r by lia. lia.
  - lia.
Qed.

Lemma dec_value_grows ds acc :
  digits ds -> 1 <= acc ->
  1 <= fold_left (fun acc d => acc * 10 + (d - ch_zero)) ds acc.
Proof.
  intros Hds. revert acc. induction Hds as [|d ds Hd _ IH]; intros acc Hacc; simpl.
  - exact Hacc.
  - apply IH. apply safeIsDigit_spec in Hd. unfold ch_zero. lia.
Qed.

Lemma decimal_dec_value ds : canonical ds -> decimal (dec_value ds) = ds.
Proof.
  intros [Hds Hshape]. revert Hshape.
  induction ds as [|d ds IH] using rev_ind; [contradiction|]. intros Hshape.
  apply Forall_app in Hds as [Hds Hd]. apply Forall_cons in Hd as [Hd _].
  apply safeIsDigit_spec in Hd.
  rewrite dec_value_snoc. unfold ch_zero in *.
  destruct ds as [|d0 ds].
  - change (dec_value []) with 0. rewrite decimal_digit by lia.
    cbn [app]. f_equal. unfold ch_zero. lia.
  - cbn [app] in Hshape. destruct Hshape as [Hd0|Hnil];
      [|now destruct ds; discriminate Hnil].
    assert (Hpos : 0 < dec_value (d0 :: ds)).
    { unfold dec_value. cbn [fold_left].
      apply Forall_cons in Hds as [Hd0' Hds']. apply safeIsDigit_spec in Hd0'.
      pose proof (dec_value_grows ds (0 * 10 + (d0 - ch_zero)) Hds') as H.
      unfold ch_zero in *. lia. }
    rewrite decimal_snoc by lia.
    rewrite IH; [|exact Hds|now left].
    do 2 f_equal. unfold ch_zero. lia.
Qed.

(** X24: a numeral of one digit, or of several digits without a leading
    zero, whose value is below [2^64] is read by [stringToUint64] as its
    value and written back by [uint64ToString] as the same digits: with
    the round trip from the number, decimal text and numbers below [2^64]
    correspond one to one. *)
Theorem stringToUint64_uint64ToString_roundtrip
    (ds : list Z) (ch : Z) (rest output : list Z) :
  canonical ds -> dec_value ds < 2 ^ 64 -> safeIsDigit ch = false ->
  (21 <= length output)%nat ->
  stringToUint64 (ds ++ ch :: rest) = Some (dec_value ds)
  /\ uint64ToString output (dec_value ds)
     = Some (ds ++ NUL :: drop (S (length ds)) output).
Proof.
  intros Hcan Hlt Hch Hout. pose proof Hcan as [Hds _].
  pose proof (dec_value_nonneg ds Hds) as Hnn.
  split.
  - rewrite stringToUint64_run by assumption. now rewrite u64_small by lia.
  - rewrite uint64ToString_decimal by (assumption || lia).
    now rewrite decimal_dec_value.
Qed.

Lemma stringToUint64_uint64ToString_roundtrip_witness :
  stringToUint64 (lit "18446744073709551615" ++ ch_space :: []) 
  = Some (dec_value (lit "18446744073709551615"))
  /\ uint64ToString (replicate 32 0) (dec_value (lit "18446744073709551615"))
     = Some (lit "18446744073709551615"
               ++ NUL :: drop (S (length (lit "18446744073709551615"))) (replicate 32 0)).
Proof.
  apply (stringToUint64_uint64ToString_roundtrip (lit "18446744073709551615")
           ch_space [] (replicate 32 0)).
  - split; [apply digits_check; reflexivity | left; discriminate].
  - vm_compute. reflexivity.
  - reflexivity.
  - rewrite length_replicate. lia.
Defined.

Lemma flat_map_escape_plain s :
  ch_bslash ∉ s -> ch_quote ∉ s -> flat_map escape_char s = s.
Proof.
  induction s as [|ch s IH]; intros Hb Hq; [reflexivity|].
  apply not_elem_of_cons in Hb as [Hb1 Hb2]. apply not_elem_of_cons in Hq as [Hq1 Hq2].
  cbn [flat_map]. unfold escape_char at 1.
  destruct (Z.eqb_spec ch ch_bslash); [congruence|].
  destruct (Z.eqb_spec ch ch_quote); [congruence|].
  cbn. now rewrite IH.
Qed.

Lemma flat_map_escape_length s :
  (length s <= length (flat_map escape_char s) <= 2 * length s)%nat.
Proof.
  induction s as [|ch s IH]; [simpl; lia|].
  cbn [flat_map]. rewrite length_app. unfold escape_char at 1 3.
  destruct ((ch =? ch_bslash) || (ch =? ch_quote)); cbn [length]; lia.
Qed.

(** X25: [writeEscapedString] writes a string shorter than [2^31] bytes
    that holds no space, newline, backslash or double quote as it is, and
    any string [x] shorter than [2^31] bytes as at least [|x|] and at most
    [2 |x| + 2] bytes.  On a string of [2^31] bytes or more the [int] index
    of its loop overflows: the call has no defined result. *)
Theorem writeEscapedString_plain_verbatim
    (x rest : list Z) (logFile : LogFile) (w : World) :
  nonul x -> ready logFile w ->
  (fits_int x ->
   (ch_space ∉ x -> ch_nl ∉ x -> ch_bslash ∉ x -> ch_quote ∉ x ->
    writes (writeEscapedString logFile (x ++ NUL :: rest)) logFile w x)
   /\ exists out,
        writes (writeEscapedString logFile (x ++ NUL :: rest)) logFile w out
        /\ (length x <= length out <= 2 * length x + 2)%nat)
  /\ (~ fits_int x -> writeEscapedString logFile (x ++ NUL :: rest) w = Undef).
Proof.
  intros Hx Hr. split.
  - intros Hfit.
    pose proof (writeEscapedString_writes logFile x rest w Hx Hfit Hr) as Hw.
    split.
    + intros Hs Hn Hb Hq. eapply writes_eq; [exact Hw|].
      unfold escaped.
      destruct (needs_quotes x) eqn:Hnq.
      * apply needs_quotes_spec in Hnq as [?|?]; contradiction.
      * cbn [app]. rewrite app_nil_r. now apply flat_map_escape_plain.
    + exists (escaped x). split; [exact Hw|].
      unfold escaped. pose proof (flat_map_escape_length x).
      destruct (needs_quotes x); rewrite ?length_app; cbn [length app];
        rewrite ?length_app; cbn [length]; lia.
  - intros Hbig. apply writeEscapedString_overflow; [exact Hx | | exact Hr].
    unfold fits_int in Hbig. lia.
Qed.

Lemma writeEscapedString_plain_verbatim_witness :
  (ch_space ∉ lit "/usr/bin/cc" -> ch_nl ∉ lit "/usr/bin/cc" ->
   ch_bslash ∉ lit "/usr/bin/cc" -> ch_quote ∉ lit "/usr/bin/cc" ->
   writes (writeEscapedString sample_logFile (lit "/usr/bin/cc" ++ NUL :: []))
     sample_logFile sample_world (lit "/usr/bin/cc"))
  /\ exists out,
       writes (writeEscapedString sample_logFile (lit "/usr/bin/cc" ++ NUL :: []))
         sample_logFile sample_world out
       /\ (length (lit "/usr/bin/cc") <= length out
           <= 2 * length (lit "/usr/bin/cc") + 2)%nat.
Proof.
  destruct (writeEscapedString_plain_verbatim (lit "/usr/bin/cc") [] sample_logFile
              sample_world) as [Hshort _].
  - apply nonul_check. reflexivity.
  - exact sample_ready.
  - apply Hshort. apply fits_int_check. reflexivity.
Defined.

(** * The navigator: loading a file *)

Lemma lookup_cursor (out gap : list Z) x tail :
  (out ++ gap ++ x :: tail) !! (length out + length gap)%nat = Some x.
Proof.
  rewrite app_assoc. apply list_lookup_middle. now rewrite length_app.
Qed.

Lemma length_shift gap ch : length (shift gap ch) = length gap.
Proof. destruct gap; simpl; [reflexivity|]. rewrite length_app. simpl. lia. Qed.

Lemma store_front out gap ch tail v :
  store (out ++ gap ++ ch :: tail) (length out) v
  = Some ((out ++ [v]) ++ shift gap ch ++ tail).
Proof.
  unfold store.
  destruct (Nat.ltb_spec (length out) (length (out ++ gap ++ ch :: tail))) as [_|H].
  - f_equal.
    replace (length out) with (length out + 0)%nat by lia.
    rewrite insert_app_r. rewrite <- !app_assoc. f_equal.
    destruct gap as [|g gap]; simpl; [reflexivity|].
    now rewrite <- app_assoc.
  - rewrite !length_app in H. destruct gap; simpl in H; lia.
Qed.

(** The loop with the cursors anywhere: what lies before [d] is kept, what
    lies from [s] on is read, and the cells in between do not matter. *)
Lemma canonicalize_spec fuel out gap rest :
  (length rest < fuel)%nat ->
  exists buf' d',
    canonicalize fuel (out ++ gap ++ rest ++ [NUL]) (length out)
      (length out + length gap)
    = Some (buf', d')
    /\ take d' buf' = out ++ normalise rest.
Proof.
  revert out gap rest.
  induction fuel as [|fuel IH]; intros out gap rest Hfuel; [lia|].
  cbn [canonicalize].
  destruct rest as [|ch rest].
  - cbn [app]. rewrite lookup_cursor. rewrite Z.eqb_refl.
    eexists _, _. split; [reflexivity|].
    cbn [normalise]. rewrite app_nil_r. now rewrite take_app_length.
  - cbn [app]. rewrite lookup_cursor. cbn [length] in Hfuel.
    destruct (Z.eqb_spec ch NUL) as [->|Hch].
    { eexists _, _. split; [reflexivity|].
      cbn [normalise]. rewrite Z.eqb_refl, app_nil_r. now rewrite take_app_length. }
    cbn [normalise]. destruct (Z.eqb_spec ch NUL); [contradiction|].
    rewrite store_front.
    assert (Hpos : forall v, (S (length out) = length (out ++ [v]))%nat)
      by (intros v; rewrite length_app; simpl; lia).
    destruct (Z.eqb_spec ch ch_cr) as [->|Hcr].
    + assert (Hs : (S (length out + length gap)
                    = length (out ++ [ch_nl]) + length (shift gap ch_cr))%nat)
        by (rewrite length_app, length_shift; simpl; lia).
      rewrite Hs.
      destruct rest as [|ch2 rest].
      * cbn [app]. rewrite lookup_cursor.
        change (NUL =? ch_nl) with false. cbv iota.
        rewrite (Hpos ch_nl).
        destruct (IH (out ++ [ch_nl]) (shift gap ch_cr) [] ltac:(simpl; lia))
          as (buf' & d' & Hrun & Htake).
        cbn [app] in Hrun. rewrite Hrun. exists buf', d'.
        split; [reflexivity|]. rewrite Htake, <- app_assoc. reflexivity.
      * cbn [app]. rewrite lookup_cursor. cbn [length] in Hfuel.
        rewrite (Hpos ch_nl).
        destruct (Z.eqb_spec ch2 ch_nl) as [->|Hnl].
        -- replace (S (length (out ++ [ch_nl]) + length (shift gap ch_cr)))
             with (length (out ++ [ch_nl]) + length (shift gap ch_cr ++ [ch_nl]))%nat
             by (rewrite (length_app (shift _ _)); simpl; lia).
           destruct (IH (out ++ [ch_nl]) (shift gap ch_cr ++ [ch_nl]) rest ltac:(lia))
             as (buf' & d' & Hrun & Htake).
           replace ((shift gap ch_cr ++ [ch_nl]) ++ rest ++ [NUL])
             with (shift gap ch_cr ++ ch_nl :: rest ++ [NUL]) in Hrun
             by (now rewrite <- app_assoc).
           rewrite Hrun.
           exists buf', d'. split; [reflexivity|].
           rewrite Htake, <- app_assoc. reflexivity.
        -- destruct (IH (out ++ [ch_nl]) (shift gap ch_cr) (ch2 :: rest)
                       ltac:(simpl; lia)) as (buf' & d' & Hrun & Htake).
           cbn [app] in Hrun. rewrite Hrun.
           exists buf', d'. split; [reflexivity|].
           rewrite Htake, <- app_assoc. reflexivity.
    + assert (Hs : (S (length out + length gap)
                    = length (out ++ [ch]) + length (shift gap ch))%nat)
        by (rewrite length_app, length_shift; simpl; lia).
      rewrite Hs, (Hpos ch), store_front.
      destruct (IH (out ++ [ch]) (shift gap ch) rest ltac:(lia))
        as (buf' & d' & Hrun & Htake).
      rewrite Hrun. exists buf', d'. split; [reflexivity|].
      rewrite Htake, <- app_assoc. reflexivity.
Qed.

Lemma file_content_normalise bytes : file_content bytes = Some (normalise bytes).
Proof.
  unfold file_content.
  destruct (canonicalize_spec (length (bytes ++ [NUL])) [] [] bytes)
    as (buf' & d' & Hrun & Htake).
  { rewrite length_app. simpl. lia. }
  cbn [app length Nat.add] in Hrun. rewrite Hrun. now rewrite Htake.
Qed.

Lemma normalise_plain a t : plain a -> normalise (a ++ t) = a ++ normalise t.
Proof.
  induction 1 as [|ch a [Hz Hcr] _ IH]; [reflexivity|].
  cbn [app normalise].
  destruct (Z.eqb_spec ch NUL); [contradiction|].
  destruct (Z.eqb_spec ch ch_cr); [contradiction|].
  now rewrite IH.
Qed.

Lemma normalise_is_plain_upto n text :
  (length text <= n)%nat ->
  plain (normalise text) /\ (length (normalise text) <= length text)%nat.
Proof.
  revert text. induction n as [|n IH]; intros text Hlen.
  - destruct text; [|simpl in Hlen; lia]. split; [constructor|simpl; lia].
  - destruct text as [|ch text]; [split; [constructor|simpl; lia]|].
    cbn [normalise length] in *.
    destruct (Z.eqb_spec ch NUL); [split; [constructor|simpl; lia]|].
    destruct (Z.eqb_spec ch ch_cr).
    + destruct text as [|ch2 text].
      * split; [|simpl; lia]. apply Forall_cons_2; [|constructor]. split; discriminate.
      * cbn [length] in Hlen. destruct (ch2 =? ch_nl).
        -- destruct (IH text ltac:(lia)) as [Hp Hl]. split; [|simpl; lia].
           apply Forall_cons_2; [split; discriminate | exact Hp].
        -- destruct (IH (ch2 :: text) ltac:(simpl; lia)) as [Hp Hl].
           split; [|simpl in *; lia].
           apply Forall_cons_2; [split; discriminate | exact Hp].
    + destruct (IH text ltac:(lia)) as [Hp Hl]. split; [|simpl; lia].
      apply Forall_cons_2; [now split | exact Hp].
Qed.

Lemma plain_check s :
  forallb (fun ch => negb (ch =? NUL) && negb (ch =? ch_cr)) s = true -> plain s.
Proof.
  intros H. apply Forall_forall. intros ch Hin.
  rewrite forallb_forall in H. apply list_elem_of_In in Hin. apply H in Hin.
  apply andb_true_iff in Hin as [H1 H2].
  split; intros ->; discriminate.
Qed.

(** X26: the in-place loop of [loadFile] always ends inside the buffer.
    The content it leaves holds no carriage return and no zero byte, is no
    longer than the file, and is left as it is when loaded again.  A
    stretch without carriage return or zero byte is kept as it is; behind
    it, CR LF and a lone CR each become one LF, and a zero byte ends the
    content. *)
Theorem file_content_canonical_line_endings (a b : list Z) :
  plain a ->
  (exists content,
     file_content b = Some content /\ plain content
     /\ (length content <= length b)%nat /\ file_content content = Some content)
  /\ file_content a = Some a
  /\ file_content (a ++ NUL :: b) = Some a
  /\ file_content (a ++ ch_cr :: ch_nl :: b)
     = option_map (app (a ++ [ch_nl])) (file_content b)
  /\ (head b <> Some ch_nl ->
      file_content (a ++ ch_cr :: b) = option_map (app (a ++ [ch_nl])) (file_content b)).
Proof.
  intros Ha. rewrite !file_content_normalise. split; [|split; [|split; [|split]]].
  - exists (normalise b). split; [reflexivity|].
    destruct (normalise_is_plain_upto (length b) b (le_n _)) as [Hp Hl].
    split; [exact Hp|]. split; [exact Hl|].
    rewrite file_content_normalise. f_equal.
    rewrite <- (app_nil_r (normalise b)) at 1.
    rewrite normalise_plain by exact Hp. cbn [normalise]. now rewrite app_nil_r.
  - f_equal. rewrite <- (app_nil_r a) at 1.
    rewrite normalise_plain by exact Ha. cbn [normalise]. now rewrite app_nil_r.
  - f_equal. rewrite normalise_plain by exact Ha. cbn [normalise].
    rewrite Z.eqb_refl. now rewrite app_nil_r.
  - cbn [option_map]. f_equal. rewrite normalise_plain by exact Ha.
    rewrite <- app_assoc. reflexivity.
  - intros Hb. cbn [option_map]. f_equal. rewrite normalise_plain by exact Ha.
    rewrite <- app_assoc. cbn [app]. f_equal.
    change (normalise (ch_cr :: b))
      with (ch_nl :: match b with
                     | ch2 :: text'' =>
                         if ch2 =? ch_nl then normalise text'' else normalise b
                     | [] => []
                     end).
    f_equal. destruct b as [|ch2 b]; [reflexivity|].
    destruct (Z.eqb_spec ch2 ch_nl) as [->|_]; [now contradiction Hb | reflexivity].
Qed.

Lemma file_content_canonical_line_endings_witness :
  let a := lit "int x;" in
  let b := lit "y" ++ [ch_cr; ch_cr; ch_nl; NUL] ++ lit "z" in
  (exists content,
     file_content b = Some content /\ plain content
     /\ (length content <= length b)%nat /\ file_content content = Some content)
  /\ file_content a = Some a
  /\ file_content (a ++ NUL :: b) = Some a
  /\ file_content (a ++ ch_cr :: ch_nl :: b)
     = option_map (app (a ++ [ch_nl])) (file_content b)
  /\ (head b <> Some ch_nl ->
      file_content (a ++ ch_cr :: b) = option_map (app (a ++ [ch_nl])) (file_content b)).
Proof.
  apply (file_content_canonical_line_endings (lit "int x;")
           (lit "y" ++ [ch_cr; ch_cr; ch_nl; NUL] ++ lit "z")).
  apply plain_check. reflexivity.
Defined.

Example file_content_mixed_endings :
  file_content (lit "a" ++ [ch_cr; ch_nl] ++ lit "b" ++ [ch_cr] ++ lit "c" ++ [ch_nl; ch_cr])
  = Some (lit "a" ++ [ch_nl] ++ lit "b" ++ [ch_nl] ++ lit "c" ++ [ch_nl; ch_nl]).
Proof. reflexivity. Qed.

Lemma identify_lines_spec rest cur lineStart :
  nonul rest ->
  lineStart + Z.of_nat (length cur) + Z.of_nat (length rest) <= INT_MAX ->
  identify_lines (rest ++ [NUL]) (lineStart + Z.of_nat (length cur)) lineStart
  = Some (line_table lineStart
            (lines_from cur
               (if ends_open (negb (bool_decide (cur = []))) rest
                then rest ++ [ch_nl] else rest))).
Proof.
  intros Hrest. revert cur lineStart.
  induction Hrest as [|ch rest Hch _ IH]; intros cur lineStart Hfit.
  - cbn [app identify_lines ends_open].
    change (NUL =? ch_nl) with false. rewrite Z.eqb_refl. cbv iota.
    destruct cur as [|c cur].
    + cbn [length]. rewrite Z.add_0_r.
      destruct (Z.ltb_spec lineStart lineStart); [lia|]. reflexivity.
    + rewrite bool_decide_eq_false_2 by discriminate. cbn [negb].
      destruct (Z.ltb_spec lineStart (lineStart + Z.of_nat (length (c :: cur))));
        [|cbn [length] in *; lia].
      cbn [app lines_from]. rewrite Z.eqb_refl. cbn [line_table lines_from].
      rewrite length_rev. do 3 f_equal. lia.
  - cbn [app identify_lines ends_open]. cbn [length] in Hfit.
    destruct (Z.ltb_spec (lineStart + Z.of_nat (length cur)) INT_MAX); [|lia].
    destruct (Z.eqb_spec ch ch_nl) as [->|Hnl].
    + cbn [negb].
      specialize (IH [] (lineStart + Z.of_nat (length cur) + 1)).
      cbn [length] in IH. rewrite Z.add_0_r in IH. rewrite IH by lia.
      rewrite bool_decide_eq_true_2 by reflexivity. cbn [negb option_map].
      f_equal.
      assert (Hstep : forall t, lines_from cur (ch_nl :: t) = rev cur :: lines_from [] t).
      { intros t. cbn [lines_from]. now rewrite Z.eqb_refl. }
      destruct (ends_open false rest); cbn [app]; rewrite Hstep; cbn [line_table];
        rewrite length_rev; do 2 f_equal; lia.
    + not_terminator ch. cbn [negb].
      specialize (IH (ch :: cur) lineStart).
      cbn [length] in IH.
      replace (lineStart + Z.of_nat (S (length cur)))
        with (lineStart + Z.of_nat (length cur) + 1) in IH by lia.
      rewrite IH by lia.
      rewrite bool_decide_eq_false_2 by discriminate. cbn [negb].
      assert (Hstep : forall t, lines_from cur (ch :: t) = lines_from (ch :: cur) t).
      { intros t. cbn [lines_from]. destruct (Z.eqb_spec ch ch_nl); [contradiction|].
        reflexivity. }
      destruct (ends_open true rest); cbn [app]; now rewrite Hstep.
Qed.

Lemma ends_open_last open text :
  ends_open open text
  = match last text with
    | Some ch => negb (ch =? ch_nl)
    | None => open
    end.
Proof.
  revert open. induction text as [|ch text IH]; intros open; [reflexivity|].
  cbn [ends_open]. rewrite IH. destruct text as [|z text]; [reflexivity|].
  change (last (ch :: z :: text)) with (last (z :: text)).
  destruct (last (z :: text)) eqn:E; [reflexivity|].
  apply last_None in E. discriminate E.
Qed.

Lemma terminated_last text :
  terminated text
  = match last text with
    | Some ch => if ch =? ch_nl then text else text ++ [ch_nl]
    | None => text
    end.
Proof.
  unfold terminated. rewrite ends_open_last.
  destruct (last text) as [ch|]; [|reflexivity]. now destruct (ch =? ch_nl).
Qed.

Lemma terminated_closed text : ends_open false (terminated text) = false.
Proof.
  unfold terminated. destruct (ends_open false text) eqn:E; [|exact E].
  rewrite ends_open_last, last_snoc. now rewrite Z.eqb_refl.
Qed.

Lemma lines_from_closed text cur :
  ends_open (negb (bool_decide (cur = []))) text = false -> ch_nl ∉ cur ->
  record_bytes (lines_from cur text) = rev cur ++ text
  /\ Forall (fun l => ch_nl ∉ l) (lines_from cur text).
Proof.
  revert cur. induction text as [|ch text IH]; intros cur Hclosed Hcur.
  - cbn [ends_open] in Hclosed. destruct cur as [|c cur]; [|discriminate Hclosed].
    split; [reflexivity|constructor].
  - cbn [ends_open lines_from] in *.
    destruct (Z.eqb_spec ch ch_nl) as [->|Hnl].
    + destruct (IH [] Hclosed ltac:(apply not_elem_of_nil)) as [Hbytes Hall].
      split.
      * cbn [record_bytes flat_map]. fold (record_bytes (lines_from [] text)).
        rewrite Hbytes, <- app_assoc. reflexivity.
      * apply Forall_cons_2; [|exact Hall].
        intros Hin. apply Hcur. apply list_elem_of_In, in_rev.
        now apply list_elem_of_In.
    + destruct (IH (ch :: cur)) as [Hbytes Hall].
      * now rewrite bool_decide_eq_false_2 by discriminate.
      * apply not_elem_of_cons. split; [congruence | exact Hcur].
      * split; [|exact Hall]. rewrite Hbytes. cbn [rev].
        rewrite <- app_assoc. reflexivity.
Qed.

Lemma plain_nonul text : plain text -> nonul text.
Proof. intros H. eapply Forall_impl; [exact H|]. now intros ch [? _]. Qed.

Lemma identify_lines_overflow rest i lineStart :
  nonul rest -> i <= INT_MAX -> INT_MAX < i + Z.of_nat (length rest) ->
  identify_lines (rest ++ [NUL]) i lineStart = None.
Proof.
  intros Hrest. revert i lineStart.
  induction Hrest as [|ch rest Hch _ IH]; intros i lineStart Hi Hbig;
    cbn [length] in Hbig; [lia|].
  cbn [app identify_lines]. not_terminator ch.
  destruct (Z.ltb_spec i INT_MAX).
  - destruct (ch =? ch_nl); rewrite IH by lia; reflexivity.
  - destruct (ch =? ch_nl); reflexivity.
Qed.

Lemma loadFile_spec qfile m_path content :
  match qfile with
  | None => Some (lit "Error: cannot open " ++ m_path)
  | Some bytes => file_content bytes
  end = Some content ->
  nonul content -> fits_int content ->
  loadFile qfile m_path = Some (content, line_table 0 (lines (terminated content)))
  /\ record_bytes (lines (terminated content)) = terminated content
  /\ Forall (fun l => ch_nl ∉ l) (lines (terminated content)).
Proof.
  intros Hcontent Hnul Hfit. unfold loadFile. rewrite Hcontent.
  pose proof (identify_lines_spec content [] 0 Hnul) as Hid.
  cbn [length] in Hid. change (0 + Z.of_nat 0) with 0 in Hid.
  rewrite Hid by (unfold fits_int in Hfit; lia). split; [reflexivity|].
  apply (lines_from_closed (terminated content) []).
  - apply terminated_closed.
  - apply not_elem_of_nil.
Qed.

(** X27: [loadFile] leaves in [m_content] the file with its line endings
    made line feeds, no longer than the file, or for a file that cannot be
    opened the error message.  When that content is shorter than [2^31]
    bytes, [m_lines] is the table of its lines: the first line starts at 0,
    each next one behind the line feed of the one before, and each length
    is that of the line without its line feed.  The lines are the runs
    between line feeds; a last line without a line feed is listed too,
    unless it is empty.  On a content of [2^31] bytes or more the [int]
    index of the line loop overflows: the call has no defined result. *)
Theorem loadFile_line_table (qfile : option (list Z)) (m_path : list Z) :
  nonul m_path ->
  exists content,
    (qfile = None -> content = lit "Error: cannot open " ++ m_path)
    /\ (forall bytes, qfile = Some bytes ->
          file_content bytes = Some content /\ (length content <= length bytes)%nat)
    /\ (fits_int content ->
        exists ls,
          loadFile qfile m_path = Some (content, line_table 0 ls)
          /\ Forall (fun l => ch_nl ∉ l) ls
          /\ record_bytes ls
             = match last content with
               | Some ch => if ch =? ch_nl then content else content ++ [ch_nl]
               | None => content
               end)
    /\ (~ fits_int content -> loadFile qfile m_path = None).
Proof.
  intros Hpath.
  assert (Hc : exists content,
             match qfile with
             | None => Some (lit "Error: cannot open " ++ m_path)
             | Some bytes => file_content bytes
             end = Some content
             /\ nonul content
             /\ (forall bytes, qfile = Some bytes ->
                   (length content <= length bytes)%nat)).
  { destruct qfile as [bytes|].
    - exists (normalise bytes). split; [apply file_content_normalise|].
      destruct (normalise_is_plain_upto (length bytes) bytes (le_n _)) as [Hp Hl].
      split; [now apply plain_nonul|]. intros bytes' Heq.
      now injection Heq as <-.
    - eexists. split; [reflexivity|]. split; [|discriminate].
      apply nonul_app. split; [apply nonul_check; reflexivity | exact Hpath]. }
  destruct Hc as (content & Hcontent & Hnul & Hlen).
  exists content. split; [|split; [|split]].
  - intros ->. now injection Hcontent as <-.
  - intros bytes Heq. split; [subst qfile; exact Hcontent | now apply Hlen].
  - intros Hcfit.
    destruct (loadFile_spec qfile m_path content Hcontent Hnul Hcfit)
      as (Hrun & Hbytes & Hall).
    exists (lines (terminated content)).
    split; [exact Hrun|]. split; [exact Hall|].
    now rewrite Hbytes, terminated_last.
  - intros Hbig. unfold loadFile. rewrite Hcontent.
    rewrite identify_lines_overflow;
      [reflexivity | exact Hnul | unfold INT_MAX; lia |].
    unfold fits_int in Hbig. lia.
Qed.

Lemma loadFile_line_table_witness :
  let content := lit "ab" ++ [ch_nl; ch_nl] ++ lit "c" in
  exists ls,
    loadFile (Some (lit "ab" ++ [ch_cr; ch_nl; ch_nl] ++ lit "c")) (lit "/src/a.c")
    = Some (content, line_table 0 ls)
    /\ Forall (fun l => ch_nl ∉ l) ls
    /\ record_bytes ls = content ++ [ch_nl].
Proof.
  intros content.
  destruct (loadFile_line_table
              (Some (lit "ab" ++ [ch_cr; ch_nl; ch_nl] ++ lit "c")) (lit "/src/a.c"))
    as (content' & _ & Hsome & Hshort & _).
  - apply nonul_check. reflexivity.
  - destruct (Hsome _ eq_refl) as [Hcontent _].
    assert (Heq : content' = content).
    { change (Some content = Some content') in Hcontent. now injection Hcontent. }
    subst content'. apply Hshort. apply fits_int_check. reflexivity.
Defined.

Example loadFile_three_lines :
  loadFile (Some (lit "ab" ++ [ch_cr; ch_nl; ch_nl] ++ lit "c")) (lit "/src/a.c")
  = Some (lit "ab" ++ [ch_nl; ch_nl] ++ lit "c", [(0, 2); (3, 0); (4, 1)]).
Proof. reflexivity. Qed.

Example loadFile_missing_file :
  loadFile None (lit "x")
  = Some (lit "Error: cannot open x", [(0, 20)]).
Proof. reflexivity. Qed.

(** * Filling memory *)

Lemma safeMemSet_spec s c n :
  safeMemSet s c n
  = if (n <=? length s)%nat then Some (replicate n (c mod 256) ++ drop n s) else None.
Proof.
  revert s. induction n as [|n IH]; intros s.
  - reflexivity.
  - destruct s as [|x s]; [reflexivity|].
    cbn [safeMemSet length]. rewrite IH.
    change (S n <=? S (length s))%nat with (n <=? length s)%nat.
    destruct (n <=? length s)%nat; reflexivity.
Qed.

(** X28: [safeMemSet] sets the first [n] bytes of the array to the low
    eight bits of [c] and leaves the bytes behind them alone, so with
    [c = 0] and [n] the size of the array, as [openLogFile] and
    [closeLogFile] use it on the lock description, every byte is zero;
    with [n] beyond the array it writes past the end. *)
Theorem safeMemSet_fills_prefix (s : list Z) (c : Z) (n : nat) :
  ((n <= length s)%nat ->
   safeMemSet s c n = Some (replicate n (c mod 256) ++ drop n s))
  /\ safeMemSet s 0 (length s) = Some (replicate (length s) 0)
  /\ ((length s < n)%nat -> safeMemSet s c n = None).
Proof.
  repeat split.
  - intros Hn. rewrite safeMemSet_spec.
    destruct (Nat.leb_spec n (length s)); [reflexivity|lia].
  - rewrite safeMemSet_spec, Nat.leb_refl, drop_all, app_nil_r. reflexivity.
  - intros Hn. rewrite safeMemSet_spec.
    destruct (Nat.leb_spec n (length s)); [lia|reflexivity].
Qed.

Lemma safeMemSet_fills_prefix_witness :
  safeMemSet [1; 2; 3; 4; 5] 511 3 = Some ([255; 255; 255] ++ [4; 5])
  /\ safeMemSet [1; 2; 3; 4; 5] 511 6 = None.
Proof.
  destruct (safeMemSet_fills_prefix [1; 2; 3; 4; 5] 511 3) as (Hin & _ & _).
  destruct (safeMemSet_fills_prefix [1; 2; 3; 4; 5] 511 6) as (_ & _ & Hout).
  split; [apply Hin; simpl; lia | apply Hout; simpl; lia].
Defined.
